(** * elmybot: the per-guild scheduler (GuildScheduler) of src/index.js

    A shallow embedding of the Durable Object that stores scheduled jobs,
    keeps one alarm pointed at the earliest job, and delivers due jobs from
    its alarm handler.

    Modelling conventions.
    - JavaScript numbers that the scheduler handles (Unix seconds, epoch
      milliseconds) are integers and are modelled as [Z]; non-finite and
      fractional doubles are outside the model.
    - Strings are byte strings; literals of the source are kept verbatim
      (UTF-8).
    - One handler runs at a time: the awaits inside a request or an alarm are
      not interleaved with another handler of the same object.
    - Storage operations do not fail, and the POST to Discord always comes
      back with a response (a rejected promise is outside the model).
    - [Date.now()], [crypto.randomUUID()] and the Discord HTTP API are the
      host: a [Host] record of oracles, indexed by how many calls were made
      so far, which the [World] counts. *)

From stdpp Require Import gmap strings list fin_maps pretty sorting.

Open Scope string_scope.
Open Scope Z_scope.

(** ** JavaScript values kept in storage *)

(** A value as the structured clone of storage may hold it under a key of
    the [delivered] object. [JObject] stands for any non-null object. *)
Inductive JsVal :=
| JUndefined
| JNull
| JBool (b : bool)
| JNum (n : Z)
| JStr (s : string)
| JObject.

(** [typeof v] *)
Definition typeof (v : JsVal) : string :=
  match v with
  | JUndefined => "undefined"
  | JNull => "object"
  | JBool _ => "boolean"
  | JNum _ => "number"
  | JStr _ => "string"
  | JObject => "object"
  end.

(** ** Jobs *)

(** The object [j] built by [/schedule] (index.js, 336-346). *)
Record Job := {
  id : string;
  guildId : string;
  channelId : string;
  doAtType : string;
  doAtSubject : string;
  scheduledUnix : Z;
  runAtMs : Z;
  repeatDaily : bool;
  createdBy : option string
}.

#[global] Instance Job_eq_dec : EqDecision Job.
Proof. solve_decision. Defined.

#[global] Instance JsVal_eq_dec : EqDecision JsVal.
Proof. solve_decision. Defined.

(** [{ ...cur, scheduledUnix: nextUnix, runAtMs: nextMs }] (index.js, 560-564). *)
Definition withTimes (cur : Job) (nextUnix nextMs : Z) : Job :=
  {| id := id cur;
     guildId := guildId cur;
     channelId := channelId cur;
     doAtType := doAtType cur;
     doAtSubject := doAtSubject cur;
     scheduledUnix := nextUnix;
     runAtMs := nextMs;
     repeatDaily := repeatDaily cur;
     createdBy := createdBy cur |}.

(** *** [jobs.sort((a, b) => a.runAtMs - b.runAtMs)]

    [Array.prototype.sort] is stable; on integer keys the comparator is a
    consistent order, so the result is the stable sort by [runAtMs].
    [insertJob] puts a job in front of the first job that is not earlier
    than it, and [sortJobs] inserts from the right, which keeps equal keys
    in their original order. *)
Fixpoint insertJob (j : Job) (l : list Job) : list Job :=
  match l with
  | [] => [j]
  | k :: l' => if runAtMs j <=? runAtMs k then j :: k :: l' else k :: insertJob j l'
  end.

Definition sortJobs (l : list Job) : list Job := foldr insertJob [] l.

(** [jobs.findIndex(p)]: the first index whose job satisfies [p], or
    [None] for the source's [-1]. *)
Fixpoint findIndex (p : Job -> bool) (l : list Job) : option nat :=
  match l with
  | [] => None
  | j :: l' => if p j then Some O else S <$> findIndex p l'
  end.

(** [jobs.splice(idx, 1)] for [idx] in range. *)
Definition splice1 (idx : nat) (l : list Job) : list Job := delete idx l.

(** The predicate of the two occurrence lookups of the alarm handler
    (index.js, 495-497 and 541-543). *)
Definition sameOccurrence (job j : Job) : bool :=
  String.eqb (id j) (id job) && (scheduledUnix j =? scheduledUnix job).

(** ** The dedup cache *)

(** [DELIVERED_TTL_MS] (index.js, 139). *)
Definition DELIVERED_TTL_MS : Z := 14 * 24 * 60 * 60 * 1000.

(** [deliveryKey(job)] (index.js, 141-144): the template literal
    [`${job.id}:${job.scheduledUnix}`]. *)
Definition deliveryKey (job : Job) : string :=
  id job +:+ ":" +:+ pretty (scheduledUnix job).

(** The test of [pruneDelivered]'s loop body:
    [typeof v !== "number" || v < nowMs - DELIVERED_TTL_MS]. *)
Definition stale (nowMs : Z) (v : JsVal) : bool :=
  negb (String.eqb (typeof v) "number")
  || match v with JNum n => n <? nowMs - DELIVERED_TTL_MS | _ => false end.

(** [pruneDelivered(delivered, nowMs)] (index.js, 146-150).
    [Object.entries] takes a snapshot of the entries; the loop then walks the
    snapshot and deletes each stale key from the object itself. *)
Definition pruneDelivered (delivered : gmap string JsVal) (nowMs : Z) : gmap string JsVal :=
  foldl (λ d kv, if stale nowMs kv.2 then delete kv.1 d else d)
        delivered (map_to_list delivered).

(** [delivered[key] !== undefined] (index.js, 486). Every key has a colon in
    it, so no property of [Object.prototype] answers the lookup. *)
Definition alreadyDelivered (delivered : gmap string JsVal) (key : string) : bool :=
  match delivered !! key with
  | None => false
  | Some JUndefined => false
  | Some _ => true
  end.

(** ** The kind handlers *)

(** The three entries of [doAtTypeHandlers] (index.js, 121-137). *)
Inductive Handler := PingRole | PingUser | ChannelMessage.

(** The [allowed_mentions] object a handler builds. *)
Inductive Mentions :=
| MentionRoles (roles : list string)
| MentionUsers (users : list string)
| MentionParse (parse : list string).

Definition innerContent (h : Handler) (j : Job) : string :=
  match h with
  | PingRole => "<@&" +:+ doAtSubject j +:+ ">"
  | PingUser => "<@" +:+ doAtSubject j +:+ ">"
  | ChannelMessage => doAtSubject j
  end.

Definition allowedMentions (h : Handler) (j : Job) : Mentions :=
  match h with
  | PingRole => MentionRoles [doAtSubject j]
  | PingUser => MentionUsers [doAtSubject j]
  | ChannelMessage => MentionParse []
  end.

Definition outerContent (h : Handler) (j : Job) (inner : string) : string :=
  match h with
  | PingRole =>
      inner +:+ " (scheduled role ping for <t:" +:+ pretty (scheduledUnix j) +:+ ":F>)"
  | PingUser =>
      inner +:+ " (scheduled user ping for <t:" +:+ pretty (scheduledUnix j) +:+ ":F>)"
  | ChannelMessage => inner
  end.

(** [doAtTypeHandlers] is an object literal, so its prototype is
    [Object.prototype]: both [k in doAtTypeHandlers] and
    [doAtTypeHandlers[k]] also answer for the property names
    [Object.prototype] carries, with a value that is truthy and is not a
    handler. *)
Definition objectPrototypeKeys : list string :=
  [ "constructor"; "hasOwnProperty"; "isPrototypeOf"; "propertyIsEnumerable";
    "toLocaleString"; "toString"; "valueOf"; "__proto__";
    "__defineGetter__"; "__defineSetter__"; "__lookupGetter__"; "__lookupSetter__" ].

Inductive Lookup :=
| Own (h : Handler)      (* one of the three handlers *)
| Inherited              (* a member of Object.prototype *)
| Missing.               (* undefined *)

(** [doAtTypeHandlers[k]] (index.js, 121-137) *)
Definition doAtTypeHandlers (k : string) : Lookup :=
  if String.eqb k "ping-role" then Own PingRole
  else if String.eqb k "ping-user" then Own PingUser
  else if String.eqb k "channel-message" then Own ChannelMessage
  else if bool_decide (k ∈ objectPrototypeKeys) then Inherited
  else Missing.

(** [k in doAtTypeHandlers] *)
Definition inHandlers (k : string) : bool :=
  match doAtTypeHandlers k with Missing => false | _ => true end.

(** ** The host and the world *)

(** The [Response] of [fetch] to Discord's channel-messages endpoint. *)
Record HttpResponse := { status : Z; text : string }.

(** [r.ok]: the status is in the range 200-299. *)
Definition ok (r : HttpResponse) : bool := (200 <=? status r) && (status r <=? 299).

(** One POST to [/channels/${job.channelId}/messages] (index.js, 511-521).
    [occurrence] is a ghost field: the [id] and [scheduledUnix] of the job
    the message was sent for. It is not part of the request and the host
    does not see it. *)
Record Sent := {
  toChannel : string;
  content : string;
  allowed_mentions : Mentions;
  occurrence : string * Z
}.

Record Host := {
  clock : nat -> Z;                 (* the n-th reading of Date.now() *)
  discord : nat -> HttpResponse;    (* the answer to the n-th POST *)
  uuid : nat -> string              (* the n-th crypto.randomUUID() *)
}.

Record World := {
  jobsStore : option (list Job);        (* storage key "jobs" *)
  deliveredStore : option (gmap string JsVal);
                                        (* storage key "delivered": an object, or
                                           [None] when the key is unset or holds
                                           a value that is not an object *)
  alarmAt : option Z;                   (* the object's alarm *)
  ticks : nat;                          (* Date.now() calls so far *)
  outbox : list Sent;                   (* POSTs so far, oldest first *)
  uuids : nat                           (* randomUUID calls so far *)
}.

Inductive Exn :=
| DiscordApiError (message : string)    (* new Error(`Discord API error ...`) *)
| TypeError.                            (* a member read or call on a non-handler *)

(** How an async function ends: it returns, it throws, or the model ran out
    of fuel for one of its [while] loops. *)
Inductive Outcome (A : Type) :=
| Returned (a : A)
| Threw (e : Exn)
| OutOfFuel.
Arguments Returned {A} a.
Arguments Threw {A} e.
Arguments OutOfFuel {A}.

Definition Eff (A : Type) : Type := World -> Outcome A * World.

#[global] Instance Eff_ret : MRet Eff := λ A a w, (Returned a, w).

#[global] Instance Eff_bind : MBind Eff := λ A B f m w,
  match m w with
  | (Returned a, w') => f a w'
  | (Threw e, w') => (Threw e, w')
  | (OutOfFuel, w') => (OutOfFuel, w')
  end.

Definition throw {A} (e : Exn) : Eff A := λ w, (Threw e, w).
Definition outOfFuel {A} : Eff A := λ w, (OutOfFuel, w).

Definition setJobs (l : list Job) (w : World) : World :=
  {| jobsStore := Some l; deliveredStore := deliveredStore w; alarmAt := alarmAt w;
     ticks := ticks w; outbox := outbox w; uuids := uuids w |}.

Definition setDelivered (d : gmap string JsVal) (w : World) : World :=
  {| jobsStore := jobsStore w; deliveredStore := Some d; alarmAt := alarmAt w;
     ticks := ticks w; outbox := outbox w; uuids := uuids w |}.

Definition setAlarmAt (a : option Z) (w : World) : World :=
  {| jobsStore := jobsStore w; deliveredStore := deliveredStore w; alarmAt := a;
     ticks := ticks w; outbox := outbox w; uuids := uuids w |}.

Definition tick (w : World) : World :=
  {| jobsStore := jobsStore w; deliveredStore := deliveredStore w; alarmAt := alarmAt w;
     ticks := S (ticks w); outbox := outbox w; uuids := uuids w |}.

Definition logSent (m : Sent) (w : World) : World :=
  {| jobsStore := jobsStore w; deliveredStore := deliveredStore w; alarmAt := alarmAt w;
     ticks := ticks w; outbox := (outbox w ++ [m])%list; uuids := uuids w |}.

Definition countUuid (w : World) : World :=
  {| jobsStore := jobsStore w; deliveredStore := deliveredStore w; alarmAt := alarmAt w;
     ticks := ticks w; outbox := outbox w; uuids := S (uuids w) |}.

(** [storage.transaction(body)]: the writes of a body that throws are rolled
    back. No body below throws after a write. *)
Definition transaction {A} (body : Eff A) : Eff A := λ w,
  match body w with
  | (Threw e, w') =>
      (Threw e,
       {| jobsStore := jobsStore w; deliveredStore := deliveredStore w;
          alarmAt := alarmAt w'; ticks := ticks w'; outbox := outbox w';
          uuids := uuids w' |})
  | r => r
  end.

Section GuildScheduler.

Context (host : Host).

(** [Date.now()] *)
Definition dateNow : Eff Z := λ w, (Returned (clock host (ticks w)), tick w).

(** [crypto.randomUUID()] *)
Definition randomUUID : Eff string := λ w, (Returned (uuid host (uuids w)), countUuid w).

(** [(await storage.get("jobs")) ?? []]; each read is a fresh copy, so the
    in-place sorts of the source do not reach storage. *)
Definition getJobs : Eff (list Job) := λ w, (Returned (default [] (jobsStore w)), w).

(** [await txn.put("jobs", jobs)] *)
Definition putJobs (l : list Job) : Eff unit := λ w, (Returned tt, setJobs l w).

(** [await storage.get("delivered")] *)
Definition getDelivered : Eff (option (gmap string JsVal)) := λ w, (Returned (deliveredStore w), w).

(** [await storage.put("delivered", delivered)] *)
Definition putDelivered (d : gmap string JsVal) : Eff unit :=
  λ w, (Returned tt, setDelivered d w).

(** [await storage.setAlarm(t)] and [await storage.deleteAlarm()] *)
Definition setAlarm (t : Z) : Eff unit := λ w, (Returned tt, setAlarmAt (Some t) w).
Definition deleteAlarm : Eff unit := λ w, (Returned tt, setAlarmAt None w).

(** [await fetch(`https://discord.com/api/v10/channels/...`, ...)] *)
Definition post (m : Sent) : Eff HttpResponse :=
  λ w, (Returned (discord host (length (outbox w))), logSent m w).

(** The alarm resync, written out three times in the source (index.js,
    356-366, 442-451 and 576-582): read the jobs, sort, point the alarm at
    the first one or delete the alarm. *)
Definition resyncAlarm : Eff unit :=
  jobsNow ← getJobs;
  let jobsNow := sortJobs jobsNow in
  match head jobsNow with
  | Some next => setAlarm (runAtMs next)
  | None => deleteAlarm
  end.

(** *** The request handler [GuildScheduler.fetch] *)

(** The JSON body the worker posts to [/schedule], with
    [Number(job.scheduledUnix)] already taken. *)
Record ScheduleBody := {
  b_guildId : string;
  b_channelId : string;
  b_doAtType : string;
  b_doAtSubject : string;
  b_scheduledUnix : Z;
  b_repeatDaily : JsVal;
  b_createdBy : option string
}.

(** The requests [fetch] tells apart by path and method. [PostCancel] holds
    [String(body?.jobId ?? "")]. *)
Inductive Request :=
| PostSchedule (job : ScheduleBody)
| GetList
| PostCancel (jobId : string)
| Other.

(** [Reply content] is [jsonResponse] of an interaction response of type 4
    whose data holds [flags: 64], [allowed_mentions: { parse: [] }] and
    [content]; [NotFound] is the final 404. *)
Inductive Response :=
| Reply (content : string)
| NotFound.

Definition nl : string := String (Ascii.ascii_of_nat 10) "".

(** [String.prototype.trim] strips the white space and the line
    terminators of ECMAScript from both ends: U+0009 to U+000D, U+0020,
    U+00A0, U+1680, U+2000 to U+200A, U+2028, U+2029, U+202F, U+205F,
    U+3000 and U+FEFF. Strings are held in UTF-8 here, so a code point is
    recognised by its encoding, of one, two or three bytes. *)
Definition isSpace (c : Ascii.ascii) : bool :=
  let n := Ascii.nat_of_ascii c in
  ((9 <=? n)%nat && (n <=? 13)%nat) || (n =? 32)%nat.

(** U+00A0 is the bytes C2 A0. *)
Definition isSpace2 (c1 c2 : Ascii.ascii) : bool :=
  (Ascii.nat_of_ascii c1 =? 194)%nat && (Ascii.nat_of_ascii c2 =? 160)%nat.

(** U+1680 is E1 9A 80; U+2000 to U+200A are E2 80 80 to E2 80 8A; U+2028,
    U+2029 and U+202F are E2 80 A8, A9 and AF; U+205F is E2 81 9F; U+3000
    is E3 80 80; U+FEFF is EF BB BF. *)
Definition isSpace3 (c1 c2 c3 : Ascii.ascii) : bool :=
  let a := Ascii.nat_of_ascii c1 in
  let b := Ascii.nat_of_ascii c2 in
  let c := Ascii.nat_of_ascii c3 in
  ((a =? 225) && (b =? 154) && (c =? 128))%nat
  || ((a =? 226) && (b =? 128)
      && (((128 <=? c) && (c <=? 138)) || (c =? 168) || (c =? 169) || (c =? 175)))%nat
  || ((a =? 226) && (b =? 129) && (c =? 159))%nat
  || ((a =? 227) && (b =? 128) && (c =? 128))%nat
  || ((a =? 239) && (b =? 187) && (c =? 191))%nat.

Fixpoint trimStart (s : string) : string :=
  match s with
  | String c1 s1 =>
      if isSpace c1 then trimStart s1
      else
        match s1 with
        | String c2 s2 =>
            if isSpace2 c1 c2 then trimStart s2
            else
              match s2 with
              | String c3 s3 => if isSpace3 c1 c2 c3 then trimStart s3 else s
              | EmptyString => s
              end
        | EmptyString => s
        end
  | EmptyString => EmptyString
  end.

(** The end of the string is cut where all that follows is white space. In
    well-formed UTF-8 no code point starts in the middle of another, so the
    cut falls between two code points. *)
Fixpoint trimEnd (s : string) : string :=
  match s with
  | String c s' =>
      if String.eqb (trimStart s) "" then "" else String c (trimEnd s')
  | EmptyString => EmptyString
  end.

Definition trim (s : string) : string := trimEnd (trimStart s).

(** [/schedule] (index.js, 322-379) *)
Definition schedule (job : ScheduleBody) : Eff Response :=
  if negb (inHandlers (b_doAtType job)) then mret (Reply "Invalid target type.")
  else
    newId ← randomUUID;
    let unix := b_scheduledUnix job in
    let j := {| id := newId;
                guildId := b_guildId job;
                channelId := b_channelId job;
                doAtType := b_doAtType job;
                doAtSubject := b_doAtSubject job;
                scheduledUnix := unix;
                runAtMs := unix * 1000;
                repeatDaily := bool_decide (b_repeatDaily job = JBool true);
                createdBy := b_createdBy job |} in
    transaction (
      jobs ← getJobs;
      let jobs := (jobs ++ [j])%list in
      let jobs := sortJobs jobs in
      putJobs jobs);;
    resyncAlarm;;
    mret (Reply (
      "✅ Scheduled job for <t:" +:+ pretty (scheduledUnix j) +:+ ":F> (<t:"
        +:+ pretty (scheduledUnix j) +:+ ":R>)"
      +:+ (if repeatDaily j then nl +:+ "🔁 Repeats daily." else "")
      +:+ nl +:+ "Job ID: `" +:+ id j +:+ "`")).

(** One line of [/list] (index.js, 392-397). A kind that is not one of the
    three handlers makes [doAtTypeHandlers[j.doAtType].innerContent(j)]
    throw. *)
Definition listLine (j : Job) : Eff string :=
  match doAtTypeHandlers (doAtType j) with
  | Own h =>
      mret ("• <t:" +:+ pretty (scheduledUnix j) +:+ ":F> (<t:"
            +:+ pretty (scheduledUnix j) +:+ ":R>) — " +:+ innerContent h j
            +:+ " in <#" +:+ channelId j +:+ ">"
            +:+ (if repeatDaily j then " 🔁 daily" else "")
            +:+ " — id: `" +:+ id j +:+ "`")
  | _ => throw TypeError
  end.

Fixpoint mapEff {A B} (f : A -> Eff B) (l : list A) : Eff (list B) :=
  match l with
  | [] => mret []
  | a :: l' => b ← f a; bs ← mapEff f l'; mret (b :: bs)
  end.

(** [lines.join("\n")] *)
Fixpoint join (sep : string) (lines : list string) : string :=
  match lines with
  | [] => ""
  | [s] => s
  | s :: rest => s +:+ sep +:+ join sep rest
  end.

(** [/list] (index.js, 381-407) *)
Definition listJobs : Eff Response :=
  jobs ← getJobs;
  let jobs := sortJobs jobs in
  if bool_decide (length jobs = 0%nat) then mret (Reply "No scheduled jobs.")
  else
    shown ← mapEff listLine (take 15 jobs);
    mret (Reply ("📌 Scheduled jobs (" +:+ pretty (length jobs) +:+ " total):"
                 +:+ nl +:+ join nl shown)).

(** [/cancel] (index.js, 409-461). [None] from the transaction is
    [{ found: false }]. *)
Definition cancel (rawJobId : string) : Eff Response :=
  let jobId := trim rawJobId in
  if String.eqb jobId "" then mret (Reply "Provide a valid `job_id`.")
  else
    result ← transaction (
      jobs ← getJobs;
      match findIndex (λ j, String.eqb (id j) jobId) jobs with
      | None => mret None
      | Some idx =>
          match jobs !! idx with
          | Some removed =>
              let jobs := splice1 idx jobs in
              let jobs := sortJobs jobs in
              putJobs jobs;;
              mret (Some removed)
          | None => throw TypeError
          end
      end);
    match result with
    | None => mret (Reply ("No job found: `" +:+ jobId +:+ "`"))
    | Some removed =>
        resyncAlarm;;
        mret (Reply ("🗑️ Cancelled job `" +:+ jobId +:+ "` scheduled for <t:"
                     +:+ pretty (scheduledUnix removed) +:+ ":F>."))
    end.

(** [async fetch(request)] (index.js, 319-464) *)
Definition fetch (request : Request) : Eff Response :=
  match request with
  | PostSchedule job => schedule job
  | GetList => listJobs
  | PostCancel jobId => cancel jobId
  | Other => mret NotFound
  end.

(** *** The alarm handler [GuildScheduler.alarm] *)

(** The catch-up loop [while (nextMs <= Date.now()) { ... }] (index.js,
    555-558); every test of the condition reads the clock. *)
Fixpoint catchUp (fuel : nat) (nextUnix nextMs : Z) : Eff (Z * Z) :=
  match fuel with
  | O => outOfFuel
  | S fuel' =>
      now ← dateNow;
      if nextMs <=? now
      then catchUp fuel' (nextUnix + 86400) (nextMs + 86400000)
      else mret (nextUnix, nextMs)
  end.

(** The transaction that drops a job of unknown kind (index.js, 493-503). *)
Definition purge (job : Job) : Eff unit :=
  transaction (
    curJobs ← getJobs;
    match findIndex (sameOccurrence job) curJobs with
    | Some idx =>
        let curJobs := splice1 idx curJobs in
        let curJobs := sortJobs curJobs in
        putJobs curJobs
    | None => mret tt
    end).

(** Step 2 of the loop body, the transaction that removes or reschedules
    the occurrence (index.js, 537-569). *)
Definition settle (fuel : nat) (job : Job) : Eff unit :=
  transaction (
    curJobs ← getJobs;
    let curJobs := sortJobs curJobs in
    match findIndex (sameOccurrence job) curJobs with
    | None => mret tt
    | Some idx =>
        match curJobs !! idx with
        | None => throw TypeError
        | Some cur =>
            let curJobs := splice1 idx curJobs in
            curJobs ← (if repeatDaily cur then
                         next ← catchUp fuel (scheduledUnix cur + 86400)
                                             (runAtMs cur + 86400000);
                         mret (curJobs ++ [withTimes cur next.1 next.2])%list
                       else mret curJobs);
            let curJobs := sortJobs curJobs in
            putJobs curJobs
        end
    end).

(** Step 1 of the loop body for a job with a handler: render, send, and
    either throw or mark the key (index.js, 507-533). Returns the in-memory
    [delivered] object. *)
Definition deliver (h : Handler) (job : Job) (key : string)
    (delivered : gmap string JsVal) : Eff (gmap string JsVal) :=
  let inner := innerContent h job in
  let mentions := allowedMentions h job in
  let content := outerContent h job inner in
  r ← post {| toChannel := channelId job; content := content;
              allowed_mentions := mentions;
              occurrence := (id job, scheduledUnix job) |};
  if negb (ok r) then
    now ← dateNow;
    let delivered := pruneDelivered delivered now in
    putDelivered delivered;;
    throw (DiscordApiError
             ("Discord API error " +:+ pretty (status r) +:+ ": " +:+ text r))
  else
    now ← dateNow;
    let delivered := <[key := JNum now]> delivered in
    let delivered := pruneDelivered delivered now in
    putDelivered delivered;;
    mret delivered.

Inductive Flow := Break | Continue.

(** One pass through the body of [while (true)] (index.js, 476-569). *)
Definition iteration (fuel : nat) (delivered : gmap string JsVal)
    : Eff (Flow * gmap string JsVal) :=
  nowMs ← dateNow;
  jobsNow ← getJobs;
  let jobsNow := sortJobs jobsNow in
  match head jobsNow with
  | None => mret (Break, delivered)
  | Some job =>
      if runAtMs job >? nowMs then mret (Break, delivered)
      else
        let key := deliveryKey job in
        if negb (alreadyDelivered delivered key) then
          match doAtTypeHandlers (doAtType job) with
          | Missing => purge job;; mret (Continue, delivered)
          | Inherited => throw TypeError
          | Own h =>
              delivered ← deliver h job key delivered;
              settle fuel job;;
              mret (Continue, delivered)
          end
        else
          settle fuel job;;
          mret (Continue, delivered)
  end.

(** [while (true) { ... }]; [inner] is the fuel of each catch-up loop. *)
Fixpoint drain (inner fuel : nat) (delivered : gmap string JsVal)
    : Eff (gmap string JsVal) :=
  match fuel with
  | O => outOfFuel
  | S fuel' =>
      r ← iteration inner delivered;
      match r.1 with
      | Break => mret r.2
      | Continue => drain inner fuel' r.2
      end
  end.

(** [async alarm()] (index.js, 469-583) *)
Definition alarm (fuel : nat) : Eff unit :=
  stored ← getDelivered;
  let delivered := default ∅ stored in
  now ← dateNow;
  let delivered := pruneDelivered delivered now in
  delivered ← drain fuel fuel delivered;
  now ← dateNow;
  let delivered := pruneDelivered delivered now in
  putDelivered delivered;;
  resyncAlarm.

End GuildScheduler.

(** * Notions the properties are stated with *)

(** The order of the Job Set. *)
Definition earlier (a b : Job) : Prop := runAtMs a ≤ runAtMs b.

(** The Job Set as every handler reads it: [storage.get("jobs") ?? []]. *)
Definition storedJobs (w : World) : list Job := default [] (jobsStore w).

(** The dedup cache as [alarm] loads it. *)
Definition storedDelivered (w : World) : gmap string JsVal :=
  default ∅ (deliveredStore w).

(** The alarm is the least [runAtMs] of the stored jobs, and there is no
    alarm exactly when no job is stored. *)
Definition alarmConsistent (w : World) : Prop :=
  match alarmAt w with
  | None => storedJobs w = []
  | Some t =>
      (∃ j, j ∈ storedJobs w ∧ runAtMs j = t) ∧
      (∀ j, j ∈ storedJobs w → t ≤ runAtMs j)
  end.

(** A sequence of requests served one after the other; a request that
    throws leaves its writes behind and the next one is served. *)
Definition serve (host : Host) (requests : list Request) (w : World) : World :=
  foldl (λ w r, (fetch host r w).2) w requests.

(** The job [/schedule] builds from a body and a fresh id. *)
Definition jobOf (newId : string) (job : ScheduleBody) : Job :=
  {| id := newId;
     guildId := b_guildId job;
     channelId := b_channelId job;
     doAtType := b_doAtType job;
     doAtSubject := b_doAtSubject job;
     scheduledUnix := b_scheduledUnix job;
     runAtMs := b_scheduledUnix job * 1000;
     repeatDaily := bool_decide (b_repeatDaily job = JBool true);
     createdBy := b_createdBy job |}.

(** A tenant before its first request: nothing stored, no alarm. *)
Definition freshWorld : World :=
  {| jobsStore := None; deliveredStore := None; alarmAt := None;
     ticks := 0; outbox := []; uuids := 0 |}.

(** [n] more readings of the clock. *)
Definition tickN (n : nat) (w : World) : World :=
  {| jobsStore := jobsStore w; deliveredStore := deliveredStore w; alarmAt := alarmAt w;
     ticks := (ticks w + n)%nat; outbox := outbox w; uuids := uuids w |}.

(** [k] days after the times of [cur]. *)
Definition advance (cur : Job) (k : nat) : Job :=
  withTimes cur (scheduledUnix cur + 86400 * Z.of_nat k)
                (runAtMs cur + 86400000 * Z.of_nat k).

(** The message [deliver] posts for [job]. *)
Definition messageFor (h : Handler) (job : Job) : Sent :=
  {| toChannel := channelId job;
     content := outerContent h job (innerContent h job);
     allowed_mentions := allowedMentions h job;
     occurrence := (id job, scheduledUnix job) |}.

(** The error [deliver] throws for the response [r]. *)
Definition apiError (r : HttpResponse) : Exn :=
  DiscordApiError ("Discord API error " +:+ pretty (status r) +:+ ": " +:+ text r).

(** The outcome of a step followed by [mret v]. *)
Definition andThen {A B} (out : Outcome A) (v : B) : Outcome B :=
  match out with
  | Returned _ => Returned v
  | Threw e => Threw e
  | OutOfFuel => OutOfFuel
  end.

(** What [settle] does in a world whose sorted Job Set is [job :: rest]:
    a one-off job is removed; a daily job is put back [S k] days later,
    where [k] counts the catch-up tests that found the new time not after
    the clock. *)
Inductive Settled (host : Host) (fuel : nat) (job : Job) (rest : list Job) (w : World)
  : Outcome unit → World → Prop :=
| SettledRemoved :
    repeatDaily job = false →
    Settled host fuel job rest w (Returned tt) (setJobs (sortJobs rest) w)
| SettledAdvanced (k : nat) :
    repeatDaily job = true →
    (k < fuel)%nat →
    (∀ i : nat, (i < k)%nat →
       runAtMs job + 86400000 * Z.of_nat (S i) ≤ clock host (ticks w + i)) →
    clock host (ticks w + k) < runAtMs job + 86400000 * Z.of_nat (S k) →
    Settled host fuel job rest w (Returned tt)
      (setJobs (sortJobs (rest ++ [advance job (S k)])) (tickN (S k) w))
| SettledOutOfFuel :
    repeatDaily job = true →
    (∀ i : nat, (i < fuel)%nat →
       runAtMs job + 86400000 * Z.of_nat (S i) ≤ clock host (ticks w + i)) →
    Settled host fuel job rest w OutOfFuel (tickN fuel w).

(** The paths through one pass of the loop body, from the in-memory cache
    [d] and the world [w]. *)
Inductive Iter (host : Host) (fuel : nat) (d : gmap string JsVal) (w : World)
  : Outcome (Flow * gmap string JsVal) → World → Prop :=
| IterIdle :
    sortJobs (storedJobs w) = [] →
    Iter host fuel d w (Returned (Break, d)) (tick w)
| IterNotDue (job : Job) (rest : list Job) :
    sortJobs (storedJobs w) = job :: rest →
    clock host (ticks w) < runAtMs job →
    Iter host fuel d w (Returned (Break, d)) (tick w)
| IterPurged (job : Job) (rest : list Job) (idx : nat) :
    sortJobs (storedJobs w) = job :: rest →
    runAtMs job ≤ clock host (ticks w) →
    alreadyDelivered d (deliveryKey job) = false →
    doAtTypeHandlers (doAtType job) = Missing →
    findIndex (sameOccurrence job) (storedJobs w) = Some idx →
    Iter host fuel d w (Returned (Continue, d))
      (setJobs (sortJobs (splice1 idx (storedJobs w))) (tick w))
| IterStuck (job : Job) (rest : list Job) :
    sortJobs (storedJobs w) = job :: rest →
    runAtMs job ≤ clock host (ticks w) →
    alreadyDelivered d (deliveryKey job) = false →
    doAtTypeHandlers (doAtType job) = Inherited →
    Iter host fuel d w (Threw TypeError) (tick w)
| IterSendFailed (job : Job) (rest : list Job) (h : Handler) :
    sortJobs (storedJobs w) = job :: rest →
    runAtMs job ≤ clock host (ticks w) →
    alreadyDelivered d (deliveryKey job) = false →
    doAtTypeHandlers (doAtType job) = Own h →
    ok (discord host (length (outbox w))) = false →
    Iter host fuel d w (Threw (apiError (discord host (length (outbox w)))))
      (setDelivered (pruneDelivered d (clock host (S (ticks w))))
         (tick (logSent (messageFor h job) (tick w))))
| IterSent (job : Job) (rest : list Job) (h : Handler) (out : Outcome unit) (w' : World) :
    sortJobs (storedJobs w) = job :: rest →
    runAtMs job ≤ clock host (ticks w) →
    alreadyDelivered d (deliveryKey job) = false →
    doAtTypeHandlers (doAtType job) = Own h →
    ok (discord host (length (outbox w))) = true →
    let now := clock host (S (ticks w)) in
    let d' := pruneDelivered (<[deliveryKey job := JNum now]> d) now in
    Settled host fuel job rest
      (setDelivered d' (tick (logSent (messageFor h job) (tick w)))) out w' →
    Iter host fuel d w (andThen out (Continue, d')) w'
| IterSkipped (job : Job) (rest : list Job) (out : Outcome unit) (w' : World) :
    sortJobs (storedJobs w) = job :: rest →
    runAtMs job ≤ clock host (ticks w) →
    alreadyDelivered d (deliveryKey job) = true →
    Settled host fuel job rest (tick w) out w' →
    Iter host fuel d w (andThen out (Continue, d)) w'.

(** Every POST from the [n0]-th on was answered with success. *)
Definition allOk (host : Host) (n0 : nat) (w : World) : Prop :=
  ∀ i : nat, (n0 ≤ i < length (outbox w))%nat → ok (discord host i) = true.

(** The passes a job can still cost the drain loop while the clock stays at
    or below [B]: one, plus one per day its time lies at or below [B]. *)
Definition weight (B : Z) (j : Job) : nat :=
  S (Z.to_nat ((B - runAtMs j) / 86400000 + 1)).

Definition measure (B : Z) (l : list Job) : nat := sum_list_with (weight B) l.

(** No stored kind is a member name of [Object.prototype]. *)
Definition noInherited (w : World) : Prop :=
  ∀ j, j ∈ storedJobs w → doAtTypeHandlers (doAtType j) ≠ Inherited.

(** No POST from the [n0]-th on was for the occurrence [o]. *)
Definition noSendFor (n0 : nat) (o : string * Z) (w : World) : Prop :=
  ∀ (i : nat) (msg : Sent),
    (n0 ≤ i)%nat → outbox w !! i = Some msg → occurrence msg ≠ o.

(** Among the POSTs from the [n0]-th on, one that was answered with success
    is not followed by a POST for the same occurrence. *)
Definition sentOnce (host : Host) (n0 : nat) (w : World) : Prop :=
  ∀ (i i' : nat) (msg msg' : Sent),
    (n0 ≤ i)%nat → (i < i')%nat →
    outbox w !! i = Some msg → outbox w !! i' = Some msg' →
    ok (discord host i) = true →
    occurrence msg' ≠ occurrence msg.

(** A stored job with the id of an occurrence that was sent with success
    (from the [n0]-th POST on) is scheduled later than that occurrence. *)
Definition laterThanSent (host : Host) (n0 : nat) (w : World) : Prop :=
  ∀ (i : nat) (msg : Sent),
    (n0 ≤ i)%nat → outbox w !! i = Some msg → ok (discord host i) = true →
    ∀ j, j ∈ storedJobs w → id j = (occurrence msg).1 →
         (occurrence msg).2 < scheduledUnix j.

(** The cache key of an occurrence; [deliveryKey job] is the key of
    [(id job, scheduledUnix job)]. *)
Definition keyOf (o : string * Z) : string := o.1 +:+ ":" +:+ pretty o.2.

(** The cache [d] holds, for every occurrence sent with success from the
    [n0]-th POST on, its key with a timestamp that no clock reading from
    the [t0]-th on is more than 14 days after. *)
Definition marked (host : Host) (n0 t0 : nat) (d : gmap string JsVal) (w : World)
    : Prop :=
  ∀ (i : nat) (msg : Sent),
    (n0 ≤ i)%nat → outbox w !! i = Some msg → ok (discord host i) = true →
    ∃ t, d !! keyOf (occurrence msg) = Some (JNum t)
         ∧ ∀ n : nat, (t0 ≤ n)%nat → clock host n - 1209600000 ≤ t.

(** What happens to a tenant: a request is served, or the alarm fires
    ([fuel] bounds its loops). Whichever way a handler ends, what it wrote
    stays written and the next event finds it. *)
Inductive Event :=
| Serve (r : Request)
| Wake (fuel : nat).

Definition step (host : Host) (w : World) (e : Event) : World :=
  match e with
  | Serve r => (fetch host r w).2
  | Wake fuel => (alarm host fuel w).2
  end.

Definition run (host : Host) (events : list Event) (w : World) : World :=
  foldl (step host) w events.

(** The Job Sets a handler can leave in place of [l]: [l] itself; [l]
    without one index; [l] without its earliest job, when that job is a
    one-off; [l] with its earliest job, a daily one, moved ahead by one day
    or more. All but the first are stored sorted. *)
Inductive Rewritten (l : list Job) : list Job → Prop :=
| RewrittenSame : Rewritten l l
| RewrittenDeleted (idx : nat) : Rewritten l (sortJobs (splice1 idx l))
| RewrittenRemoved (job : Job) (rest : list Job) :
    sortJobs l = job :: rest →
    repeatDaily job = false →
    Rewritten l (sortJobs rest)
| RewrittenAdvanced (job : Job) (rest : list Job) (k : nat) :
    sortJobs l = job :: rest →
    repeatDaily job = true →
    Rewritten l (sortJobs (rest ++ [advance job (S k)])).

(** Every stored id is one of the ids drawn from [crypto.randomUUID()] so
    far. *)
Definition idsDrawn (host : Host) (n : nat) (l : list Job) : Prop :=
  ∀ j, j ∈ l → ∃ k : nat, (k < n)%nat ∧ id j = uuid host k.

(** [j] is the job [j0], at its time or, if it is a daily job, a number of
    days later. *)
Definition movedFrom (j0 j : Job) : Prop :=
  ∃ k : nat, j = advance j0 k ∧ (repeatDaily j0 = false → k = 0%nat).

(** Each entry of the cache [c] was in the cache [c0], or is the key of an
    occurrence for which a POST, from the [n0]-th on, was answered with
    success, with a number as its value. *)
Definition earned (host : Host) (n0 : nat) (c0 c : gmap string JsVal) (w : World)
    : Prop :=
  ∀ (key : string) (v : JsVal),
    c !! key = Some v →
    c0 !! key = Some v
    ∨ ∃ (i : nat) (msg : Sent) (t : Z),
        (n0 ≤ i)%nat ∧ outbox w !! i = Some msg ∧ ok (discord host i) = true
        ∧ key = keyOf (occurrence msg) ∧ v = JNum t.

(** The POSTs from the [n0]-th on were made in the order of the times their
    occurrences were scheduled for. *)
Definition inDueOrder (n0 : nat) (w : World) : Prop :=
  ∀ (i i' : nat) (msg msg' : Sent),
    (n0 ≤ i)%nat → (i < i')%nat →
    outbox w !! i = Some msg → outbox w !! i' = Some msg' →
    (occurrence msg).2 ≤ (occurrence msg').2.

(** No POST from the [n0]-th on was for an occurrence scheduled for later
    than a stored job. *)
Definition postedBeforeStored (n0 : nat) (w : World) : Prop :=
  ∀ (i : nat) (msg : Sent) (k : Job),
    (n0 ≤ i)%nat → outbox w !! i = Some msg → k ∈ storedJobs w →
    (occurrence msg).2 ≤ scheduledUnix k.

(** The due time of every stored job is its scheduled time in
    milliseconds, as [/schedule] makes it. *)
Definition dueAsScheduled (w : World) : Prop :=
  ∀ j, j ∈ storedJobs w → runAtMs j = scheduledUnix j * 1000.

(** Does the string hold a colon (character 58)? *)
Fixpoint hasColon (s : string) : bool :=
  match s with
  | EmptyString => false
  | String c s' => Ascii.eqb c (Ascii.ascii_of_nat 58) || hasColon s'
  end.

(** The jobs due at or before [j], and the jobs due after it. *)
Definition notAfter (j : Job) (l : list Job) : list Job :=
  filter (λ k, runAtMs k ≤ runAtMs j) l.

Definition after (j : Job) (l : list Job) : list Job :=
  filter (λ k, runAtMs j < runAtMs k) l.

(** Nothing of the cache [c0] is missing from the cache [c] but what a
    pruning drops or a mark replaces: an entry of [c0] that no clock
    reading from the [t0]-th on found stale, under a key that is the key of
    no occurrence sent with success from the [n0]-th POST on, is an entry
    of [c]. *)
Definition kept (host : Host) (n0 t0 : nat) (c0 c : gmap string JsVal) (w : World)
    : Prop :=
  ∀ (key : string) (v : JsVal),
    c0 !! key = Some v →
    (∀ n : nat, (t0 ≤ n < ticks w)%nat → stale (clock host n) v = false) →
    (∀ (i : nat) (msg : Sent),
       (n0 ≤ i)%nat → outbox w !! i = Some msg → ok (discord host i) = true →
       keyOf (occurrence msg) ≠ key) →
    c !! key = Some v.

(** What holds of an invocation's end if one of its POSTs, the [i]-th, was
    not answered with success, where the invocation began at the [n0]-th
    POST and the [t0]-th clock reading with the cache [c0] stored: the
    invocation threw the API error; that POST was its last; it was the
    message of a stored job, whose key the stored cache does not hold; the
    clock was read since; and the stored cache is the cache the invocation
    held in memory, pruned at the last clock reading. That cache holds nothing but entries of [c0] and
    marks of the sends that succeeded, it keeps every entry of [c0] that was
    not pruned or marked anew, and it is [c0] pruned at the first reading
    if the POST was the first of the invocation. *)
Definition failedSend {A} (host : Host) (n0 t0 : nat) (c0 : gmap string JsVal)
    (out : Outcome A) (w' : World) : Prop :=
  ∀ (i : nat) (msg : Sent),
    (n0 ≤ i)%nat → outbox w' !! i = Some msg → ok (discord host i) = false →
    out = Threw (apiError (discord host i))
    ∧ length (outbox w') = S i
    ∧ (∃ (job : Job) (h : Handler),
         job ∈ storedJobs w'
         ∧ doAtTypeHandlers (doAtType job) = Own h
         ∧ msg = messageFor h job
         ∧ alreadyDelivered (storedDelivered w') (deliveryKey job) = false)
    ∧ (t0 < ticks w')%nat
    ∧ ∃ d : gmap string JsVal,
        deliveredStore w' = Some (pruneDelivered d (clock host (ticks w' - 1)))
        ∧ earned host n0 c0 d w'
        ∧ kept host n0 t0 c0 d w'
        ∧ (i = n0 → d = pruneDelivered c0 (clock host t0)).

(** Some POST from the [n0]-th on was the message [m]. *)
Definition posted (n0 : nat) (m : Sent) (w : World) : Prop :=
  ∃ i : nat, (n0 ≤ i)%nat ∧ outbox w !! i = Some m.

(** No stored job has the id [jobId]. *)
Definition absent (jobId : string) (w : World) : Prop :=
  ∀ j, j ∈ storedJobs w → id j ≠ jobId.

(** The occurrence of [j] is gone from the Job Set: a stored job with the
    id of [j] is scheduled for later than [j] was. *)
Definition occurrenceOver (j : Job) (w : World) : Prop :=
  ∀ j', j' ∈ storedJobs w → id j' = id j → scheduledUnix j < scheduledUnix j'.

(** The job [j] waits for its pass of the drain loop: it is stored and no
    POST from the [n0]-th on was for its occurrence. *)
Definition pending (n0 : nat) (j : Job) (w : World) : Prop :=
  j ∈ storedJobs w ∧ noSendFor n0 (id j, scheduledUnix j) w.

(** The drain loop is done with the occurrence of [j], where [c0] is the
    dedup cache the invocation began with and [n0] the number of its first
    POST. The occurrence is gone from the Job Set. If its key was not in
    [c0]: a job of a kind with a handler has had its message posted; a job
    of a kind without one has had nothing posted and its id is gone. A
    daily job whose kind is not unknown is stored for one day later or
    more; of a one-off job the id is gone. *)
Definition processed (n0 : nat) (c0 : gmap string JsVal) (j : Job) (w : World)
    : Prop :=
  occurrenceOver j w
  ∧ (∀ h, doAtTypeHandlers (doAtType j) = Own h →
          alreadyDelivered c0 (deliveryKey j) = false →
          posted n0 (messageFor h j) w)
  ∧ (doAtTypeHandlers (doAtType j) = Missing →
     alreadyDelivered c0 (deliveryKey j) = false →
     noSendFor n0 (id j, scheduledUnix j) w ∧ absent (id j) w)
  ∧ (repeatDaily j = true → doAtTypeHandlers (doAtType j) ≠ Missing →
     ∃ m : nat, (1 ≤ m)%nat ∧ advance j m ∈ storedJobs w)
  ∧ (repeatDaily j = false → absent (id j) w).

(** * The worker's signature check (index.js, 12-46)

    [hexToU8] measures and slices its argument by UTF-16 code unit, and
    [parseInt] reads code units: in this part a string is the list of its
    code units. *)
Definition CodeUnits : Type := list N.

(** The code units [parseInt] skips at the start of its input: the
    WhiteSpace and LineTerminator productions. *)
Definition isStrWhiteSpace (c : N) : bool :=
  bool_decide (c ∈ [9; 10; 11; 12; 13; 32; 160; 5760; 8192; 8193; 8194; 8195;
                    8196; 8197; 8198; 8199; 8200; 8201; 8202; 8232; 8233; 8239;
                    8287; 12288; 65279]%N).

(** The value of a radix-16 digit: 0-9, a-f, A-F. *)
Definition hexValue (c : N) : option Z :=
  if (48 <=? c)%N && (c <=? 57)%N then Some (Z.of_N c - 48)
  else if (97 <=? c)%N && (c <=? 102)%N then Some (Z.of_N c - 87)
  else if (65 <=? c)%N && (c <=? 70)%N then Some (Z.of_N c - 55)
  else None.

Fixpoint skipWhiteSpace (s : CodeUnits) : CodeUnits :=
  match s with
  | c :: s' => if isStrWhiteSpace c then skipWhiteSpace s' else s
  | [] => []
  end.

(** The values of the longest prefix made of radix-16 digits. *)
Fixpoint hexPrefix (s : CodeUnits) : list Z :=
  match s with
  | c :: s' =>
      match hexValue c with
      | Some d => d :: hexPrefix s'
      | None => []
      end
  | [] => []
  end.

Definition hexNumber (ds : list Z) : Z := foldl (λ acc d, acc * 16 + d) 0 ds.

(** [Number.parseInt(s, 16)]: skip white space, take a sign, drop a [0x] or
    [0X] prefix, read the longest run of digits. [None] is NaN. The value is
    the exact integer; the source passes two code units at a time. *)
Definition parseInt16 (s : CodeUnits) : option Z :=
  let s := skipWhiteSpace s in
  let sign := match s with
              | c :: _ => if (c =? 45)%N then -1 else 1
              | [] => 1
              end in
  let s := match s with
           | c :: r => if (c =? 43)%N || (c =? 45)%N then r else s
           | [] => s
           end in
  let s := match s with
           | c :: x :: r =>
               if (c =? 48)%N && ((x =? 120)%N || (x =? 88)%N) then r else s
           | _ => s
           end in
  match hexPrefix s with
  | [] => None
  | ds => Some (sign * hexNumber ds)
  end.

(** [s.slice(from, to)] for [from <= to] *)
Definition slice (s : CodeUnits) (from to : nat) : CodeUnits :=
  take (to - from) (drop from s).

(** The loop of [hexToU8] (index.js, 20-24) from index [i], with [remaining]
    passes to go; [out[i] = byte] stores the byte modulo 256. *)
Fixpoint hexLoop (hex : CodeUnits) (remaining i : nat) (out : list Z)
    : option (list Z) :=
  match remaining with
  | O => Some out
  | S remaining' =>
      match parseInt16 (slice hex (i * 2) (i * 2 + 2)) with
      | None => None
      | Some byte => hexLoop hex remaining' (S i) (<[i := byte `mod` 256]> out)
      end
  end.

(** [hexToU8(hex)] (index.js, 17-26). The argument is [None] when it is not
    a string; the result is [None] for [null]. *)
Definition hexToU8 (hex : option CodeUnits) : option (list Z) :=
  match hex with
  | None => None
  | Some hex =>
      if negb (length hex `mod` 2 =? 0)%nat then None
      else
        let out := replicate (length hex / 2) 0 in
        hexLoop hex (length out) 0 out
  end.

Section Signature.

(** [nacl.sign.detached.verify(msg, sig, pk)], [None] when it throws, and
    [encoder.encode(s)]. *)
Context (verify : list Z → list Z → list Z → option bool).
Context (encode : CodeUnits → list Z).

(** [verifyDiscordRequest] (index.js, 31-46) *)
Definition verifyDiscordRequest (publicKeyHex signatureHex : option CodeUnits)
    (timestamp bodyText : CodeUnits) : bool :=
  let sig := hexToU8 signatureHex in
  let pk := hexToU8 publicKeyHex in
  match sig, pk with
  | Some sig, Some pk =>
      if negb (length sig =? 64)%nat then false
      else if negb (length pk =? 32)%nat then false
      else
        match verify (encode (timestamp ++ bodyText)%list) sig pk with
        | Some r => r
        | None => false
        end
  | _, _ => false
  end.

End Signature.

(** * Permissions (permissions.js)

    [BigInt] reads its argument by code unit: the permissions string is a
    list of code units. *)

(** [PERMS] (permissions.js, 5-13) *)
Definition KICK_MEMBERS : Z := 0x0000000000000002.
Definition BAN_MEMBERS : Z := 0x0000000000000004.
Definition ADMINISTRATOR : Z := 0x0000000000000008.
Definition MANAGE_GUILD : Z := 0x0000000000000020.
Definition MANAGE_MESSAGES : Z := 0x0000000000002000.
Definition MANAGE_ROLES : Z := 0x0000000010000000.
Definition MODERATE_MEMBERS : Z := 0x0000010000000000.

(** [MODERATOR_ANY_OF] (permissions.js, 19-27) *)
Definition MODERATOR_ANY_OF : list Z :=
  [ADMINISTRATOR; MANAGE_GUILD; MANAGE_MESSAGES; MODERATE_MEMBERS;
   KICK_MEMBERS; BAN_MEMBERS; MANAGE_ROLES].

(** The value of a digit of the radix, at most 16. *)
Definition digitValue (radix : Z) (c : N) : option Z :=
  match hexValue c with
  | Some d => if d <? radix then Some d else None
  | None => None
  end.

(** The number a string of one digit or more stands for. *)
Definition digitsValue (radix : Z) (s : CodeUnits) : option Z :=
  match s with
  | [] => None
  | _ => foldl (λ acc c, a ← acc; d ← digitValue radix c; Some (a * radix + d))
               (Some 0) s
  end.

Definition trimWhiteSpace (s : CodeUnits) : CodeUnits :=
  reverse (skipWhiteSpace (reverse (skipWhiteSpace s))).

(** [BigInt(s)] of a string: white space is trimmed at both ends; nothing
    left is 0; otherwise decimal digits behind an optional sign, or digits
    of radix 16, 8 or 2 behind [0x], [0o] or [0b]. [None]: a SyntaxError. *)
Definition BigInt (s : CodeUnits) : option Z :=
  match trimWhiteSpace s with
  | [] => Some 0
  | c :: r =>
      if (c =? 43)%N then digitsValue 10 r
      else if (c =? 45)%N then Z.opp <$> digitsValue 10 r
      else
        match r with
        | x :: r' =>
            if (c =? 48)%N && ((x =? 120)%N || (x =? 88)%N) then digitsValue 16 r'
            else if (c =? 48)%N && ((x =? 111)%N || (x =? 79)%N) then digitsValue 8 r'
            else if (c =? 48)%N && ((x =? 98)%N || (x =? 66)%N) then digitsValue 2 r'
            else digitsValue 10 (c :: r)
        | [] => digitsValue 10 [c]
        end
  end.

(** [hasAnyPerm(permsStr, flags)] (permissions.js, 33-37). [permsStr] is
    [None] when it is [undefined] or [null]; the result is [None] when
    [BigInt] throws. *)
Definition hasAnyPerm (permsStr : option CodeUnits) (flags : list Z) : option bool :=
  match permsStr with
  | None => Some false
  | Some [] => Some false
  | Some s =>
      p ← BigInt s;
      Some (existsb (λ f, Z.land p f =? f) flags)
  end.

(** * The worker (index.js, 48-305, and commands.js)

    An interaction is typed as Discord's API documents it: ids, names and
    tokens are strings, the value of an option is a string, an integer, a
    boolean or [null]; any other member that is [undefined] or [null] is
    [None]. Strings are well-formed UTF-8. The PATCH of the original
    response and the GET of the guild always come back with a response. *)

Inductive OptVal :=
| VStr (s : string)
| VInt (n : Z)
| VBool (b : bool)
| VNull.

(** An element of [interaction.data.options]; [o_value] is [None] when the
    element has no [value] member. *)
Record Opt := { o_name : string; o_value : option OptVal }.

(** [interaction.member]; [member_user_id] is [member.user?.id]. *)
Record Member := {
  permissions : option CodeUnits;
  member_user_id : option string
}.

(** [data_name] is [interaction.data?.name], [options] is
    [interaction.data?.options ?? []], [user_id] is [interaction.user?.id]. *)
Record Interaction := {
  type : Z;
  data_name : option string;
  options : list Opt;
  guild_id : option string;
  channel_id : string;
  member : option Member;
  user_id : option string;
  application_id : string;
  token : string
}.

(** A message object: the [data] of an interaction response. *)
Record MessageData := {
  m_content : option string;
  m_allowed_mentions : option Mentions
}.

(** [{ content, allowed_mentions: { parse: [] } }] *)
Definition plain (content : string) : MessageData :=
  {| m_content := Some content; m_allowed_mentions := Some (MentionParse []) |}.

(** ** commands.js *)

(** [getOption(interaction, name)] (commands.js, 1-4) *)
Definition getOption (interaction : Interaction) (name : string) : option OptVal :=
  o ← List.find (λ o, String.eqb (o_name o) name) (options interaction);
  o_value o.

(** [String(v)] of an option value. *)
Definition stringOf (v : OptVal) : string :=
  match v with
  | VStr s => s
  | VInt n => pretty n
  | VBool true => "true"
  | VBool false => "false"
  | VNull => "null"
  end.

Definition isDigit (c : Ascii.ascii) : bool :=
  let n := Ascii.nat_of_ascii c in (48 <=? n)%nat && (n <=? 57)%nat.

Fixpoint allDigits (s : string) : bool :=
  match s with
  | EmptyString => true
  | String c s' => isDigit c && allDigits s'
  end.

(** [/^\d{5,30}$/.test(subject)]: the subject is 5 to 30 decimal digits and
    nothing else. *)
Definition isSnowflake (subject : string) : bool :=
  allDigits subject
  && (5 <=? String.length subject)%nat && (String.length subject <=? 30)%nat.

(** [subject.length]: the UTF-16 code units of a UTF-8 string. A byte that
    starts a character of four bytes counts two, a continuation byte none,
    any other byte one. *)
Fixpoint utf16Length (s : string) : nat :=
  match s with
  | EmptyString => 0
  | String c s' =>
      let n := Ascii.nat_of_ascii c in
      ((if (240 <=? n)%nat then 2
        else if (128 <=? n)%nat && (n <? 192)%nat then 0
        else 1) + utf16Length s')%nat
  end.

(** The validators (commands.js, 6-12); [None] is [null]. *)
Definition roleIdValidator (subject : string) : option string :=
  if negb (isSnowflake subject) then Some "Invalid role." else None.

Definition userIdValidator (subject : string) : option string :=
  if negb (isSnowflake subject) then Some "Invalid user." else None.

Definition messageValidator (subject : string) : option string :=
  if (utf16Length subject =? 0)%nat then Some "Message cannot be empty."
  else if (2000 <? utf16Length subject)%nat then Some "Message too long (max 2000 chars)."
  else None.

(** The [schedule] member of a command. *)
Record Schedule := {
  s_doAtType : string;
  subjectExtractor : Interaction → string;
  validator : string → option string
}.

(** A member of [commands] (commands.js, 14-93); [description] and the
    option declarations are left out. *)
Record Command := {
  name : string;
  requiresModerator : bool;
  defer : bool;
  response : option MessageData;
  c_schedule : option Schedule;
  action : option string;
  jobIdExtractor : option (Interaction → string)
}.

(** [String(getOption(interaction, name) ?? "")]: [??] replaces [undefined]
    and [null]. *)
Definition optionString (name : string) (interaction : Interaction) : string :=
  match getOption interaction name with
  | None | Some VNull => ""
  | Some v => stringOf v
  end.

Definition commands : list Command :=
  [ {| name := "alive"; requiresModerator := false; defer := false;
       response := Some (plain "I'm here!!1");
       c_schedule := None; action := None; jobIdExtractor := None |};
    {| name := "pingroleat"; requiresModerator := true; defer := true;
       response := None;
       c_schedule := Some {| s_doAtType := "ping-role";
                             subjectExtractor := optionString "role";
                             validator := roleIdValidator |};
       action := None; jobIdExtractor := None |};
    {| name := "doat_list"; requiresModerator := true; defer := true;
       response := None; c_schedule := None; action := Some "list";
       jobIdExtractor := None |};
    {| name := "doat_cancel"; requiresModerator := true; defer := true;
       response := None; c_schedule := None; action := Some "cancel";
       jobIdExtractor := Some (λ interaction, trim (optionString "job_id" interaction)) |};
    {| name := "pingmeat"; requiresModerator := true; defer := true;
       response := None;
       c_schedule := Some {| s_doAtType := "ping-user";
                             subjectExtractor := optionString "user";
                             validator := userIdValidator |};
       action := None; jobIdExtractor := None |};
    {| name := "sayat"; requiresModerator := true; defer := true;
       response := None;
       c_schedule := Some {| s_doAtType := "channel-message";
                             subjectExtractor := optionString "message";
                             validator := messageValidator |};
       action := None; jobIdExtractor := None |} ].

(** [commandMap.get(name)] for [new Map(commands.map(c => [c.name, c]))]: of
    two commands of one name the later one would be found. *)
Definition commandMap (key : option string) : option Command :=
  k ← key;
  foldl (λ m c, <[name c := c]> m) (∅ : gmap string Command) commands !! k.

(** ** What the worker runs on *)

(** The answer to [GET /guilds/${guildId}]: [res.ok], and [owner_id] of the
    body ([None] when it is missing or [null]). *)
Record GuildAnswer := { answered_ok : bool; owner_id : option string }.

(** What [JSON.parse] returns: [null]; a boolean, a number, a string or an
    array, of which every member the worker reads is [undefined]; or an
    object, read as an interaction. *)
Inductive Json :=
| JsonNull
| JsonOther
| JsonObject (interaction : Interaction).

(** The platform of the worker: the host of the scheduler object of each
    guild, the answer to the n-th GET of a guild, the n-th reading of
    [Date.now()] in the worker, [env.PUBLIC_KEY], [Number(s)] of a string
    ([None] when it is not a finite integer), [nacl.sign.detached.verify]
    and [encoder.encode], and [JSON.parse] of a request body ([None] when it
    throws). *)
Record Platform := {
  hosts : string → Host;
  guildApi : nat → GuildAnswer;
  workerClock : nat → Z;
  PUBLIC_KEY : option CodeUnits;
  stringToNumber : string → option Z;
  verify : list Z → list Z → list Z → option bool;
  encode : CodeUnits → list Z;
  parseJson : CodeUnits → option Json
}.

(** One PATCH of [/webhooks/${application_id}/${token}/messages/@original]
    (index.js, 77-98). *)
Record Edit := {
  e_application_id : string;
  e_token : string;
  e_content : string;
  e_allowed_mentions : Mentions
}.

(** What the worker acts on: the scheduler objects by guild id
    ([env.SCHEDULER.idFromName]), the PATCHes and the guild GETs so far,
    oldest first, and the number of clock readings of the worker. *)
Record Cloud := {
  objects : gmap string World;
  edits : list Edit;
  ownerLookups : list string;
  workerTicks : nat
}.

(** An async function of the worker: it returns or it throws ([None]). *)
Definition Task (A : Type) : Type := Cloud → option A * Cloud.

#[global] Instance Task_ret : MRet Task := λ A a c, (Some a, c).

#[global] Instance Task_bind : MBind Task := λ A B f m c,
  match m c with
  | (Some a, c') => f a c'
  | (None, c') => (None, c')
  end.

Definition throwTask {A} : Task A := λ c, (None, c).

(** The state of the scheduler object of a guild; an object that was never
    reached has nothing stored. *)
Definition objectOf (c : Cloud) (guild : string) : World :=
  default freshWorld (objects c !! guild).

(** A value is truthy: a string is, unless it is empty. *)
Definition truthy (s : option string) : bool :=
  match s with
  | Some s => negb (String.eqb s "")
  | None => false
  end.

Section Worker.

Context (platform : Platform).

(** [Date.now()] in the worker *)
Definition workerNow : Task Z := λ c,
  (Some (workerClock platform (workerTicks c)),
   {| objects := objects c; edits := edits c; ownerLookups := ownerLookups c;
      workerTicks := S (workerTicks c) |}).

(** [editOriginalInteractionResponse] (index.js, 77-98) *)
Definition editOriginalInteractionResponse (interaction : Interaction)
    (messageData : MessageData) : Task unit := λ c,
  (Some tt,
   {| objects := objects c;
      edits := (edits c ++
                [{| e_application_id := application_id interaction;
                    e_token := token interaction;
                    e_content := default "" (m_content messageData);
                    e_allowed_mentions :=
                      default (MentionParse []) (m_allowed_mentions messageData) |}])%list;
      ownerLookups := ownerLookups c;
      workerTicks := workerTicks c |}).

(** [fetchGuildOwnerId] (permissions.js, 43-50) *)
Definition fetchGuildOwnerId (guildId : string) : Task (option string) := λ c,
  let res := guildApi platform (length (ownerLookups c)) in
  (Some (if negb (answered_ok res) then None else owner_id res),
   {| objects := objects c; edits := edits c;
      ownerLookups := (ownerLookups c ++ [guildId])%list;
      workerTicks := workerTicks c |}).

(** [isModeratorOrOwner] (permissions.js, 55-71) *)
Definition isModeratorOrOwner (interaction : Interaction) : Task bool :=
  if negb (truthy (guild_id interaction))
     || negb (bool_decide (is_Some (member interaction)))
  then mret false
  else
    let permsStr := member interaction ≫= permissions in
    match hasAnyPerm permsStr MODERATOR_ANY_OF with
    | None => throwTask
    | Some true => mret true
    | Some false =>
        ownerId ← fetchGuildOwnerId (default "" (guild_id interaction));
        let userId := match member interaction ≫= member_user_id with
                      | Some u => Some u
                      | None => user_id interaction
                      end in
        mret (truthy ownerId && truthy userId && bool_decide (ownerId = userId))
    end.

(** [checkGuildPermissions] (index.js, 103-119); the second component is
    [rejection.data]. *)
Definition checkGuildPermissions (interaction : Interaction)
    (command : option Command) : Task (bool * option MessageData) :=
  allowed ← (if default false (requiresModerator <$> command)
             then isModeratorOrOwner interaction
             else mret true);
  mret (allowed,
        if negb allowed
        then Some {| m_content :=
                       Some "Only moderators or the server owner can use this command.";
                     m_allowed_mentions := None |}
        else None).

(** [stub.fetch(...)] on the scheduler object of [guild]: what the object
    wrote stays written also when its handler throws. *)
Definition stubFetch (guild : string) (request : Request) : Task Response := λ c,
  let r := fetch (hosts platform guild) request (objectOf c guild) in
  let c' := {| objects := <[guild := r.2]> (objects c); edits := edits c;
               ownerLookups := ownerLookups c; workerTicks := workerTicks c |} in
  match r.1 with
  | Returned response => (Some response, c')
  | _ => (None, c')
  end.

(** [(await r.json()).data]; the body of the 404 is not JSON. *)
Definition payloadData (r : Response) : Task MessageData :=
  match r with
  | Reply content => mret (plain content)
  | NotFound => throwTask
  end.

(** [Number(v)] and [Boolean(v ?? false)] of what [getOption] returns;
    [Number] is [None] for what is not a finite integer: [Number(undefined)]
    is [NaN], [Number(null)] is 0. *)
Definition numberOf (v : option OptVal) : option Z :=
  match v with
  | None => None
  | Some VNull => Some 0
  | Some (VInt n) => Some n
  | Some (VBool b) => Some (if b then 1 else 0)
  | Some (VStr s) => stringToNumber platform s
  end.

Definition booleanOf (v : option OptVal) : bool :=
  match v with
  | None | Some VNull => false
  | Some (VBool b) => b
  | Some (VInt n) => negb (n =? 0)
  | Some (VStr s) => negb (String.eqb s "")
  end.

(** The [try] block of [runDeferredCommand] (index.js, 154-241). *)
Definition deferredBody (interaction : Interaction) : Task unit :=
  let name := data_name interaction in
  let command := commandMap name in
  if negb (truthy (guild_id interaction)) then
    editOriginalInteractionResponse interaction
      (plain "Use this command inside a server.")
  else
    permission ← checkGuildPermissions interaction command;
    if negb permission.1 then
      match permission.2 with
      | Some rejection => editOriginalInteractionResponse interaction rejection
      | None => throwTask
      end
    else
      let guild := default "" (guild_id interaction) in
      match command ≫= c_schedule with
      | Some sched =>
          let doAtSubject := subjectExtractor sched interaction in
          let validationError := validator sched doAtSubject in
          if truthy validationError then
            editOriginalInteractionResponse interaction
              (plain (default "" validationError))
          else
            let doAtType := s_doAtType sched in
            let ts := numberOf (getOption interaction "timestamp") in
            let repeatDaily := booleanOf (getOption interaction "repeat_daily") in
            match ts with
            | None =>
                editOriginalInteractionResponse interaction
                  (plain "`timestamp` must be an integer Unix timestamp in seconds.")
            | Some ts =>
                let ts := if ts >? 10000000000 then ts `div` 1000 else ts in
                nowMs ← workerNow;
                let now := nowMs `div` 1000 in
                if ts <=? now then
                  editOriginalInteractionResponse interaction
                    (plain "That timestamp is in the past.")
                else
                  r ← stubFetch guild (PostSchedule
                         {| b_guildId := guild;
                            b_channelId := channel_id interaction;
                            b_doAtType := doAtType;
                            b_doAtSubject := doAtSubject;
                            b_scheduledUnix := ts;
                            b_repeatDaily := JBool repeatDaily;
                            b_createdBy :=
                              match member interaction ≫= member_user_id with
                              | Some u => Some u
                              | None => user_id interaction
                              end |});
                  data ← payloadData r;
                  editOriginalInteractionResponse interaction data
            end
      | None =>
          if bool_decide (command ≫= action = Some "list") then
            r ← stubFetch guild GetList;
            data ← payloadData r;
            editOriginalInteractionResponse interaction data
          else if bool_decide (command ≫= action = Some "cancel") then
            match command ≫= jobIdExtractor with
            | Some extractor =>
                let jobId := extractor interaction in
                r ← stubFetch guild (PostCancel jobId);
                data ← payloadData r;
                editOriginalInteractionResponse interaction data
            | None => throwTask
            end
          else
            editOriginalInteractionResponse interaction
              (plain ("Unknown command: /" +:+ default "undefined" name))
      end.

(** [runDeferredCommand] (index.js, 152-249) *)
Definition runDeferredCommand (interaction : Interaction) : Task unit := λ c,
  match deferredBody interaction c with
  | (Some tt, c') => (Some tt, c')
  | (None, c') =>
      editOriginalInteractionResponse interaction
        (plain "❌ Something went wrong while processing that command.") c'
  end.

End Worker.

(** The request the worker's [fetch] reads: the method, the two signature
    headers ([None] when a header is missing) and the body. *)
Record WorkerRequest := {
  method : string;
  signatureHeader : option CodeUnits;
  timestampHeader : option CodeUnits;
  bodyText : CodeUnits
}.

(** The responses of the worker: a plain [Response] with its status, or
    [jsonResponse] of [{ type: 1 }], of [{ type: 4, data }], or of
    [deferredEphemeral()]'s [{ type: 5, ... }]. *)
Inductive WorkerResponse :=
| Plain (code : Z) (body : string)
| Pong
| Message (data : MessageData)
| DeferredAck.

Module Worker.

(** The default export's [fetch] (index.js, 255-304). The deferred command
    that [ctx.waitUntil] keeps alive is run to its end. [JSON.parse] is the
    only call inside the [try]: of a body that parses to [null] the read of
    [interaction.type] (index.js, 283) throws a TypeError, and so does
    [fetch]. *)
Definition fetch (platform : Platform) (request : WorkerRequest) : Task WorkerResponse :=
  if String.eqb (method request) "GET" then mret (Plain 200 "OK")
  else if negb (String.eqb (method request) "POST")
  then mret (Plain 405 "Method Not Allowed")
  else
    match signatureHeader request, timestampHeader request with
    | Some (s :: signature), Some (t :: timestamp) =>
        let ok := verifyDiscordRequest (verify platform) (encode platform)
                    (PUBLIC_KEY platform) (Some (s :: signature)) (t :: timestamp)
                    (bodyText request) in
        if negb ok then mret (Plain 401 "Invalid signature")
        else
          match parseJson platform (bodyText request) with
          | None => mret (Plain 400 "Bad Request")
          | Some JsonNull => throwTask
          | Some JsonOther => mret (Plain 400 "Unhandled interaction type")
          | Some (JsonObject interaction) =>
              if type interaction =? 1 then mret Pong
              else if negb (type interaction =? 2)
              then mret (Plain 400 "Unhandled interaction type")
              else
                let name := data_name interaction in
                let command := commandMap name in
                match (if bool_decide (defer <$> command = Some false)
                       then command ≫= response else None) with
                | Some data => mret (Message data)
                | None =>
                    let isDeferredCmd := bool_decide (defer <$> command = Some true) in
                    if negb isDeferredCmd then
                      mret (Message
                              {| m_content :=
                                   Some ("Unknown command: /"
                                         +:+ default "undefined" name);
                                 m_allowed_mentions := None |})
                    else
                      runDeferredCommand platform interaction;;
                      mret DeferredAck
                end
          end
    | _, _ => mret (Plain 400 "Bad Request")
    end.

End Worker.

(** ** Notions for the worker *)

(** The state after the permission check: the same, but for the guild GETs. *)
Definition looked (c : Cloud) (lookups : list string) : Cloud :=
  {| objects := objects c; edits := edits c; ownerLookups := lookups;
     workerTicks := workerTicks c |}.

(** The [createdBy] the worker sends:
    [interaction.member?.user?.id ?? interaction.user?.id ?? null]. *)
Definition invoker (interaction : Interaction) : option string :=
  match member interaction ≫= member_user_id with
  | Some u => Some u
  | None => user_id interaction
  end.

(** The requests [runDeferredCommand] sends to the scheduler object of the
    guild [g] for the command [cmd], from the state [c]: a [/schedule] whose
    subject passed the validator and whose time, taken as milliseconds when
    above 10,000,000,000, is after the worker's clock in seconds; a
    [/list]; a [/cancel]. *)
Inductive Issued (platform : Platform) (interaction : Interaction) (c : Cloud)
    (cmd : Command) (g : string) : Request → Prop :=
| IssuedSchedule (sched : Schedule) (ts : Z) :
    c_schedule cmd = Some sched →
    truthy (validator sched (subjectExtractor sched interaction)) = false →
    numberOf platform (getOption interaction "timestamp") = Some ts →
    workerClock platform (workerTicks c) `div` 1000
      < (if ts >? 10000000000 then ts `div` 1000 else ts) →
    Issued platform interaction c cmd g
      (PostSchedule
         {| b_guildId := g;
            b_channelId := channel_id interaction;
            b_doAtType := s_doAtType sched;
            b_doAtSubject := subjectExtractor sched interaction;
            b_scheduledUnix := if ts >? 10000000000 then ts `div` 1000 else ts;
            b_repeatDaily := JBool (booleanOf (getOption interaction "repeat_daily"));
            b_createdBy := invoker interaction |})
| IssuedList :
    c_schedule cmd = None → action cmd = Some "list" →
    Issued platform interaction c cmd g GetList
| IssuedCancel (extractor : Interaction → string) :
    c_schedule cmd = None → action cmd = Some "cancel" →
    jobIdExtractor cmd = Some extractor →
    Issued platform interaction c cmd g (PostCancel (extractor interaction)).

(** A job as the commands make it: a role or user ping whose subject is 5
    to 30 digits, or a channel message of 1 to 2000 code units. *)
Definition validJob (j : Job) : Prop :=
  (doAtType j = "ping-role" ∧ isSnowflake (doAtSubject j) = true)
  ∨ (doAtType j = "ping-user" ∧ isSnowflake (doAtSubject j) = true)
  ∨ (doAtType j = "channel-message"
     ∧ (1 ≤ utf16Length (doAtSubject j) ≤ 2000)%nat).

(** What happens to the deployment: the worker receives a request, or the
    alarm of the scheduler object of a guild fires. *)
Inductive CloudEvent :=
| Receive (request : WorkerRequest)
| Alarm (guild : string) (fuel : nat).

Definition cloudStep (platform : Platform) (c : Cloud) (e : CloudEvent) : Cloud :=
  match e with
  | Receive request => (Worker.fetch platform request c).2
  | Alarm guild fuel =>
      {| objects := <[guild := (alarm (hosts platform guild) fuel (objectOf c guild)).2]>
                      (objects c);
         edits := edits c; ownerLookups := ownerLookups c;
         workerTicks := workerTicks c |}
  end.

Definition cloudRun (platform : Platform) (events : list CloudEvent) (c : Cloud) : Cloud :=
  foldl (cloudStep platform) c events.

(** The deployment before anything happened. *)
Definition emptyCloud : Cloud :=
  {| objects := ∅; edits := []; ownerLookups := []; workerTicks := 0 |}.

(** ** Notions for the signature check *)

(** What the [k]-th pass of the loop of [hexToU8] reads. *)
Definition pairAt (hex : CodeUnits) (k : nat) : option Z :=
  parseInt16 (slice hex (k * 2) (k * 2 + 2)).

(** The bytes a string of radix-16 digits stands for, two digits a byte. *)
Fixpoint pairValues (s : CodeUnits) : list Z :=
  match s with
  | a :: b :: r => (16 * default 0 (hexValue a) + default 0 (hexValue b)) :: pairValues r
  | _ => []
  end.

(** The lower-case digit of a value below 16, and the two digits of each
    byte of a list. *)
Definition hexDigit (d : Z) : N := if d <? 10 then Z.to_N (48 + d) else Z.to_N (87 + d).

Definition toHex (bytes : list Z) : CodeUnits :=
  flat_map (λ b, [hexDigit (b `div` 16); hexDigit (b `mod` 16)]) bytes.

(** A pair of code units that [parseInt] reads no number from: [0x] or
    [0X]; or no digit first, and then no digit second or nothing in front of
    it that may be skipped (white space or a sign). *)
Definition unreadable (a b : N) : Prop :=
  match hexValue a with
  | Some _ => a = 48%N ∧ (b = 120%N ∨ b = 88%N)
  | None =>
      hexValue b = None
      ∨ (isStrWhiteSpace a = false ∧ a ≠ 43%N ∧ a ≠ 45%N)
  end.

(** ** Sample hosts and worlds *)

(** A host whose clock stands at [now] and whose Discord API answers every
    POST with [status]. *)
Definition steadyHost (now status : Z) : Host :=
  {| clock := λ _, now;
     discord := λ _, {| status := status; text := "" |};
     uuid := λ n, "job-" +:+ pretty n |}.

(** U+00A0, a no-break space, in UTF-8. *)
Definition nbsp : string :=
  String (Ascii.ascii_of_nat 194) (String (Ascii.ascii_of_nat 160) "").

Definition sampleJob (jobId kind : string) (unix : Z) (daily : bool) : Job :=
  {| id := jobId; guildId := "g"; channelId := "c"; doAtType := kind;
     doAtSubject := "r"; scheduledUnix := unix; runAtMs := unix * 1000;
     repeatDaily := daily; createdBy := None |}.

Definition sampleBody (kind : string) (unix : Z) (daily : bool) : ScheduleBody :=
  {| b_guildId := "g"; b_channelId := "c"; b_doAtType := kind;
     b_doAtSubject := "r"; b_scheduledUnix := unix;
     b_repeatDaily := JBool daily; b_createdBy := None |}.

Definition worldWith (jobs : list Job) (cache : option (gmap string JsVal)) : World :=
  {| jobsStore := Some jobs; deliveredStore := cache; alarmAt := None;
     ticks := 0; outbox := []; uuids := 0 |}.

(** The code units of a string of ASCII characters. *)
Fixpoint unitsOf (s : string) : CodeUnits :=
  match s with
  | EmptyString => []
  | String c s' => Ascii.N_of_ascii c :: unitsOf s'
  end.

(** An interaction of type 2 from guild "g1", channel "c1" and user "7",
    for a command with a timestamp and a role option. *)
Definition sampleInteraction (command perms : string) (ts : Z) : Interaction :=
  {| type := 2;
     data_name := Some command;
     options := [ {| o_name := "timestamp"; o_value := Some (VInt ts) |};
                  {| o_name := "role"; o_value := Some (VStr "123456") |} ];
     guild_id := Some "g1";
     channel_id := "c1";
     member := Some {| permissions := Some (unitsOf perms);
                       member_user_id := Some "7" |};
     user_id := None;
     application_id := "app";
     token := "tok" |}.

(** A platform whose clocks stand at 1,600,000,000,000 ms, whose guild API
    names "42" as the owner, whose signature check accepts, and whose
    [JSON.parse] reads [interaction] from every body. *)
Definition samplePlatform (interaction : Interaction) : Platform :=
  {| hosts := λ _, steadyHost 1600000000000 200;
     guildApi := λ _, {| answered_ok := true; owner_id := Some "42" |};
     workerClock := λ _, 1600000000000;
     PUBLIC_KEY := Some (toHex (replicate 32 0));
     stringToNumber := λ _, None;
     verify := λ _ _ _, Some true;
     encode := λ _, [];
     parseJson := λ _, Some (JsonObject interaction) |}.

(** A POST with a signature of 64 bytes. *)
Definition sampleRequest : WorkerRequest :=
  {| method := "POST";
     signatureHeader := Some (toHex (replicate 64 0));
     timestampHeader := Some (unitsOf "1600000000");
     bodyText := [] |}.

(** * Properties *)

(** ** The dedup cache *)

Lemma prune_fold_lookup (nowMs : Z) (l : list (string * JsVal))
    (acc : gmap string JsVal) (k : string) :
  NoDup l.*1 →
  foldl (λ d kv, if stale nowMs kv.2 then delete kv.1 d else d) acc l !! k =
    match (list_to_map l : gmap string JsVal) !! k with
    | Some v => if stale nowMs v then None else acc !! k
    | None => acc !! k
    end.
Proof.
  revert acc. induction l as [|[k' v'] l IH]; intros acc Hnd; [done|].
  apply NoDup_cons in Hnd as [Hk' Hnd]. cbn [foldl list_to_map foldr fst snd].
  rewrite IH by done. destruct (decide (k = k')) as [->|Hne].
  - rewrite lookup_insert_eq, (not_elem_of_list_to_map_1 _ _ Hk').
    destruct (stale nowMs v'); [apply lookup_delete_eq | done].
  - rewrite lookup_insert_ne by done.
    assert ((if stale nowMs v' then delete k' acc else acc) !! k = acc !! k) as ->.
    { destruct (stale nowMs v'); [by apply lookup_delete_ne | done]. }
    done.
Qed.

Lemma pruneDelivered_lookup (delivered : gmap string JsVal) (nowMs : Z) (k : string) :
  pruneDelivered delivered nowMs !! k =
    match delivered !! k with
    | Some v => if stale nowMs v then None else Some v
    | None => None
    end.
Proof.
  unfold pruneDelivered. rewrite prune_fold_lookup by apply NoDup_fst_map_to_list.
  rewrite list_to_map_to_list. destruct (delivered !! k); done.
Qed.

(** C10. [pruneDelivered(cache, nowMs)] deletes exactly the entries whose
    value is not a number or whose timestamp is less than [nowMs] minus 14
    days (1,209,600,000 ms); every other entry keeps its key and its
    timestamp. *)
Theorem pruneDelivered_exact (cache : gmap string JsVal) (nowMs : Z) (k : string) :
  pruneDelivered cache nowMs !! k =
    match cache !! k with
    | Some (JNum t) => if t <? nowMs - 1209600000 then None else Some (JNum t)
    | _ => None
    end.
Proof.
  rewrite pruneDelivered_lookup. destruct (cache !! k) as [[]|]; done.
Qed.

(** ** Sorting the Job Set *)

Lemma insertJob_perm (j : Job) (l : list Job) : insertJob j l ≡ₚ j :: l.
Proof.
  induction l as [|k l IH]; [done|]. simpl.
  destruct (runAtMs j <=? runAtMs k); [done|].
  rewrite IH. apply Permutation_swap.
Qed.

Lemma sortJobs_perm (l : list Job) : sortJobs l ≡ₚ l.
Proof.
  induction l as [|j l IH]; [done|]. simpl.
  by rewrite insertJob_perm, IH.
Qed.

Lemma sortJobs_elem_of (j : Job) (l : list Job) : j ∈ sortJobs l ↔ j ∈ l.
Proof. by rewrite sortJobs_perm. Qed.

Lemma sortJobs_elem_of_1 (j : Job) (l : list Job) : j ∈ sortJobs l → j ∈ l.
Proof. apply sortJobs_elem_of. Qed.

Lemma sortJobs_elem_of_2 (j : Job) (l : list Job) : j ∈ l → j ∈ sortJobs l.
Proof. apply sortJobs_elem_of. Qed.

Lemma sortJobs_length (l : list Job) : length (sortJobs l) = length l.
Proof. by rewrite sortJobs_perm. Qed.

Lemma insertJob_sorted (j : Job) (l : list Job) :
  StronglySorted earlier l → StronglySorted earlier (insertJob j l).
Proof.
  induction 1 as [|k l Hs IH Hk]; simpl.
  - repeat constructor.
  - destruct (Z.leb_spec (runAtMs j) (runAtMs k)) as [Hle|Hlt].
    + constructor; [by constructor|]. constructor; [done|].
      eapply Forall_impl; [exact Hk|]. unfold earlier. intros; simpl in *; lia.
    + constructor; [done|]. rewrite insertJob_perm. constructor; [|done].
      unfold earlier. lia.
Qed.

Lemma sortJobs_sorted (l : list Job) : StronglySorted earlier (sortJobs l).
Proof.
  induction l as [|j l IH]; simpl; [constructor | by apply insertJob_sorted].
Qed.

Lemma sortJobs_fixed (l : list Job) : StronglySorted earlier l → sortJobs l = l.
Proof.
  induction 1 as [|j l Hs IH Hj]; [done|]. simpl. rewrite IH.
  destruct l as [|k l]; [done|]. simpl.
  apply Forall_cons in Hj as [Hjk _]. unfold earlier in Hjk.
  by rewrite (proj2 (Z.leb_le _ _) Hjk).
Qed.

Lemma sortJobs_idemp (l : list Job) : sortJobs (sortJobs l) = sortJobs l.
Proof. apply sortJobs_fixed, sortJobs_sorted. Qed.

Lemma sortJobs_nil (l : list Job) : sortJobs l = [] ↔ l = [].
Proof.
  split; [|by intros ->]. intros H.
  apply Permutation_nil_r. by rewrite <- H, sortJobs_perm.
Qed.

Lemma head_sortJobs_None (l : list Job) : head (sortJobs l) = None ↔ l = [].
Proof. rewrite head_None. apply sortJobs_nil. Qed.

Lemma head_sortJobs_Some (j : Job) (l : list Job) :
  head (sortJobs l) = Some j →
  j ∈ l ∧ ∀ k, k ∈ l → runAtMs j ≤ runAtMs k.
Proof.
  intros H. pose proof (sortJobs_sorted l) as Hs.
  destruct (sortJobs l) as [|j' rest] eqn:E; [done|]. simplify_eq/=.
  assert (Hin : ∀ k, k ∈ l ↔ k ∈ j :: rest) by (intros k; by rewrite <- E, sortJobs_elem_of).
  split; [apply Hin; left|]. intros k Hk. apply Hin in Hk.
  apply StronglySorted_cons in Hs as [Hall _].
  apply elem_of_cons in Hk as [->|Hk]; [lia|].
  by apply (proj1 (Forall_forall _ _) Hall).
Qed.

(** ** The request handler *)

Ltac eff_unfold :=
  unfold mbind, mret, Eff_bind, Eff_ret, transaction, getJobs, putJobs,
    getDelivered, putDelivered, setAlarm, deleteAlarm, dateNow, randomUUID,
    post, throw, outOfFuel in *.

Lemma resyncAlarm_eq (w : World) :
  resyncAlarm w =
    (Returned tt, setAlarmAt (runAtMs <$> head (sortJobs (storedJobs w))) w).
Proof.
  unfold resyncAlarm, storedJobs. eff_unfold.
  destruct (head (sortJobs (default [] (jobsStore w)))); done.
Qed.

Lemma resync_consistent (w : World) :
  alarmConsistent (setAlarmAt (runAtMs <$> head (sortJobs (storedJobs w))) w).
Proof.
  unfold alarmConsistent. simpl.
  change (storedJobs (setAlarmAt _ w)) with (storedJobs w).
  destruct (head (sortJobs (storedJobs w))) as [j|] eqn:E; simpl.
  - apply head_sortJobs_Some in E as [Hin Hmin]. split; [by exists j | done].
  - by apply head_sortJobs_None.
Qed.

Lemma schedule_invalid (host : Host) (job : ScheduleBody) (w : World) :
  inHandlers (b_doAtType job) = false →
  schedule host job w = (Returned (Reply "Invalid target type."), w).
Proof. intros H. unfold schedule. by rewrite H. Qed.

Lemma schedule_valid (host : Host) (job : ScheduleBody) (w : World) :
  inHandlers (b_doAtType job) = true →
  ∃ content,
    let j := jobOf (uuid host (uuids w)) job in
    let w1 := setJobs (sortJobs (storedJobs w ++ [j])) (countUuid w) in
    schedule host job w =
      (Returned (Reply content),
       setAlarmAt (runAtMs <$> head (sortJobs (storedJobs w1))) w1).
Proof.
  intros H. unfold schedule. rewrite H. simpl. eexists.
  eff_unfold. simpl. rewrite resyncAlarm_eq. reflexivity.
Qed.

Lemma findIndex_Some (p : Job → bool) (l : list Job) (idx : nat) :
  findIndex p l = Some idx →
  ∃ j, l !! idx = Some j ∧ p j = true.
Proof.
  revert idx. induction l as [|k l IH]; intros idx; simpl; [done|].
  destruct (p k) eqn:Hk.
  - intros [= <-]. by exists k.
  - destruct (findIndex p l) as [i|]; [|done]. intros [= <-]. by apply IH.
Qed.

Lemma findIndex_None (p : Job → bool) (l : list Job) :
  findIndex p l = None ↔ ∀ j, j ∈ l → p j = false.
Proof.
  induction l as [|k l IH]; simpl.
  - split; [intros _ j Hj; by apply elem_of_nil in Hj | done].
  - destruct (p k) eqn:Hk.
    + split; [done|]. intros H. rewrite H in Hk; [done | left].
    + destruct (findIndex p l) as [i|]; simpl.
      * split; [done|]. intros H. exfalso. assert (Some i = None) as [=].
        apply IH. intros j Hj. apply H. by right.
      * split; [|done]. intros _ j Hj. apply elem_of_cons in Hj as [->|Hj]; [done|].
        by apply IH.
Qed.

Lemma findIndex_head (p : Job → bool) (j : Job) (l : list Job) :
  p j = true → findIndex p (j :: l) = Some O.
Proof. intros H. simpl. by rewrite H. Qed.

Lemma unique_id (l : list Job) (i i' : nat) (j j' : Job) :
  NoDup (id <$> l) → l !! i = Some j → l !! i' = Some j' → id j = id j' → i = i'.
Proof.
  intros Hnd Hi Hi' Hid.
  eapply NoDup_lookup; [exact Hnd | |]; rewrite list_lookup_fmap.
  - by rewrite Hi.
  - rewrite Hi'. simpl. by rewrite Hid.
Qed.

Lemma cancel_blank (raw : string) (w : World) :
  trim raw = "" →
  cancel raw w = (Returned (Reply "Provide a valid `job_id`."), w).
Proof. intros H. unfold cancel. by rewrite H. Qed.

Lemma cancel_absent (raw : string) (w : World) :
  trim raw ≠ "" →
  (∀ j, j ∈ storedJobs w → id j ≠ trim raw) →
  cancel raw w = (Returned (Reply ("No job found: `" +:+ trim raw +:+ "`")), w).
Proof.
  intros Hne Habs. unfold cancel.
  destruct (String.eqb_spec (trim raw) "") as [|_]; [done|].
  eff_unfold. simpl.
  assert (findIndex (λ j, String.eqb (id j) (trim raw)) (default [] (jobsStore w)) = None)
    as ->; [|done].
  apply findIndex_None. intros j Hj. apply Habs in Hj.
  by destruct (String.eqb_spec (id j) (trim raw)).
Qed.

Lemma cancel_present (raw : string) (w : World) (idx : nat) (removed : Job) :
  trim raw ≠ "" →
  findIndex (λ j, String.eqb (id j) (trim raw)) (storedJobs w) = Some idx →
  storedJobs w !! idx = Some removed →
  let w1 := setJobs (sortJobs (splice1 idx (storedJobs w))) w in
  cancel raw w =
    (Returned (Reply ("🗑️ Cancelled job `" +:+ trim raw +:+ "` scheduled for <t:"
                      +:+ pretty (scheduledUnix removed) +:+ ":F>.")),
     setAlarmAt (runAtMs <$> head (sortJobs (storedJobs w1))) w1).
Proof.
  intros Hne Hidx Hrem. unfold cancel, storedJobs in *.
  destruct (String.eqb_spec (trim raw) "") as [|_]; [done|].
  eff_unfold. simpl. rewrite Hidx, Hrem. simpl. by rewrite resyncAlarm_eq.
Qed.

Lemma filter_keeps_all (P : Job → Prop) `{∀ j, Decision (P j)} (l : list Job) :
  (∀ j, j ∈ l → P j) → filter P l = l.
Proof.
  induction l as [|k l IH]; intros Hall; [done|].
  rewrite filter_cons_True by (apply Hall; left).
  f_equal. apply IH. intros j Hj. apply Hall. by right.
Qed.

Lemma delete_unique_id (l : list Job) (idx : nat) (j : Job) :
  NoDup (id <$> l) → l !! idx = Some j →
  delete idx l = filter (λ k, id k ≠ id j) l.
Proof.
  revert idx. induction l as [|k l IH]; intros idx Hnd Hj; [done|].
  rewrite fmap_cons in Hnd. apply NoDup_cons in Hnd as [Hk Hnd].
  destruct idx as [|idx]; simpl in *.
  - simplify_eq. rewrite filter_cons_False by (intros H; by apply H).
    symmetry. apply filter_keeps_all. intros k Hin Heq. apply Hk.
    rewrite <- Heq. apply list_elem_of_fmap. by exists k.
  - rewrite filter_cons_True.
    + f_equal. by apply IH.
    + intros Heq. apply Hk. rewrite Heq. apply list_elem_of_fmap. exists j.
      split; [done|]. by eapply list_elem_of_lookup_2.
Qed.

(** C7. Cancelling an id that a Job Set with unique ids holds answers with
    the removed job; cancelling it again answers not-found and leaves every
    part of the state as the first call left it. Cancelling an id that no
    stored job has is answered normally (a reply, no exception) and changes
    nothing. *)
Theorem cancel_twice (raw : string) (w : World) (j : Job) :
  trim raw ≠ "" →
  NoDup (id <$> storedJobs w) →
  j ∈ storedJobs w →
  id j = trim raw →
  let first := cancel raw w in
  let second := cancel raw first.2 in
  (first.1 = Returned (Reply ("🗑️ Cancelled job `" +:+ trim raw
                              +:+ "` scheduled for <t:"
                              +:+ pretty (scheduledUnix j) +:+ ":F>."))
   ∧ storedJobs first.2 = sortJobs (filter (λ k, id k ≠ trim raw) (storedJobs w))
   ∧ second = (Returned (Reply ("No job found: `" +:+ trim raw +:+ "`")), first.2))
  ∧ (∀ (raw' : string) (w' : World),
       (∀ k, k ∈ storedJobs w' → id k ≠ trim raw') →
       ∃ content, cancel raw' w' = (Returned (Reply content), w')).
Proof.
  intros Hne Hnd Hj Hid. split.
  - destruct (findIndex (λ k, String.eqb (id k) (trim raw)) (storedJobs w))
      as [idx|] eqn:Hidx.
    2:{ exfalso. rewrite findIndex_None in Hidx. specialize (Hidx j Hj).
        simpl in Hidx. rewrite Hid, String.eqb_refl in Hidx. done. }
    destruct (findIndex_Some _ _ _ Hidx) as (removed & Hrem & Heq).
    apply String.eqb_eq in Heq.
    apply list_elem_of_lookup in Hj as [i Hi].
    assert (i = idx) as -> by (eapply unique_id; eauto; congruence).
    assert (removed = j) as -> by congruence.
    rewrite (cancel_present raw w idx j Hne Hidx Hrem). simpl.
    unfold splice1. rewrite (delete_unique_id _ _ _ Hnd Hrem), Hid.
    split; [done|]. split; [done|].
    apply cancel_absent; [done|]. intros k Hk.
    change (k ∈ sortJobs (filter (λ k, id k ≠ trim raw) (storedJobs w))) in Hk.
    apply sortJobs_elem_of_1, list_elem_of_filter in Hk as [Hk _]. done.
  - intros raw' w' Habs. destruct (decide (trim raw' = "")) as [He|He].
    + eexists. by apply cancel_blank.
    + eexists. by apply cancel_absent.
Qed.

(** C8. From an empty Job Set, scheduling a job of a registered kind for
    [T] and then listing shows exactly one entry: the stored job has
    [runAtMs = T * 1000] and [scheduledUnix = T], and the reply counts one
    job and has its one line. *)
Theorem schedule_then_list (host : Host) (body : ScheduleBody) (w : World)
    (h : Handler) :
  storedJobs w = [] →
  doAtTypeHandlers (b_doAtType body) = Own h →
  let T := b_scheduledUnix body in
  let w1 := (schedule host body w).2 in
  ∃ j,
    storedJobs w1 = [j]
    ∧ sortJobs (storedJobs w1) = [j]
    ∧ id j = uuid host (uuids w)
    ∧ runAtMs j = T * 1000
    ∧ scheduledUnix j = T
    ∧ listJobs w1 =
        (Returned (Reply (
           "📌 Scheduled jobs (1 total):" +:+ nl
           +:+ "• <t:" +:+ pretty T +:+ ":F> (<t:" +:+ pretty T +:+ ":R>) — "
           +:+ innerContent h j +:+ " in <#" +:+ b_channelId body +:+ ">"
           +:+ (if repeatDaily j then " 🔁 daily" else "")
           +:+ " — id: `" +:+ id j +:+ "`")),
         w1).
Proof.
  intros Hempty Hkind T w1.
  assert (Hin : inHandlers (b_doAtType body) = true)
    by (unfold inHandlers; by rewrite Hkind).
  destruct (schedule_valid host body w Hin) as [content Hs].
  subst w1. rewrite Hs. clear Hs. simpl. rewrite Hempty. simpl.
  exists (jobOf (uuid host (uuids w)) body).
  repeat (split; [done|]).
  unfold listJobs. eff_unfold. simpl. unfold listLine. simpl. rewrite Hkind.
  reflexivity.
Qed.

Lemma bind_eq {A B} (m : Eff A) (f : A → Eff B) (w : World) :
  (m ≫= f) w =
    match m w with
    | (Returned a, w') => f a w'
    | (Threw e, w') => (Threw e, w')
    | (OutOfFuel, w') => (OutOfFuel, w')
    end.
Proof. reflexivity. Qed.

Lemma listLine_state (j : Job) (w : World) : (listLine j w).2 = w.
Proof. unfold listLine. by destruct (doAtTypeHandlers (doAtType j)). Qed.

Lemma mapEff_listLine_state (l : list Job) (w : World) :
  (mapEff listLine l w).2 = w.
Proof.
  induction l as [|j l IH]; [done|]. simpl. rewrite bind_eq.
  pose proof (listLine_state j w) as Hj.
  destruct (listLine j w) as [[line| |] w1]; simpl in Hj; subst w1; [|done..].
  rewrite bind_eq.
  destruct (mapEff listLine l w) as [[bs| |] w']; simpl in *; by subst.
Qed.

Lemma listJobs_state (w : World) : (listJobs w).2 = w.
Proof.
  unfold listJobs. rewrite bind_eq. unfold getJobs. simpl.
  case_bool_decide; [done|]. rewrite bind_eq.
  pose proof (mapEff_listLine_state (take 15 (sortJobs (default [] (jobsStore w)))) w) as Hl.
  destruct (mapEff listLine _ w) as [[bs| |] w']; simpl in *; by subst.
Qed.

Lemma cancel_consistent (raw : string) (w : World) :
  alarmConsistent w → alarmConsistent (cancel raw w).2.
Proof.
  intros Hw. destruct (decide (trim raw = "")) as [He|He].
  { by rewrite cancel_blank. }
  destruct (findIndex (λ k, String.eqb (id k) (trim raw)) (storedJobs w))
    as [idx|] eqn:Hidx.
  - destruct (findIndex_Some _ _ _ Hidx) as (removed & Hrem & _).
    rewrite (cancel_present raw w idx removed He Hidx Hrem). apply resync_consistent.
  - rewrite cancel_absent; [done..|]. rewrite findIndex_None in Hidx.
    intros k Hk Heq. specialize (Hidx k Hk). simpl in Hidx.
    by rewrite Heq, String.eqb_refl in Hidx.
Qed.

Lemma fetch_consistent (host : Host) (r : Request) (w : World) :
  alarmConsistent w → alarmConsistent (fetch host r w).2.
Proof.
  intros Hw. destruct r as [job| |raw|]; simpl.
  - destruct (inHandlers (b_doAtType job)) eqn:Hin.
    + destruct (schedule_valid host job w Hin) as [content ->]. apply resync_consistent.
    + by rewrite schedule_invalid.
  - by rewrite listJobs_state.
  - by apply cancel_consistent.
  - done.
Qed.

Lemma serve_consistent (host : Host) (requests : list Request) (w : World) :
  alarmConsistent w → alarmConsistent (serve host requests w).
Proof.
  revert w. induction requests as [|r requests IH]; intros w Hw; [done|].
  apply IH. by apply fetch_consistent.
Qed.

Lemma alarm_returned_resynced (host : Host) (fuel : nat) (w w' : World) :
  alarm host fuel w = (Returned tt, w') →
  ∃ w0, w' = setAlarmAt (runAtMs <$> head (sortJobs (storedJobs w0))) w0.
Proof.
  unfold alarm. eff_unfold. simpl.
  destruct (drain host fuel fuel _ _) as [[d| |] w1]; [|done..].
  simpl. rewrite resyncAlarm_eq. intros [= <-]. eauto.
Qed.

(** C2. After every request of any sequence served from a state in which the
    alarm is consistent with the Job Set (a fresh tenant is one), the alarm is
    the least [runAtMs] of the stored jobs, and there is no alarm exactly
    when no job is stored; the same holds when the alarm handler returns. *)
Theorem alarm_tracks_earliest_job (host : Host) :
  (∀ requests, alarmConsistent (serve host requests freshWorld))
  ∧ (∀ requests w, alarmConsistent w → alarmConsistent (serve host requests w))
  ∧ (∀ fuel w w', alarm host fuel w = (Returned tt, w') → alarmConsistent w').
Proof.
  split; [|split].
  - intros requests. by apply serve_consistent.
  - apply serve_consistent.
  - intros fuel w w' H. apply alarm_returned_resynced in H as [w0 ->].
    apply resync_consistent.
Qed.

(** ** The alarm handler, step by step *)

Lemma tick_tickN (w : World) : tick w = tickN 1 w.
Proof. unfold tick, tickN. f_equal. lia. Qed.

Lemma tickN_tickN (a b : nat) (w : World) : tickN a (tickN b w) = tickN (b + a) w.
Proof. unfold tickN. simpl. f_equal. lia. Qed.

Lemma tickN_0 (w : World) : tickN 0 w = w.
Proof. destruct w. unfold tickN. simpl. f_equal. lia. Qed.

(** The catch-up loop stops at the first test that finds [nextMs] after the
    clock, having added one day per earlier test; or it runs out of fuel
    with every test so far finding [nextMs] not after the clock. *)
Lemma catchUp_cases (host : Host) (fuel : nat) (nextUnix nextMs : Z) (w : World) :
  (∃ k : nat,
      (k < fuel)%nat
      ∧ catchUp host fuel nextUnix nextMs w =
          (Returned (nextUnix + 86400 * Z.of_nat k, nextMs + 86400000 * Z.of_nat k), tickN (S k) w)
      ∧ (∀ i : nat, (i < k)%nat → nextMs + 86400000 * Z.of_nat i ≤ clock host (ticks w + i))
      ∧ clock host (ticks w + k) < nextMs + 86400000 * Z.of_nat k)
  ∨ (catchUp host fuel nextUnix nextMs w = (OutOfFuel, tickN fuel w)
     ∧ ∀ i : nat, (i < fuel)%nat → nextMs + 86400000 * Z.of_nat i ≤ clock host (ticks w + i)).
Proof.
  revert nextUnix nextMs w. induction fuel as [|fuel IH]; intros u m w.
  - right. split; [by rewrite tickN_0 | lia].
  - cbn [catchUp]. rewrite bind_eq. unfold dateNow.
    destruct (Z.leb_spec m (clock host (ticks w))) as [Hle|Hgt].
    + destruct (IH (u + 86400) (m + 86400000) (tick w))
        as [(k & Hk & Heq & Hbefore & Hafter)|[Heq Hbefore]].
      * left. exists (S k). rewrite Heq, tick_tickN, tickN_tickN.
        split; [lia|]. split.
        { replace (u + 86400 + 86400 * Z.of_nat k) with (u + 86400 * Z.of_nat (S k)) by lia.
          replace (m + 86400000 + 86400000 * Z.of_nat k)
            with (m + 86400000 * Z.of_nat (S k)) by lia.
          done. }
        simpl in *. split.
        -- intros [|i] Hi.
           ++ replace (ticks w + 0)%nat with (ticks w) by lia. lia.
           ++ specialize (Hbefore i ltac:(lia)).
              replace (ticks w + S i)%nat with (S (ticks w + i)) by lia. lia.
        -- replace (ticks w + S k)%nat with (S (ticks w + k)) by lia. lia.
      * right. rewrite Heq, tick_tickN, tickN_tickN. split; [done|].
        simpl in *. intros [|i] Hi.
        -- replace (ticks w + 0)%nat with (ticks w) by lia. lia.
        -- specialize (Hbefore i ltac:(lia)).
           replace (ticks w + S i)%nat with (S (ticks w + i)) by lia. lia.
    + left. exists O. rewrite tick_tickN. split; [lia|].
      split.
      { unfold mret, Eff_ret. by rewrite !Z.mul_0_r, !Z.add_0_r. }
      split; [lia|]. replace (ticks w + 0)%nat with (ticks w) by lia. lia.
Qed.

Lemma sameOccurrence_refl (job : Job) : sameOccurrence job job = true.
Proof. unfold sameOccurrence. by rewrite String.eqb_refl, Z.eqb_refl. Qed.

Lemma sameOccurrence_spec (job j : Job) :
  sameOccurrence job j = true ↔ id j = id job ∧ scheduledUnix j = scheduledUnix job.
Proof.
  unfold sameOccurrence. rewrite andb_true_iff, String.eqb_eq, Z.eqb_eq. done.
Qed.

Lemma settle_Settled (host : Host) (fuel : nat) (job : Job) (rest : list Job)
    (w : World) :
  sortJobs (storedJobs w) = job :: rest →
  Settled host fuel job rest w (settle host fuel job w).1 (settle host fuel job w).2.
Proof.
  intros Hsorted. unfold settle, transaction. rewrite bind_eq. unfold getJobs.
  fold (storedJobs w). rewrite Hsorted, (findIndex_head _ _ _ (sameOccurrence_refl job)).
  cbn [lookup list_lookup splice1 delete list_delete]. rewrite bind_eq.
  destruct (repeatDaily job) eqn:Hrep.
  - rewrite bind_eq.
    destruct (catchUp_cases host fuel (scheduledUnix job + 86400)
                (runAtMs job + 86400000) w)
      as [(k & Hk & -> & Hbefore & Hafter)|[-> Hbefore]]; simpl.
    + replace (withTimes job _ _) with (advance job (S k)).
      2:{ unfold advance. f_equal; lia. }
      apply SettledAdvanced; [done..| |].
      * intros i Hi. specialize (Hbefore i Hi). lia.
      * lia.
    + apply SettledOutOfFuel; [done|]. intros i Hi. specialize (Hbefore i Hi). lia.
  - simpl. by apply SettledRemoved.
Qed.

Lemma purge_eq (job : Job) (w : World) :
  job ∈ storedJobs w →
  ∃ idx, findIndex (sameOccurrence job) (storedJobs w) = Some idx
         ∧ purge job w =
             (Returned tt, setJobs (sortJobs (splice1 idx (storedJobs w))) w).
Proof.
  intros Hin. unfold purge, transaction. rewrite bind_eq. unfold getJobs.
  fold (storedJobs w).
  destruct (findIndex (sameOccurrence job) (storedJobs w)) as [idx|] eqn:Hidx.
  - by exists idx.
  - rewrite findIndex_None in Hidx. specialize (Hidx job Hin).
    by rewrite sameOccurrence_refl in Hidx.
Qed.

Lemma iteration_Iter (host : Host) (fuel : nat) (d : gmap string JsVal) (w : World) :
  Iter host fuel d w (iteration host fuel d w).1 (iteration host fuel d w).2.
Proof.
  destruct (iteration host fuel d w) as [res wres] eqn:E. cbn [fst snd].
  unfold iteration in E. rewrite bind_eq in E. unfold dateNow in E.
  rewrite bind_eq in E. unfold getJobs in E.
  change (default [] (jobsStore (tick w))) with (storedJobs w) in E.
  destruct (sortJobs (storedJobs w)) as [|job rest] eqn:Hs; cbn [head] in E.
  { injection E as <- <-. by apply IterIdle. }
  rewrite Z.gtb_ltb in E.
  destruct (Z.ltb_spec (clock host (ticks w)) (runAtMs job)) as [Hlt|Hdue].
  { injection E as <- <-. by eapply IterNotDue. }
  assert (Hin : job ∈ storedJobs w).
  { apply sortJobs_elem_of. rewrite Hs. left. }
  destruct (alreadyDelivered d (deliveryKey job)) eqn:Hdel; cbn [negb] in E.
  - rewrite bind_eq in E.
    pose proof (settle_Settled host fuel job rest (tick w) Hs) as Hset.
    destruct (settle host fuel job (tick w)) as [out w2]. simpl in Hset.
    destruct out as [[]| |]; injection E as <- <-;
      [ apply (IterSkipped host fuel d w job rest (Returned tt) w2)
      | apply (IterSkipped host fuel d w job rest (Threw e) w2)
      | apply (IterSkipped host fuel d w job rest OutOfFuel w2) ]; done.
  - destruct (doAtTypeHandlers (doAtType job)) as [h| |] eqn:Hkind.
    + rewrite bind_eq in E. unfold deliver in E. rewrite bind_eq in E.
      unfold post in E. fold (messageFor h job) in E.
      change (outbox (tick w)) with (outbox w) in E.
      destruct (ok (discord host (length (outbox w)))) eqn:Hok; cbn [negb] in E.
      * rewrite bind_eq in E. unfold dateNow in E. rewrite bind_eq in E.
        unfold putDelivered in E. unfold mret at 1, Eff_ret at 1 in E.
        change (ticks (logSent (messageFor h job) (tick w))) with (S (ticks w)) in E.
        rewrite bind_eq in E.
        pose proof (settle_Settled host fuel job rest
          (setDelivered
             (pruneDelivered (<[deliveryKey job:=JNum (clock host (S (ticks w)))]> d)
                (clock host (S (ticks w))))
             (tick (logSent (messageFor h job) (tick w)))) Hs) as Hset.
        destruct (settle host fuel job _) as [out w2]. simpl in Hset.
        destruct out as [[]| |]; injection E as <- <-;
          [ apply (IterSent host fuel d w job rest h (Returned tt) w2)
          | apply (IterSent host fuel d w job rest h (Threw e) w2)
          | apply (IterSent host fuel d w job rest h OutOfFuel w2) ]; done.
      * rewrite bind_eq in E. unfold dateNow in E. rewrite bind_eq in E.
        unfold putDelivered, throw in E.
        change (ticks (logSent (messageFor h job) (tick w))) with (S (ticks w)) in E.
        injection E as <- <-. by eapply IterSendFailed.
    + injection E as <- <-. by eapply IterStuck.
    + rewrite bind_eq in E.
      destruct (purge_eq job (tick w) Hin) as (idx & Hidx & Hp). rewrite Hp in E.
      change (storedJobs (tick w)) with (storedJobs w) in *.
      injection E as <- <-. by eapply IterPurged.
Qed.

(** What [settle] leaves alone. *)
Lemma Settled_frame (host : Host) (fuel : nat) (job : Job) (rest : list Job)
    (w : World) (out : Outcome unit) (w' : World) :
  Settled host fuel job rest w out w' →
  outbox w' = outbox w ∧ deliveredStore w' = deliveredStore w
  ∧ alarmAt w' = alarmAt w ∧ uuids w' = uuids w ∧ (ticks w ≤ ticks w')%nat
  ∧ (out = Returned tt ∨ out = OutOfFuel).
Proof. destruct 1; simpl; repeat split; auto; lia. Qed.

(** Induction over the drain loop: [I] holds on entry to every pass, [Q]
    when the loop is left, whichever way. *)
Lemma drain_inv (host : Host) (inner : nat)
    (I : gmap string JsVal → World → Prop)
    (Q : Outcome (gmap string JsVal) → World → Prop) :
  (∀ d w out w', I d w → Iter host inner d w out w' →
     match out with
     | Returned (Continue, d') => I d' w'
     | Returned (Break, d') => Q (Returned d') w'
     | Threw e => Q (Threw e) w'
     | OutOfFuel => Q OutOfFuel w'
     end) →
  (∀ d w, I d w → Q OutOfFuel w) →
  ∀ fuel d w, I d w →
    Q (drain host inner fuel d w).1 (drain host inner fuel d w).2.
Proof.
  intros Hstep Hfuel fuel. induction fuel as [|fuel IH]; intros d w HI.
  - by apply (Hfuel d).
  - cbn [drain]. rewrite bind_eq.
    pose proof (Hstep d w _ _ HI (iteration_Iter host inner d w)) as H.
    destruct (iteration host inner d w) as [[[[] d']| |] w']; simpl in *; auto.
Qed.

(** [alarm] in terms of its drain loop. *)
Lemma alarm_eq (host : Host) (fuel : nat) (w : World) :
  alarm host fuel w =
    let d0 := pruneDelivered (storedDelivered w) (clock host (ticks w)) in
    match drain host fuel fuel d0 (tick w) with
    | (Returned d, w1) =>
        let w2 := setDelivered (pruneDelivered d (clock host (ticks w1))) (tick w1) in
        (Returned tt, setAlarmAt (runAtMs <$> head (sortJobs (storedJobs w2))) w2)
    | (Threw e, w1) => (Threw e, w1)
    | (OutOfFuel, w1) => (OutOfFuel, w1)
    end.
Proof.
  unfold alarm. rewrite bind_eq. unfold getDelivered. rewrite bind_eq.
  unfold dateNow at 1. rewrite bind_eq. fold (storedDelivered w). simpl.
  destruct (drain host fuel fuel _ (tick w)) as [[d| |] w1]; [|done..].
  rewrite bind_eq. unfold dateNow. rewrite bind_eq. unfold putDelivered.
  by rewrite resyncAlarm_eq.
Qed.

(** ** A send that fails *)

Lemma alreadyDelivered_prune (d : gmap string JsVal) (now : Z) (key : string) :
  alreadyDelivered d key = false →
  alreadyDelivered (pruneDelivered d now) key = false.
Proof.
  unfold alreadyDelivered. rewrite pruneDelivered_lookup.
  destruct (d !! key) as [v|]; [|done]. by destruct (stale now v), v.
Qed.

Lemma allOk_same_outbox (host : Host) (n0 : nat) (w w' : World) :
  outbox w' = outbox w → allOk host n0 w → allOk host n0 w'.
Proof. unfold allOk. by intros ->. Qed.

Lemma allOk_snoc (host : Host) (n0 : nat) (w w' : World) (m : Sent) :
  outbox w' = (outbox w ++ [m])%list →
  ok (discord host (length (outbox w))) = true →
  allOk host n0 w → allOk host n0 w'.
Proof.
  unfold allOk. intros -> Hok Hall i. rewrite length_app. simpl. intros Hi.
  destruct (decide (i = length (outbox w))) as [->|]; [done|]. apply Hall. lia.
Qed.

(** ** A job of unknown kind *)

Ltac same_head :=
  repeat match goal with
  | H1 : sortJobs (storedJobs ?w) = _, H2 : sortJobs (storedJobs ?w) = _ |- _ =>
      rewrite H1 in H2; simplify_eq
  end.


(** A stored due job whose kind is ["toString"] has no handler, yet both
    the [in] test of [/schedule] and the lookup of the alarm handler answer
    with a member of [Object.prototype]: the invocation throws a
    [TypeError] before any send, the job stays stored, and the next
    invocation does the same. No command stores such a kind. *)
Lemma inherited_kind_throws (fuel : nat) :
  let host := steadyHost 2000000 200 in
  let job := sampleJob "job-0" "toString" 1000 false in
  let w := worldWith [job] None in
  let first := alarm host (S fuel) w in
  let second := alarm host (S fuel) first.2 in
  inHandlers (doAtType job) = true
  ∧ doAtTypeHandlers (doAtType job) = Inherited
  ∧ runAtMs job ≤ clock host 0
  ∧ first.1 = Threw TypeError
  ∧ storedJobs first.2 = [job]
  ∧ outbox first.2 = []
  ∧ second.1 = Threw TypeError
  ∧ storedJobs second.2 = [job]
  ∧ outbox second.2 = [].
Proof.
  intros host job w first second.
  assert (Hthrows : ∀ w0, storedJobs w0 = [job] → deliveredStore w0 = None →
            alarm host (S fuel) w0 = (Threw TypeError, tick (tick w0))).
  { intros w0 Hjobs Hcache. rewrite alarm_eq. cbv zeta. cbn [drain].
    rewrite bind_eq.
    pose proof (iteration_Iter host (S fuel)
                  (pruneDelivered (storedDelivered w0) (clock host (ticks w0)))
                  (tick w0)) as Hit.
    destruct (iteration host (S fuel) _ (tick w0)) as [out w1]. cbn [fst snd] in Hit.
    assert (Hs : sortJobs (storedJobs (tick w0)) = [job]).
    { change (storedJobs (tick w0)) with (storedJobs w0). by rewrite Hjobs. }
    assert (Hnot : alreadyDelivered
                     (pruneDelivered (storedDelivered w0) (clock host (ticks w0)))
                     (deliveryKey job) = false).
    { apply alreadyDelivered_prune. unfold storedDelivered. by rewrite Hcache. }
    inversion Hit; subst; same_head; try done; try congruence.
    all: exfalso; simpl in *; lia. }
  subst first second. rewrite (Hthrows w) by done. cbn [fst snd].
  rewrite (Hthrows (tick (tick w))) by done.
  repeat split; done.
Qed.

(** ** Daily repeats *)

Lemma Settled_bounded (host : Host) (B : Z) (fuel : nat) (job : Job)
    (rest : list Job) (w : World) (out : Outcome unit) (w' : World) :
  (∀ n, clock host n ≤ B) →
  runAtMs job ≤ B →
  (B - runAtMs job) / 86400000 < Z.of_nat fuel →
  Settled host fuel job rest w out w' →
  out = Returned tt.
Proof.
  intros Hb Hdue Hfuel Hset. destruct Hset as [| |Hrep Hall]; [done..|].
  exfalso. destruct fuel as [|fuel].
  - assert (0 ≤ (B - runAtMs job) / 86400000) by (apply Z.div_pos; lia). lia.
  - specialize (Hall fuel ltac:(lia)). specialize (Hb (ticks w + fuel)%nat).
    assert (Z.of_nat (S fuel) ≤ (B - runAtMs job) / 86400000);
      [apply Z.div_le_lower_bound; lia | lia].
Qed.

(** C3. A pass over a due daily job, delivered now or before, puts back one
    job [S k] days later in place of it: [k] is the number of catch-up tests
    that found the candidate time not after the clock, so the new time is
    after the last clock reading and at most one day after it. The pass
    sends one message if the occurrence was not delivered before, and none
    if it was. *)
Theorem daily_catch_up (host : Host) (B : Z) (fuel : nat) (d : gmap string JsVal)
    (w : World) (job : Job) (rest : list Job) :
  (∀ m n : nat, (m ≤ n)%nat → clock host m ≤ clock host n) →
  (∀ n : nat, clock host n ≤ B) →
  (B - runAtMs job) / 86400000 < Z.of_nat fuel →
  sortJobs (storedJobs w) = job :: rest →
  runAtMs job ≤ clock host (ticks w) →
  repeatDaily job = true →
  (alreadyDelivered d (deliveryKey job) = true
   ∨ ∃ h, doAtTypeHandlers (doAtType job) = Own h
          ∧ ok (discord host (length (outbox w))) = true) →
  let r := iteration host fuel d w in
  ∃ k : nat,
    let next := advance job (S k) in
    let last := (ticks r.2 - 1)%nat in
    (∃ d', r.1 = Returned (Continue, d'))
    ∧ storedJobs r.2 = sortJobs (rest ++ [next])
    ∧ scheduledUnix next = scheduledUnix job + 86400 * Z.of_nat (S k)
    ∧ runAtMs next = runAtMs job + 86400000 * Z.of_nat (S k)
    ∧ (∀ i : nat, (i < k)%nat →
         runAtMs job + 86400000 * Z.of_nat (S i) ≤ clock host (last - k + i))
    ∧ clock host last < runAtMs next ≤ clock host last + 86400000
    ∧ (alreadyDelivered d (deliveryKey job) = true → outbox r.2 = outbox w)
    ∧ (∀ h, alreadyDelivered d (deliveryKey job) = false →
            doAtTypeHandlers (doAtType job) = Own h →
            outbox r.2 = (outbox w ++ [messageFor h job])%list).
Proof.
  intros Hmono Hb Hfuel Hs Hdue Hrep Hcase r. subst r.
  assert (HdueB : runAtMs job ≤ B) by (specialize (Hb (ticks w)); lia).
  pose proof (iteration_Iter host fuel d w) as Hit.
  destruct (iteration host fuel d w) as [out w']. cbn [fst snd] in *.
  assert (Hgoal : ∀ (w0 : World) (res : Outcome unit) (dk : gmap string JsVal),
    Settled host fuel job rest w0 res w' →
    out = andThen res (Continue, dk) →
    (ticks w ≤ ticks w0)%nat →
    ∃ k : nat,
      (∃ d', out = Returned (Continue, d'))
      ∧ storedJobs w' = sortJobs (rest ++ [advance job (S k)])
      ∧ scheduledUnix (advance job (S k)) = scheduledUnix job + 86400 * Z.of_nat (S k)
      ∧ runAtMs (advance job (S k)) = runAtMs job + 86400000 * Z.of_nat (S k)
      ∧ (∀ i : nat, (i < k)%nat →
           runAtMs job + 86400000 * Z.of_nat (S i)
           ≤ clock host (ticks w' - 1 - k + i))
      ∧ clock host (ticks w' - 1) < runAtMs (advance job (S k))
          ≤ clock host (ticks w' - 1) + 86400000
      ∧ outbox w' = outbox w0).
  { intros w0 res dk Hset -> Hticks.
    pose proof (Settled_bounded _ _ _ _ _ _ _ _ Hb HdueB Hfuel Hset) as ->.
    inversion Hset as [Hno|k Hyes Hk Hbefore Hafter|]; subst; [congruence|].
    exists k. simpl.
    replace (ticks w0 + S k - 1)%nat with (ticks w0 + k)%nat by lia.
    split; [eauto|]. split; [done|]. split; [done|]. split; [done|].
    split. { intros i Hi. replace (ticks w0 + k - k + i)%nat with (ticks w0 + i)%nat by lia.
             by apply Hbefore. }
    split; [|done]. split; [lia|].
    destruct k as [|k].
    - pose proof (Hmono (ticks w) (ticks w0 + 0)%nat ltac:(lia)). lia.
    - pose proof (Hbefore k ltac:(lia)).
      pose proof (Hmono (ticks w0 + k)%nat (ticks w0 + S k)%nat ltac:(lia)). lia. }
  inversion Hit; subst; same_head; try lia;
    try (destruct Hcase as [?|(? & ? & ?)]; congruence);
    match goal with H : Settled _ _ _ _ _ _ _ |- _ =>
      destruct (Hgoal _ _ _ H eq_refl ltac:(simpl; lia))
        as (k & Hret & Hjobs & Hu & Hm & Hbefore & Hnext & Hout) end;
    exists k; repeat (split; [done|]);
    repeat split; try done; intros; rewrite ?Hout; simpl; congruence.
Qed.

(** ** The drain loop ends *)

Lemma measure_sortJobs (B : Z) (l : list Job) : measure B (sortJobs l) = measure B l.
Proof. unfold measure. by rewrite sortJobs_perm. Qed.

Lemma measure_delete (B : Z) (l : list Job) (idx : nat) (j : Job) :
  l !! idx = Some j → measure B l = (weight B j + measure B (delete idx l))%nat.
Proof.
  intros H. unfold measure. by rewrite (delete_Permutation l idx j H) at 1.
Qed.

Lemma weight_advance (B : Z) (job : Job) (k : nat) :
  runAtMs job ≤ B → (weight B (advance job (S k)) < weight B job)%nat.
Proof.
  intros Hdue. unfold weight, advance. simpl.
  assert (0 ≤ (B - runAtMs job) / 86400000) by (apply Z.div_pos; lia).
  assert ((B - (runAtMs job + 86400000 * Z.of_nat (S k))) / 86400000
          = (B - runAtMs job) / 86400000 - Z.of_nat (S k)) as ->.
  { replace (B - (runAtMs job + 86400000 * Z.of_nat (S k)))
      with (B - runAtMs job + - Z.of_nat (S k) * 86400000) by lia.
    rewrite Z.div_add by lia. lia. }
  lia.
Qed.

Lemma weight_le_measure (B : Z) (j : Job) (l : list Job) :
  j ∈ l → (weight B j ≤ measure B l)%nat.
Proof. apply sum_list_with_in. Qed.

Lemma inner_fuel_enough (B : Z) (job : Job) (fuel : nat) :
  (weight B job < fuel)%nat → (B - runAtMs job) / 86400000 < Z.of_nat fuel.
Proof. unfold weight. lia. Qed.

Lemma Settled_progress (host : Host) (B : Z) (inner : nat) (job : Job)
    (rest : list Job) (w0 : World) (out : Outcome unit) (w' : World) :
  (∀ n, clock host n ≤ B) →
  runAtMs job ≤ B →
  (weight B job < inner)%nat →
  Settled host inner job rest w0 out w' →
  out = Returned tt
  ∧ (ticks w0 ≤ ticks w')%nat
  ∧ ∃ l', storedJobs w' = sortJobs l'
          ∧ (measure B l' < weight B job + measure B rest)%nat
          ∧ ∀ j, j ∈ l' → j ∈ rest ∨ ∃ k, j = advance job (S k).
Proof.
  intros Hb Hdue Hfuel Hset.
  pose proof (Settled_bounded _ _ _ _ _ _ _ _ Hb Hdue
                (inner_fuel_enough _ _ _ Hfuel) Hset) as ->.
  split; [done|].
  inversion Hset as [Hno|k Hyes Hk Hbefore Hafter|]; subst; simpl.
  - split; [lia|]. exists rest. split; [done|]. split; [unfold weight; lia | auto].
  - split; [lia|]. exists (rest ++ [advance job (S k)])%list. split; [done|]. split.
    + unfold measure. rewrite sum_list_with_app.
      change (sum_list_with (weight B) [advance job (S k)])
        with (weight B (advance job (S k)) + 0)%nat.
      pose proof (weight_advance B job k Hdue) as Hw. unfold weight at 2 in Hw. lia.
    + intros j Hj. apply elem_of_app in Hj as [Hj|Hj]; [by left|].
      apply list_elem_of_singleton in Hj. right. by exists k.
Qed.

Lemma Iter_progress (host : Host) (B : Z) (inner : nat) (d : gmap string JsVal)
    (w : World) (out : Outcome (Flow * gmap string JsVal)) (w' : World) :
  (∀ n, clock host n ≤ B) →
  (measure B (storedJobs w) < inner)%nat →
  Iter host inner d w out w' →
  (∃ d', out = Returned (Break, d')
         ∧ storedJobs w' = storedJobs w
         ∧ ticks w' = S (ticks w)
         ∧ ∀ j, j ∈ storedJobs w → clock host (ticks w) < runAtMs j)
  ∨ (∃ d', out = Returned (Continue, d')
           ∧ (measure B (storedJobs w') < measure B (storedJobs w))%nat
           ∧ (∀ j, j ∈ storedJobs w' →
                   ∃ j0, j0 ∈ storedJobs w ∧ doAtType j = doAtType j0)
           ∧ (ticks w < ticks w')%nat)
  ∨ (∃ e, out = Threw e
          ∧ ((∃ job, job ∈ storedJobs w ∧ doAtTypeHandlers (doAtType job) = Inherited)
             ∨ ∃ n, ok (discord host n) = false)).
Proof.
  intros Hb Hfuel Hit.
  assert (Hsettle : ∀ job rest w0 res (dk : gmap string JsVal),
    sortJobs (storedJobs w) = job :: rest →
    runAtMs job ≤ clock host (ticks w) →
    (ticks w < ticks w0)%nat →
    Settled host inner job rest w0 res w' →
    ∃ d' : gmap string JsVal,
      andThen res (Continue, dk) = Returned (Continue, d')
      ∧ (measure B (storedJobs w') < measure B (storedJobs w))%nat
      ∧ (∀ j, j ∈ storedJobs w' →
              ∃ j0, j0 ∈ storedJobs w ∧ doAtType j = doAtType j0)
      ∧ (ticks w < ticks w')%nat).
  { intros job rest w0 res dk Hs Hdue Hticks Hset.
    assert (Hin : job ∈ storedJobs w) by (apply sortJobs_elem_of; rewrite Hs; left).
    assert (HdueB : runAtMs job ≤ B) by (specialize (Hb (ticks w)); lia).
    assert (Hm : measure B (storedJobs w) = (weight B job + measure B rest)%nat).
    { by rewrite <- measure_sortJobs, Hs. }
    destruct (Settled_progress host B inner job rest w0 res w' Hb HdueB)
      as (-> & Ht & l' & Hl' & Hless & Hsub); [lia | done |].
    exists dk. split; [done|]. rewrite Hl', measure_sortJobs. split; [lia|].
    split; [|lia]. intros j Hj. apply sortJobs_elem_of_1 in Hj.
    destruct (Hsub j Hj) as [Hr|[k ->]].
    - exists j. split; [|done]. apply sortJobs_elem_of. rewrite Hs. by right.
    - by exists job. }
  inversion Hit; subst.
  - left. exists d. do 3 (split; [done|]). intros j Hj.
    match goal with H : sortJobs _ = [] |- _ =>
      apply (proj1 (sortJobs_nil _)) in H; rewrite H in Hj end.
    by apply elem_of_nil in Hj.
  - left. exists d. do 3 (split; [done|]). intros j Hj.
    match goal with H : sortJobs _ = ?job :: _ |- _ =>
      assert (Hh : head (sortJobs (storedJobs w)) = Some job) by (by rewrite H) end.
    apply head_sortJobs_Some in Hh as [_ Hmin]. specialize (Hmin j Hj). lia.
  - right. left. exists d. split; [done|]. simpl.
    match goal with H : findIndex _ _ = Some _ |- _ =>
      destruct (findIndex_Some _ _ _ H) as (found & Hfound & _) end.
    change (storedJobs (setJobs ?l _)) with l.
    unfold splice1. rewrite measure_sortJobs, (measure_delete B _ _ _ Hfound).
    split; [unfold weight; lia|]. split; [|lia].
    intros j Hj. apply sortJobs_elem_of_1, list_elem_of_delete_inv in Hj. by exists j.
  - right. right. exists TypeError. split; [done|]. left.
    match goal with H : sortJobs _ = ?job :: _ |- _ =>
      exists job; split; [apply sortJobs_elem_of; rewrite H; left | done] end.
  - right. right. eexists. split; [done|]. right. eauto.
  - right. left. eapply Hsettle; [eassumption | done | | eassumption]. simpl. lia.
  - right. left. eapply Hsettle; [eassumption | done | | eassumption]. simpl. lia.
Qed.

(** With the clock bounded and fuel beyond the measure of the Job Set, the
    drain loop is left by [break], with nothing due at its last reading, or
    by an exception, thrown at a kind that names a member of
    [Object.prototype] or after a refused POST. *)
Lemma drain_total (host : Host) (B : Z) (inner : nat) :
  (∀ n, clock host n ≤ B) →
  ∀ (fuel : nat) (d : gmap string JsVal) (w : World),
    (measure B (storedJobs w) < fuel)%nat →
    (measure B (storedJobs w) < inner)%nat →
    (∃ d' w', drain host inner fuel d w = (Returned d', w')
              ∧ (ticks w < ticks w')%nat
              ∧ ∀ j, j ∈ storedJobs w' → clock host (ticks w' - 1) < runAtMs j)
    ∨ (∃ e w', drain host inner fuel d w = (Threw e, w')
               ∧ ((∃ job, job ∈ storedJobs w
                          ∧ doAtTypeHandlers (doAtType job) = Inherited)
                  ∨ ∃ n, ok (discord host n) = false)).
Proof.
  intros Hb fuel. induction fuel as [|fuel IH]; intros d w Hfuel Hinner; [lia|].
  cbn [drain]. rewrite bind_eq.
  pose proof (Iter_progress host B inner d w _ _ Hb Hinner
                (iteration_Iter host inner d w)) as Hstep.
  destruct (iteration host inner d w) as [out w1]. cbn [fst snd] in Hstep.
  destruct Hstep as [(d' & -> & Hjobs & Hticks & Hnone)
                    |[(d' & -> & Hless & Hkinds' & Hticks)|(e & -> & Hwhy)]].
  - left. exists d', w1. cbn. split; [done|]. split; [lia|].
    intros j Hj. rewrite Hjobs in Hj. rewrite Hticks.
    replace (S (ticks w) - 1)%nat with (ticks w) by lia. by apply Hnone.
  - cbn. destruct (IH d' w1 ltac:(lia) ltac:(lia))
      as [(d2 & w2 & -> & Ht & Hnone)|(e & w2 & -> & Hwhy)].
    + left. exists d2, w2. split; [done|]. split; [lia | done].
    + right. exists e, w2. split; [done|].
      destruct Hwhy as [(job & Hjob & Hkind)|Hbad]; [left | by right].
      destruct (Hkinds' job Hjob) as (j0 & Hj0 & Heq). exists j0. by rewrite <- Heq.
  - right. by exists e, w1.
Qed.

(** ** An occurrence that the cache already holds *)

Lemma alreadyDelivered_fresh (d : gmap string JsVal) (key : string) (t : Z) :
  d !! key = Some (JNum t) → alreadyDelivered d key = true.
Proof. unfold alreadyDelivered. by intros ->. Qed.

Lemma prune_keeps_fresh (d : gmap string JsVal) (key : string) (t now : Z) :
  d !! key = Some (JNum t) → now - 1209600000 ≤ t →
  pruneDelivered d now !! key = Some (JNum t).
Proof.
  intros Hd Hfresh. rewrite pruneDelivered_lookup, Hd. unfold stale.
  change DELIVERED_TTL_MS with 1209600000. cbn [typeof String.eqb negb orb].
  destruct (Z.ltb_spec t (now - 1209600000)); [lia | done].
Qed.

Lemma noSendFor_same_outbox (n0 : nat) (o : string * Z) (w w' : World) :
  outbox w' = outbox w → noSendFor n0 o w → noSendFor n0 o w'.
Proof. unfold noSendFor. by intros ->. Qed.

Lemma noSendFor_snoc (n0 : nat) (o : string * Z) (w w' : World) (m : Sent) :
  outbox w' = (outbox w ++ [m])%list → occurrence m ≠ o →
  noSendFor n0 o w → noSendFor n0 o w'.
Proof.
  unfold noSendFor. intros -> Hm Hall i msg Hi Hmsg.
  destruct (decide (i = length (outbox w))) as [->|Hne].
  - rewrite list_lookup_middle in Hmsg by done. by injection Hmsg as <-.
  - apply (Hall i msg Hi). apply lookup_lt_Some in Hmsg as Hlt.
    rewrite length_app in Hlt. simpl in Hlt.
    rewrite lookup_app_l in Hmsg by lia. done.
Qed.

Lemma Iter_noSendFor (host : Host) (inner n0 t0 : nat) (job : Job) (t : Z)
    (d : gmap string JsVal) (w : World)
    (out : Outcome (Flow * gmap string JsVal)) (w' : World) :
  (∀ n : nat, (t0 ≤ n)%nat → clock host n - 1209600000 ≤ t) →
  d !! deliveryKey job = Some (JNum t) →
  (t0 ≤ ticks w)%nat →
  noSendFor n0 (id job, scheduledUnix job) w →
  Iter host inner d w out w' →
  noSendFor n0 (id job, scheduledUnix job) w'
  ∧ (t0 ≤ ticks w')%nat
  ∧ ∀ d', out = Returned (Continue, d') → d' !! deliveryKey job = Some (JNum t).
Proof.
  intros Hfresh Hd Ht Hno Hit.
  assert (Hother : ∀ job0, alreadyDelivered d (deliveryKey job0) = false →
            (id job0, scheduledUnix job0) ≠ (id job, scheduledUnix job)
            ∧ deliveryKey job0 ≠ deliveryKey job).
  { intros job0 Hdel. split.
    - intros [= Hid Hunix].
      rewrite (alreadyDelivered_fresh d (deliveryKey job0) t) in Hdel; [done|].
      unfold deliveryKey in *. by rewrite Hid, Hunix.
    - intros Hkey. rewrite Hkey, (alreadyDelivered_fresh d _ t) in Hdel; done. }
  inversion Hit; subst.
  - split; [by eapply noSendFor_same_outbox|]. split; [simpl; lia | by intros ? [=]; subst].
  - split; [by eapply noSendFor_same_outbox|]. split; [simpl; lia | by intros ? [=]; subst].
  - split; [by eapply noSendFor_same_outbox|]. split; [simpl; lia | by intros ? [=]; subst].
  - split; [by eapply noSendFor_same_outbox|]. split; [simpl; lia | by intros ? [=]; subst].
  - match goal with H : alreadyDelivered _ _ = false |- _ =>
      destruct (Hother _ H) as [Hocc Hkey] end.
    split; [by eapply noSendFor_snoc|]. split; [simpl; lia | by intros ? [=]; subst].
  - match goal with H : alreadyDelivered _ _ = false |- _ =>
      destruct (Hother _ H) as [Hocc Hkey] end.
    match goal with H : Settled _ _ _ _ _ _ _ |- _ =>
      apply Settled_frame in H as (Hout & _ & _ & _ & Hticks & Hres) end.
    simpl in Hout, Hticks.
    split; [by eapply noSendFor_snoc|]. split; [lia|].
    intros d2 Hd2. destruct Hres as [-> | ->]; [|done]. injection Hd2 as <-.
    subst d'. apply prune_keeps_fresh; [by rewrite lookup_insert_ne | apply Hfresh; lia].
  - match goal with H : Settled _ _ _ _ _ _ _ |- _ =>
      apply Settled_frame in H as (Hout & _ & _ & _ & Hticks & Hres) end.
    simpl in Hout, Hticks.
    split; [by eapply noSendFor_same_outbox|]. split; [lia|].
    intros d2 Hd2. destruct Hres as [-> | ->]; [|done]. by injection Hd2 as <-.
Qed.

(** When the drain loop is left by [break], no stored job is due at the
    reading its last pass took. *)
Lemma drain_returned_nothing_due (host : Host) (inner fuel : nat)
    (d : gmap string JsVal) (w : World) :
  ∀ d' w', drain host inner fuel d w = (Returned d', w') →
    (ticks w < ticks w')%nat
    ∧ ∀ j, j ∈ storedJobs w' → clock host (ticks w' - 1) < runAtMs j.
Proof.
  pose proof (drain_inv host inner
    (λ _ w1, (ticks w ≤ ticks w1)%nat)
    (λ out w', ∀ d', out = Returned d' →
       (ticks w < ticks w')%nat
       ∧ ∀ j, j ∈ storedJobs w' → clock host (ticks w' - 1) < runAtMs j)) as Hinv.
  intros d' w' Heq.
  assert (Hgoal : ∀ d', (drain host inner fuel d w).1 = Returned d' →
            (ticks w < ticks (drain host inner fuel d w).2)%nat
            ∧ ∀ j, j ∈ storedJobs (drain host inner fuel d w).2 →
                   clock host (ticks (drain host inner fuel d w).2 - 1) < runAtMs j);
    [| rewrite Heq in Hgoal; by apply (Hgoal d')].
  apply Hinv; [| done | lia].
  clear. intros d1 w1 out w1' Ht Hit. inversion Hit; subst; simpl; try done.
  - intros d' _. split; [simpl; lia|]. intros j Hj.
    match goal with H : sortJobs _ = [] |- _ =>
      apply (proj1 (sortJobs_nil _)) in H;
      change (storedJobs (tick w1)) with (storedJobs w1) in Hj; rewrite H in Hj end.
    by apply elem_of_nil in Hj.
  - intros d' _. split; [simpl; lia|]. intros j Hj.
    change (storedJobs (tick w1)) with (storedJobs w1) in Hj.
    match goal with H : sortJobs _ = ?job :: _ |- _ =>
      assert (Hh : head (sortJobs (storedJobs w1)) = Some job) by (by rewrite H) end.
    apply head_sortJobs_Some in Hh as [_ Hmin]. specialize (Hmin j Hj).
    rewrite Nat.sub_0_r. lia.
  - lia.
  - match goal with H : Settled _ _ _ _ _ _ _ |- _ =>
      apply Settled_frame in H as (_ & _ & _ & _ & Hticks & [-> | ->]) end;
      simpl in *; [lia | done].
  - match goal with H : Settled _ _ _ _ _ _ _ |- _ =>
      apply Settled_frame in H as (_ & _ & _ & _ & Hticks & [-> | ->]) end;
      simpl in *; [lia | done].
Qed.

Lemma alarm_noSendFor (host : Host) (fuel : nat) (w : World) (job : Job) (t : Z) :
  storedDelivered w !! deliveryKey job = Some (JNum t) →
  (∀ n : nat, (ticks w ≤ n)%nat → clock host n - 1209600000 ≤ t) →
  noSendFor (length (outbox w)) (id job, scheduledUnix job) (alarm host fuel w).2.
Proof.
  intros Hkey Hfresh. rewrite alarm_eq. cbv zeta.
  pose proof (drain_inv host fuel
    (λ d w1, d !! deliveryKey job = Some (JNum t)
             ∧ (ticks w ≤ ticks w1)%nat
             ∧ noSendFor (length (outbox w)) (id job, scheduledUnix job) w1)
    (λ _ w', noSendFor (length (outbox w)) (id job, scheduledUnix job) w')) as Hinv.
  assert (Hend : noSendFor (length (outbox w)) (id job, scheduledUnix job)
            (drain host fuel fuel
               (pruneDelivered (storedDelivered w) (clock host (ticks w))) (tick w)).2).
  { apply Hinv.
    - intros d1 w1 out w1' (Hd & Ht & Hno) Hit.
      destruct (Iter_noSendFor host fuel _ (ticks w) job t d1 w1 out w1'
                  Hfresh Hd Ht Hno Hit) as (Hno' & Ht' & Hd').
      destruct out as [[[] d2]| |]; auto.
    - by intros d1 w1 (_ & _ & Hno).
    - split; [apply prune_keeps_fresh; [done | by apply Hfresh]|].
      split; [simpl; lia|]. intros i msg Hi Hmsg.
      apply lookup_lt_Some in Hmsg. simpl in Hmsg. lia. }
  destruct (drain host fuel fuel _ (tick w)) as [[d1| |] w1]; done.
Qed.

Lemma alarm_returned_removed (host : Host) (fuel : nat) (w : World) (job : Job) :
  (∀ m n : nat, (m ≤ n)%nat → clock host m ≤ clock host n) →
  (alarm host fuel w).1 = Returned tt →
  runAtMs job ≤ clock host (S (ticks w)) →
  job ∉ storedJobs (alarm host fuel w).2.
Proof.
  intros Hmono. rewrite alarm_eq. cbv zeta.
  destruct (drain host fuel fuel _ (tick w)) as [[d1| |] w1] eqn:Hdrain; [|done..].
  intros _ Hdue Hin. simpl in Hin.
  change (job ∈ storedJobs w1) in Hin.
  destruct (drain_returned_nothing_due _ _ _ _ _ _ _ Hdrain) as [Ht Hnone].
  specialize (Hnone job Hin). simpl in Ht.
  pose proof (Hmono (S (ticks w)) (ticks w1 - 1)%nat ltac:(lia)). lia.
Qed.

Lemma skipped_pass (host : Host) (fuel : nat) (job : Job) (d : gmap string JsVal)
    (w0 : World) (rest : list Job) :
  alreadyDelivered d (deliveryKey job) = true →
  sortJobs (storedJobs w0) = job :: rest →
  runAtMs job ≤ clock host (ticks w0) →
  let p := iteration host fuel d w0 in
  outbox p.2 = outbox w0
  ∧ ∃ res, Settled host fuel job rest (tick w0) res p.2
           ∧ p.1 = andThen res (Continue, d).
Proof.
  intros Hdel Hs Hdue p. subst p.
  pose proof (iteration_Iter host fuel d w0) as Hit.
  destruct (iteration host fuel d w0) as [out w']. cbn [fst snd] in *.
  inversion Hit; subst; same_head; try lia; try congruence.
  match goal with H : Settled _ _ _ _ _ _ _ |- _ =>
    pose proof (Settled_frame _ _ _ _ _ _ _ H) as (Hout & _) end.
  split; [done | eauto].
Qed.

(** C5, as the code has it. If the stored cache holds the key of a job with
    a timestamp that no clock reading of the invocation is more than 14
    days after, the invocation makes no POST for that occurrence; if it
    returns, a job that was due when its loop began is no longer stored;
    and the pass that finds the job first in line with its key in the cache
    makes no POST and stores the Job Set without it if it is one-off, with
    the job some days later in place of it if it is daily. *)
Theorem delivered_occurrence_skipped (host : Host) (fuel : nat) (w : World)
    (job : Job) (t : Z) :
  (∀ m n : nat, (m ≤ n)%nat → clock host m ≤ clock host n) →
  storedDelivered w !! deliveryKey job = Some (JNum t) →
  (∀ n : nat, (ticks w ≤ n)%nat → clock host n - 1209600000 ≤ t) →
  let r := alarm host fuel w in
  noSendFor (length (outbox w)) (id job, scheduledUnix job) r.2
  ∧ (r.1 = Returned tt → runAtMs job ≤ clock host (S (ticks w)) →
     job ∉ storedJobs r.2)
  ∧ (∀ (d : gmap string JsVal) (w0 : World) (rest : list Job),
       alreadyDelivered d (deliveryKey job) = true →
       sortJobs (storedJobs w0) = job :: rest →
       runAtMs job ≤ clock host (ticks w0) →
       let p := iteration host fuel d w0 in
       outbox p.2 = outbox w0
       ∧ (repeatDaily job = false →
          p = (Returned (Continue, d), setJobs (sortJobs rest) (tick w0)))
       ∧ (repeatDaily job = true →
          p.1 = OutOfFuel
          ∨ ∃ k : nat,
              p = (Returned (Continue, d),
                   setJobs (sortJobs (rest ++ [advance job (S k)]))
                     (tickN (S k) (tick w0))))).
Proof.
  intros Hmono Hkey Hfresh r. subst r. split; [|split].
  - by apply (alarm_noSendFor host fuel w job t).
  - by apply alarm_returned_removed.
  - intros d w0 rest Hdel Hs Hdue p.
    destruct (skipped_pass host fuel job d w0 rest Hdel Hs Hdue)
      as (Hout & res & Hset & Hres).
    fold p in Hout, Hset, Hres. destruct p as [out w']. cbn [fst snd] in *.
    split; [done|]. subst out.
    inversion Hset as [Hno|k Hyes Hk Hbefore Hafter|Hyes Hall]; subst; simpl.
    + split; [done | congruence].
    + split; [congruence | right; by exists k].
    + split; [congruence | by left].
Qed.

(** C5, as stated, fails on an entry that is older than 14 days: the entry
    is in the stored cache when the invocation starts, the first prune
    deletes it, and the occurrence is sent again. *)
Lemma stale_entry_resent :
  let job := sampleJob "job-0" "ping-role" 1000 false in
  let w := worldWith [job] (Some {[ deliveryKey job := JNum 0 ]}) in
  let r := alarm (steadyHost 2000000000 200) 5 w in
  storedDelivered w !! deliveryKey job = Some (JNum 0)
  ∧ storedJobs w = [job]
  ∧ runAtMs job ≤ clock (steadyHost 2000000000 200) 0
  ∧ r.1 = Returned tt
  ∧ outbox r.2 = [messageFor PingRole job].
Proof. vm_compute. repeat split; congruence. Qed.

(** ** A wake that is retried *)

Lemma NoDup_ids_sortJobs (l : list Job) :
  NoDup (id <$> sortJobs l) ↔ NoDup (id <$> l).
Proof. by rewrite sortJobs_perm. Qed.

Lemma NoDup_ids_delete (l : list Job) (idx : nat) :
  NoDup (id <$> l) → NoDup (id <$> delete idx l).
Proof.
  intros Hnd. eapply sublist_NoDup; [exact Hnd|].
  apply fmap_sublist, sublist_delete.
Qed.

Lemma sentOnce_same_outbox (host : Host) (n0 : nat) (w w' : World) :
  outbox w' = outbox w → sentOnce host n0 w → sentOnce host n0 w'.
Proof. unfold sentOnce. by intros ->. Qed.

Lemma sentOnce_snoc (host : Host) (n0 : nat) (w w' : World) (job : Job) (m : Sent) :
  outbox w' = (outbox w ++ [m])%list →
  occurrence m = (id job, scheduledUnix job) →
  job ∈ storedJobs w →
  laterThanSent host n0 w →
  sentOnce host n0 w → sentOnce host n0 w'.
Proof.
  unfold sentOnce. intros -> Hm Hjob Hlater Hall i i' msg msg' Hi Hlt Hmsg Hmsg' Hok.
  apply lookup_lt_Some in Hmsg' as Hlen. rewrite length_app in Hlen. simpl in Hlen.
  rewrite lookup_app_l in Hmsg by lia.
  destruct (decide (i' = length (outbox w))) as [->|Hne].
  - rewrite list_lookup_middle in Hmsg' by done. injection Hmsg' as <-.
    intros Heq. specialize (Hlater i msg Hi Hmsg Hok job Hjob).
    rewrite <- Heq, Hm in Hlater. simpl in Hlater. specialize (Hlater eq_refl). lia.
  - rewrite lookup_app_l in Hmsg' by lia. by eapply Hall.
Qed.

Lemma laterThanSent_subset (host : Host) (n0 : nat) (w w' : World) :
  outbox w' = outbox w →
  (∀ j, j ∈ storedJobs w' → j ∈ storedJobs w) →
  laterThanSent host n0 w → laterThanSent host n0 w'.
Proof.
  unfold laterThanSent. intros Hout Hsub Hall i msg Hi Hmsg Hok j Hj Hid.
  rewrite Hout in Hmsg. eapply Hall; eauto.
Qed.

Lemma laterThanSent_failed (host : Host) (n0 : nat) (w w' : World) (m : Sent) :
  outbox w' = (outbox w ++ [m])%list →
  ok (discord host (length (outbox w))) = false →
  storedJobs w' = storedJobs w →
  laterThanSent host n0 w → laterThanSent host n0 w'.
Proof.
  unfold laterThanSent. intros Hout Hbad Hjobs Hall i msg Hi Hmsg Hok j Hj Hid.
  rewrite Hout in Hmsg. rewrite Hjobs in Hj.
  apply lookup_lt_Some in Hmsg as Hlen. rewrite length_app in Hlen. simpl in Hlen.
  destruct (decide (i = length (outbox w))) as [->|Hne]; [congruence|].
  rewrite lookup_app_l in Hmsg by lia. eapply Hall; eauto.
Qed.

Lemma settled_keeps (host : Host) (fuel n0 : nat) (w w0 : World) (job : Job)
    (rest : list Job) (w' : World) :
  sortJobs (storedJobs w) = job :: rest →
  NoDup (id <$> storedJobs w) →
  laterThanSent host n0 w →
  (outbox w0 = outbox w
   ∨ ∃ m, outbox w0 = (outbox w ++ [m])%list
          ∧ occurrence m = (id job, scheduledUnix job)) →
  Settled host fuel job rest w0 (Returned tt) w' →
  NoDup (id <$> storedJobs w') ∧ laterThanSent host n0 w'.
Proof.
  intros Hs Hnd Hlater Hout Hset.
  assert (Hjob : job ∈ storedJobs w) by (apply sortJobs_elem_of; rewrite Hs; left).
  assert (Hnd' : NoDup (id <$> job :: rest)) by (rewrite <- Hs; by apply NoDup_ids_sortJobs).
  rewrite fmap_cons in Hnd'. apply NoDup_cons in Hnd' as [Hfresh Hndrest].
  assert (Hrest : ∀ j, j ∈ rest → j ∈ storedJobs w ∧ id j ≠ id job).
  { intros j Hj. split; [apply sortJobs_elem_of; rewrite Hs; by right|].
    intros Heq. apply Hfresh. rewrite <- Heq. apply list_elem_of_fmap. by exists j. }
  assert (Hmsgs : ∀ i msg, (n0 ≤ i)%nat → outbox w0 !! i = Some msg →
            ok (discord host i) = true →
            (∀ j, j ∈ rest → id j = (occurrence msg).1 →
                  (occurrence msg).2 < scheduledUnix j)
            ∧ (id job = (occurrence msg).1 → (occurrence msg).2 ≤ scheduledUnix job)).
  { intros i msg Hi Hmsg Hok.
    assert (outbox w !! i = Some msg ∨ occurrence msg = (id job, scheduledUnix job))
      as [Hold|Hnew].
    { destruct Hout as [Hout|(m & Hout & Hm)]; rewrite Hout in Hmsg; [by left|].
      apply lookup_lt_Some in Hmsg as Hlen. rewrite length_app in Hlen. simpl in Hlen.
      destruct (decide (i = length (outbox w))) as [->|Hne].
      - rewrite list_lookup_middle in Hmsg by done. injection Hmsg as <-. by right.
      - rewrite lookup_app_l in Hmsg by lia. by left. }
    - split.
      + intros j Hj Hid. apply (Hlater i msg Hi Hold Hok j); [by apply Hrest | done].
      + intros Hid. specialize (Hlater i msg Hi Hold Hok job Hjob Hid). lia.
    - rewrite Hnew. simpl. split; [|lia].
      intros j Hj Hid. by destruct (Hrest j Hj). }
  inversion Hset as [Hno|k Hyes Hk Hbefore Hafter|]; subst.
  - split.
    + change (NoDup (id <$> sortJobs rest)). by apply NoDup_ids_sortJobs.
    + intros i msg Hi Hmsg Hok j Hj Hid.
      change (j ∈ sortJobs rest) in Hj. apply sortJobs_elem_of_1 in Hj.
      by apply (Hmsgs i msg Hi Hmsg Hok).
  - split.
    + change (NoDup (id <$> sortJobs (rest ++ [advance job (S k)]))).
      apply NoDup_ids_sortJobs. rewrite fmap_app. apply NoDup_app.
      split; [done|]. split; [|apply NoDup_singleton].
      intros x Hx Hx'. apply list_elem_of_singleton in Hx'. simpl in Hx'. by subst.
    + intros i msg Hi Hmsg Hok j Hj Hid.
      change (j ∈ sortJobs (rest ++ [advance job (S k)])) in Hj.
      apply sortJobs_elem_of_1, elem_of_app in Hj as [Hj|Hj].
      * by apply (Hmsgs i msg Hi Hmsg Hok).
      * apply list_elem_of_singleton in Hj. subst j. simpl in *.
        destruct (Hmsgs i msg Hi Hmsg Hok) as [_ Hle]. specialize (Hle Hid). lia.
Qed.

Lemma Iter_once (host : Host) (inner n0 : nat) (d : gmap string JsVal) (w : World)
    (out : Outcome (Flow * gmap string JsVal)) (w' : World) :
  NoDup (id <$> storedJobs w) →
  sentOnce host n0 w →
  laterThanSent host n0 w →
  Iter host inner d w out w' →
  sentOnce host n0 w'
  ∧ (out ≠ OutOfFuel →
     NoDup (id <$> storedJobs w') ∧ laterThanSent host n0 w').
Proof.
  intros Hnd Honce Hlater Hit.
  assert (Hhead : ∀ job rest, sortJobs (storedJobs w) = job :: rest → job ∈ storedJobs w).
  { intros job rest Hs. apply sortJobs_elem_of. rewrite Hs. left. }
  inversion Hit; subst.
  - split; [by eapply sentOnce_same_outbox|]. intros _. split; [done|].
    by eapply laterThanSent_subset.
  - split; [by eapply sentOnce_same_outbox|]. intros _. split; [done|].
    by eapply laterThanSent_subset.
  - split; [by eapply sentOnce_same_outbox|]. intros _. split.
    + change (NoDup (id <$> sortJobs (splice1 idx (storedJobs w)))).
      apply NoDup_ids_sortJobs. by apply NoDup_ids_delete.
    + eapply laterThanSent_subset; [| |exact Hlater]; [done|].
      intros j Hj. change (j ∈ sortJobs (splice1 idx (storedJobs w))) in Hj.
      by apply sortJobs_elem_of_1, list_elem_of_delete_inv in Hj.
  - split; [by eapply sentOnce_same_outbox|]. intros _. split; [done|].
    by eapply laterThanSent_subset.
  - split.
    + eapply (sentOnce_snoc host n0 w _ job); eauto.
    + intros _. split; [done|]. by eapply laterThanSent_failed.
  - match goal with H : Settled _ _ _ _ _ _ _ |- _ =>
      pose proof (Settled_frame _ _ _ _ _ _ _ H) as (Hout & _ & _ & _ & _ & Hres) end.
    simpl in Hout. split.
    + eapply (sentOnce_snoc host n0 w _ job); eauto.
    + destruct Hres as [-> | ->]; [|done]. intros _.
      eapply settled_keeps; [eassumption | done | done | | eassumption].
      right. eexists. split; [reflexivity | done].
  - match goal with H : Settled _ _ _ _ _ _ _ |- _ =>
      pose proof (Settled_frame _ _ _ _ _ _ _ H) as (Hout & _ & _ & _ & _ & Hres) end.
    simpl in Hout. split; [by eapply sentOnce_same_outbox|].
    destruct Hres as [-> | ->]; [|done]. intros _.
    eapply settled_keeps; [eassumption | done | done | | eassumption]. by left.
Qed.

Lemma alarm_once (host : Host) (fuel n0 : nat) (w : World) :
  NoDup (id <$> storedJobs w) →
  sentOnce host n0 w →
  laterThanSent host n0 w →
  let r := alarm host fuel w in
  sentOnce host n0 r.2
  ∧ (r.1 ≠ OutOfFuel →
     NoDup (id <$> storedJobs r.2) ∧ laterThanSent host n0 r.2).
Proof.
  intros Hnd Honce Hlater r. subst r. rewrite alarm_eq. cbv zeta.
  pose proof (drain_inv host fuel
    (λ _ w1, NoDup (id <$> storedJobs w1) ∧ sentOnce host n0 w1
             ∧ laterThanSent host n0 w1)
    (λ out w', sentOnce host n0 w'
               ∧ (out ≠ OutOfFuel →
                  NoDup (id <$> storedJobs w') ∧ laterThanSent host n0 w'))) as Hinv.
  assert (Hend :
    sentOnce host n0
      (drain host fuel fuel
         (pruneDelivered (storedDelivered w) (clock host (ticks w))) (tick w)).2
    ∧ ((drain host fuel fuel
          (pruneDelivered (storedDelivered w) (clock host (ticks w))) (tick w)).1
       ≠ OutOfFuel →
       NoDup (id <$> storedJobs
                (drain host fuel fuel
                   (pruneDelivered (storedDelivered w) (clock host (ticks w)))
                   (tick w)).2)
       ∧ laterThanSent host n0
           (drain host fuel fuel
              (pruneDelivered (storedDelivered w) (clock host (ticks w)))
              (tick w)).2)).
  { apply Hinv.
    - intros d1 w1 out w1' (H1 & H2 & H3) Hit.
      destruct (Iter_once host fuel n0 d1 w1 out w1' H1 H2 H3 Hit) as [Ha Hb].
      destruct out as [[[] d2]| |].
      + split; [done|]. intros _. by apply Hb.
      + destruct Hb as [Hc Hd]; done.
      + split; [done|]. intros _. by apply Hb.
      + split; done.
    - intros d1 w1 (H1 & H2 & H3). split; done.
    - split; [done|]. split; [by eapply sentOnce_same_outbox|].
      by eapply laterThanSent_subset. }
  destruct (drain host fuel fuel _ (tick w)) as [[d1| |] w1]; simpl in *.
  - destruct Hend as [Ha Hb]. split; [done|]. intros _.
    destruct (Hb ltac:(done)) as [Hc Hd]. split; [done|].
    eapply laterThanSent_subset; [| |exact Hd]; done.
  - destruct Hend as [Ha Hb]. split; [done|]. intros _. by apply Hb.
  - destruct Hend as [Ha Hb]. split; done.
Qed.

Lemma advance_0 (job : Job) : advance job 0 = job.
Proof.
  destruct job. unfold advance, withTimes. simpl. f_equal; lia.
Qed.

Lemma advance_advance (job : Job) (m k : nat) :
  advance (advance job m) k = advance job (m + k).
Proof. unfold advance, withTimes. simpl. f_equal; lia. Qed.

Lemma elem_of_delete_other (l : list Job) (idx : nat) (x y : Job) :
  l !! idx = Some y → x ∈ l → x ≠ y → x ∈ delete idx l.
Proof.
  intros Hy Hx Hne. rewrite (delete_Permutation l idx y Hy) in Hx.
  apply elem_of_cons in Hx as [->|Hx]; done.
Qed.

(** A daily job whose kind is not unknown stays in the Job Set, at its time
    or a number of days later. *)
Lemma Iter_keeps_daily (host : Host) (inner : nat) (job : Job)
    (d : gmap string JsVal) (w : World)
    (out : Outcome (Flow * gmap string JsVal)) (w' : World) :
  repeatDaily job = true →
  doAtTypeHandlers (doAtType job) ≠ Missing →
  NoDup (id <$> storedJobs w) →
  (∃ m, advance job m ∈ storedJobs w) →
  Iter host inner d w out w' →
  out ≠ OutOfFuel →
  ∃ m, advance job m ∈ storedJobs w'.
Proof.
  intros Hrep Hkind Hnd [m Hm] Hit Hout.
  assert (Hsettle : ∀ job0 rest w0 res,
    sortJobs (storedJobs w) = job0 :: rest →
    Settled host inner job0 rest w0 res w' → res ≠ OutOfFuel →
    ∃ m', advance job m' ∈ storedJobs w').
  { intros job0 rest w0 res Hs Hset Hres.
    assert (Hin : advance job m ∈ job0 :: rest) by (rewrite <- Hs; by apply sortJobs_elem_of).
    inversion Hset as [Hno|k Hyes Hk Hbefore Hafter|]; subst; [| |done].
    - exists m. change (advance job m ∈ sortJobs rest). apply sortJobs_elem_of.
      apply elem_of_cons in Hin as [Heq|Hin]; [|done].
      rewrite <- Heq in Hno. simpl in Hno. congruence.
    - change (∃ m', advance job m' ∈ sortJobs (rest ++ [advance job0 (S k)])).
      apply elem_of_cons in Hin as [Heq|Hin].
      + exists (m + S k)%nat. apply sortJobs_elem_of, elem_of_app. right.
        rewrite <- Heq, advance_advance. apply list_elem_of_singleton. done.
      + exists m. apply sortJobs_elem_of, elem_of_app. by left. }
  inversion Hit; subst; try (by exists m).
  - exists m. change (advance job m ∈ sortJobs (splice1 idx (storedJobs w))).
    apply sortJobs_elem_of.
    match goal with H : findIndex _ _ = Some _ |- _ =>
      destruct (findIndex_Some _ _ _ H) as (found & Hfound & Hsame) end.
    apply sameOccurrence_spec in Hsame as [Hid _].
    assert (Hjob0 : job0 ∈ storedJobs w).
    { apply sortJobs_elem_of.
      match goal with H : sortJobs _ = job0 :: _ |- _ => rewrite H end. left. }
    apply list_elem_of_lookup in Hjob0 as [i0 Hi0].
    assert (idx = i0) as -> by (eapply unique_id; eauto).
    assert (found = job0) as -> by congruence.
    eapply elem_of_delete_other; [exact Hfound | done |].
    intros Heq. rewrite <- Heq in *. simpl in *. congruence.
  - match goal with H : Settled _ _ _ _ _ _ _ |- _ =>
      eapply Hsettle; [eassumption | exact H |] end.
    intros ->. done.
  - match goal with H : Settled _ _ _ _ _ _ _ |- _ =>
      eapply Hsettle; [eassumption | exact H |] end.
    intros ->. done.
Qed.

Lemma Iter_NoDup (host : Host) (inner : nat) (d : gmap string JsVal) (w : World)
    (out : Outcome (Flow * gmap string JsVal)) (w' : World) :
  NoDup (id <$> storedJobs w) →
  Iter host inner d w out w' →
  out ≠ OutOfFuel →
  NoDup (id <$> storedJobs w').
Proof.
  intros Hnd Hit Hout.
  assert (Hvoid : ∀ i (msg : Sent), (length (outbox w) ≤ i)%nat →
            outbox w !! i = Some msg → False).
  { intros i msg Hi Hmsg. apply lookup_lt_Some in Hmsg. lia. }
  destruct (Iter_once host inner (length (outbox w)) d w out w' Hnd) as [_ Hrest];
    [| | done | by apply Hrest].
  - intros i i' msg msg' Hi _ Hmsg. by destruct (Hvoid i msg).
  - intros i msg Hi Hmsg. by destruct (Hvoid i msg).
Qed.

Lemma alarm_keeps_daily (host : Host) (fuel : nat) (job : Job) (w : World) :
  repeatDaily job = true →
  doAtTypeHandlers (doAtType job) ≠ Missing →
  NoDup (id <$> storedJobs w) →
  (∃ m, advance job m ∈ storedJobs w) →
  (alarm host fuel w).1 ≠ OutOfFuel →
  ∃ m, advance job m ∈ storedJobs (alarm host fuel w).2.
Proof.
  intros Hrep Hkind Hnd Hm. rewrite alarm_eq. cbv zeta.
  pose proof (drain_inv host fuel
    (λ _ w1, NoDup (id <$> storedJobs w1) ∧ ∃ m, advance job m ∈ storedJobs w1)
    (λ out w', out ≠ OutOfFuel → ∃ m, advance job m ∈ storedJobs w')) as Hinv.
  assert (Hend :
    (drain host fuel fuel
       (pruneDelivered (storedDelivered w) (clock host (ticks w))) (tick w)).1
    ≠ OutOfFuel →
    ∃ m, advance job m ∈
           storedJobs
             (drain host fuel fuel
                (pruneDelivered (storedDelivered w) (clock host (ticks w)))
                (tick w)).2).
  { apply Hinv.
    - intros d1 w1 out w1' [H1 H2] Hit.
      pose proof (Iter_NoDup host fuel d1 w1 out w1' H1 Hit) as Ha.
      pose proof (Iter_keeps_daily host fuel job d1 w1 out w1' Hrep Hkind H1 H2 Hit) as Hb.
      destruct out as [[[] d2]| |].
      + intros _. by apply Hb.
      + split; [by apply Ha | by apply Hb].
      + intros _. by apply Hb.
      + done.
    - done.
    - done. }
  destruct (drain host fuel fuel _ (tick w)) as [[d1| |] w1]; simpl in *.
  - intros _. by apply Hend.
  - intros _. by apply Hend.
  - done.
Qed.

Lemma marked_same_outbox (host : Host) (n0 t0 : nat) (d : gmap string JsVal)
    (w w' : World) :
  outbox w' = outbox w → marked host n0 t0 d w → marked host n0 t0 d w'.
Proof. unfold marked. by intros ->. Qed.

Lemma marked_prune (host : Host) (n0 t0 n : nat) (d : gmap string JsVal) (w : World) :
  (t0 ≤ n)%nat → marked host n0 t0 d w →
  marked host n0 t0 (pruneDelivered d (clock host n)) w.
Proof.
  intros Hn Hm i msg Hi Hmsg Hok. destruct (Hm i msg Hi Hmsg Hok) as (t & Hd & Hfresh).
  exists t. split; [|done]. apply prune_keeps_fresh; [done | by apply Hfresh].
Qed.

Lemma marked_failed (host : Host) (n0 t0 : nat) (d : gmap string JsVal)
    (w w' : World) (m : Sent) :
  outbox w' = (outbox w ++ [m])%list →
  ok (discord host (length (outbox w))) = false →
  marked host n0 t0 d w → marked host n0 t0 d w'.
Proof.
  unfold marked. intros -> Hbad Hm i msg Hi Hmsg Hok.
  apply lookup_lt_Some in Hmsg as Hlen. rewrite length_app in Hlen. simpl in Hlen.
  destruct (decide (i = length (outbox w))) as [->|Hne]; [congruence|].
  rewrite lookup_app_l in Hmsg by lia. by eapply Hm.
Qed.

Lemma marked_sent (host : Host) (n0 t0 n : nat) (d : gmap string JsVal)
    (w w' : World) (m : Sent) :
  (∀ a b : nat, (t0 ≤ a)%nat → (t0 ≤ b)%nat →
     clock host b - clock host a ≤ 1209600000) →
  (t0 ≤ n)%nat →
  outbox w' = (outbox w ++ [m])%list →
  marked host n0 t0 d w →
  marked host n0 t0
    (pruneDelivered (<[keyOf (occurrence m) := JNum (clock host n)]> d) (clock host n))
    w'.
Proof.
  unfold marked. intros H14 Hn -> Hm i msg Hi Hmsg Hok.
  assert (Hnew : ∀ b : nat, (t0 ≤ b)%nat → clock host b - 1209600000 ≤ clock host n).
  { intros b Hb. specialize (H14 n b Hn Hb). lia. }
  destruct (decide (keyOf (occurrence msg) = keyOf (occurrence m))) as [Heq|Hne].
  - exists (clock host n). split; [|done]. rewrite Heq.
    apply prune_keeps_fresh; [apply lookup_insert_eq | lia].
  - apply lookup_lt_Some in Hmsg as Hlen. rewrite length_app in Hlen. simpl in Hlen.
    destruct (decide (i = length (outbox w))) as [->|Hi'].
    { rewrite list_lookup_middle in Hmsg by done. by injection Hmsg as <-. }
    rewrite lookup_app_l in Hmsg by lia.
    destruct (Hm i msg Hi Hmsg Hok) as (t & Hd & Hfresh).
    exists t. split; [|done].
    apply prune_keeps_fresh; [by rewrite lookup_insert_ne | by apply Hfresh].
Qed.

Lemma sentOnce_unmarked (host : Host) (n0 t0 : nat) (d : gmap string JsVal)
    (w w' : World) (job : Job) (m : Sent) :
  outbox w' = (outbox w ++ [m])%list →
  occurrence m = (id job, scheduledUnix job) →
  alreadyDelivered d (deliveryKey job) = false →
  marked host n0 t0 d w →
  sentOnce host n0 w → sentOnce host n0 w'.
Proof.
  unfold sentOnce. intros -> Hm Hdel Hmarked Hall i i' msg msg' Hi Hlt Hmsg Hmsg' Hok.
  apply lookup_lt_Some in Hmsg' as Hlen. rewrite length_app in Hlen. simpl in Hlen.
  rewrite lookup_app_l in Hmsg by lia.
  destruct (decide (i' = length (outbox w))) as [->|Hne].
  - rewrite list_lookup_middle in Hmsg' by done. injection Hmsg' as <-.
    intros Heq. destruct (Hmarked i msg Hi Hmsg Hok) as (t & Hd & _).
    rewrite <- Heq, Hm in Hd.
    by rewrite (alreadyDelivered_fresh d (deliveryKey job) t) in Hdel.
  - rewrite lookup_app_l in Hmsg' by lia. by eapply Hall.
Qed.

(** One pass keeps the marks, in memory and in storage, and sends nothing
    twice, whichever way it ends. *)
Lemma Iter_marked (host : Host) (inner n0 t0 : nat) (d : gmap string JsVal)
    (w : World) (out : Outcome (Flow * gmap string JsVal)) (w' : World) :
  (∀ a b : nat, (t0 ≤ a)%nat → (t0 ≤ b)%nat →
     clock host b - clock host a ≤ 1209600000) →
  (t0 ≤ ticks w)%nat →
  marked host n0 t0 d w →
  marked host n0 t0 (storedDelivered w) w →
  sentOnce host n0 w →
  Iter host inner d w out w' →
  (t0 ≤ ticks w')%nat
  ∧ marked host n0 t0 (storedDelivered w') w'
  ∧ sentOnce host n0 w'
  ∧ ∀ fl d', out = Returned (fl, d') → marked host n0 t0 d' w'.
Proof.
  intros H14 Ht Hd Hstore Honce Hit. inversion Hit; subst.
  - split; [simpl; lia|]. split; [done|]. split; [done|]. by intros ? ? [= _ <-].
  - split; [simpl; lia|]. split; [done|]. split; [done|]. by intros ? ? [= _ <-].
  - split; [simpl; lia|]. split; [done|]. split; [done|]. by intros ? ? [= _ <-].
  - split; [simpl; lia|]. split; [done|]. split; [done|]. by intros ? ? [=].
  - split; [simpl; lia|]. split; [|split; [|by intros ? ? [=]]].
    + change (marked host n0 t0 (pruneDelivered d (clock host (S (ticks w))))
                (setDelivered (pruneDelivered d (clock host (S (ticks w))))
                   (tick (logSent (messageFor h job) (tick w))))).
      apply marked_prune; [lia|]. by eapply marked_failed.
    + by eapply (sentOnce_unmarked host n0 t0 d w _ job).
  - match goal with H : Settled _ _ _ _ _ _ _ |- _ =>
      pose proof (Settled_frame _ _ _ _ _ _ _ H) as (Hout & Hst & _ & _ & Hticks & Hres) end.
    simpl in Hout, Hst, Hticks.
    assert (Hd' : marked host n0 t0 d' w').
    { subst d' now.
      apply (marked_sent host n0 t0 (S (ticks w)) d w w' (messageFor h job));
        [done | lia | exact Hout | done]. }
    split; [lia|]. split; [|split].
    + unfold storedDelivered. rewrite Hst. exact Hd'.
    + by eapply (sentOnce_unmarked host n0 t0 d w w' job).
    + intros fl d2 Hd2. destruct Hres as [-> | ->]; [|done]. by injection Hd2 as _ <-.
  - match goal with H : Settled _ _ _ _ _ _ _ |- _ =>
      pose proof (Settled_frame _ _ _ _ _ _ _ H) as (Hout & Hst & _ & _ & Hticks & Hres) end.
    simpl in Hout, Hst, Hticks.
    split; [lia|]. split; [|split].
    + unfold storedDelivered. rewrite Hst. by eapply marked_same_outbox.
    + by eapply sentOnce_same_outbox.
    + intros fl d2 Hd2. destruct Hres as [-> | ->]; [|done]. injection Hd2 as _ <-.
      by eapply marked_same_outbox.
Qed.

Lemma alarm_marked (host : Host) (fuel n0 t0 : nat) (w : World) :
  (∀ a b : nat, (t0 ≤ a)%nat → (t0 ≤ b)%nat →
     clock host b - clock host a ≤ 1209600000) →
  (t0 ≤ ticks w)%nat →
  marked host n0 t0 (storedDelivered w) w →
  sentOnce host n0 w →
  let r := alarm host fuel w in
  (t0 ≤ ticks r.2)%nat
  ∧ marked host n0 t0 (storedDelivered r.2) r.2
  ∧ sentOnce host n0 r.2.
Proof.
  intros H14 Ht Hstore Honce r. subst r. rewrite alarm_eq. cbv zeta.
  pose proof (drain_inv host fuel
    (λ d w1, (t0 ≤ ticks w1)%nat ∧ marked host n0 t0 d w1
             ∧ marked host n0 t0 (storedDelivered w1) w1 ∧ sentOnce host n0 w1)
    (λ out w', (t0 ≤ ticks w')%nat
               ∧ marked host n0 t0 (storedDelivered w') w'
               ∧ sentOnce host n0 w'
               ∧ ∀ d', out = Returned d' → marked host n0 t0 d' w')) as Hinv.
  set (d0 := pruneDelivered (storedDelivered w) (clock host (ticks w))) in *.
  assert (Hend :
    (t0 ≤ ticks (drain host fuel fuel d0 (tick w)).2)%nat
    ∧ marked host n0 t0 (storedDelivered (drain host fuel fuel d0 (tick w)).2)
        (drain host fuel fuel d0 (tick w)).2
    ∧ sentOnce host n0 (drain host fuel fuel d0 (tick w)).2
    ∧ ∀ d', (drain host fuel fuel d0 (tick w)).1 = Returned d' →
            marked host n0 t0 d' (drain host fuel fuel d0 (tick w)).2).
  { apply Hinv.
    - intros d1 w1 out w1' (H1 & H2 & H3 & H4) Hit.
      destruct (Iter_marked host fuel n0 t0 d1 w1 out w1' H14 H1 H2 H3 H4 Hit)
        as (Ha & Hb & Hc & Hd).
      destruct out as [[[] d2]| |].
      + do 3 (split; [done|]). intros d' [= <-]. by eapply Hd.
      + split; [done|]. split; [by eapply Hd|]. split; done.
      + do 3 (split; [done|]). by intros ? [=].
      + do 3 (split; [done|]). by intros ? [=].
    - intros d1 w1 (H1 & H2 & H3 & H4). do 3 (split; [done|]). by intros ? [=].
    - split; [simpl; lia|]. split; [|split; [done|done]].
      subst d0. apply marked_prune; [done|]. by eapply marked_same_outbox. }
  destruct (drain host fuel fuel d0 (tick w)) as [[d1| |] w1]; cbn [fst snd] in *.
  - destruct Hend as (Ha & Hb & Hc & Hd). split; [simpl; lia|]. split; [|done].
    change (marked host n0 t0 (pruneDelivered d1 (clock host (ticks w1)))
              (setAlarmAt
                 (runAtMs <$>
                  head (sortJobs (storedJobs
                     (setDelivered (pruneDelivered d1 (clock host (ticks w1)))
                        (tick w1)))))
                 (setDelivered (pruneDelivered d1 (clock host (ticks w1))) (tick w1)))).
    apply marked_prune; [done|]. eapply marked_same_outbox; [|by apply Hd]. done.
  - destruct Hend as (Ha & Hb & Hc & Hd). done.
  - destruct Hend as (Ha & Hb & Hc & Hd). done.
Qed.

Lemma deliver_ok (host : Host) (h : Handler) (job : Job) (d : gmap string JsVal)
    (w : World) :
  ok (discord host (length (outbox w))) = true →
  let now := clock host (ticks w) in
  let d' := pruneDelivered (<[deliveryKey job := JNum now]> d) now in
  deliver host h job (deliveryKey job) d w =
    (Returned d', setDelivered d' (tick (logSent (messageFor h job) w))).
Proof.
  intros Hok. unfold deliver. rewrite bind_eq. unfold post.
  fold (messageFor h job). rewrite Hok. cbn [negb].
  rewrite bind_eq. unfold dateNow. rewrite bind_eq. unfold putDelivered. done.
Qed.


(** * The properties at sample inputs *)

Lemma steady_monotone (now status : Z) (m n : nat) :
  (m ≤ n)%nat → clock (steadyHost now status) m ≤ clock (steadyHost now status) n.
Proof. intros _. simpl. lia. Qed.

Lemma steady_bounded (now status : Z) (n : nat) :
  clock (steadyHost now status) n ≤ now.
Proof. simpl. lia. Qed.

(** Cancelling ["job-0"] twice, with white space around the id. *)
Lemma cancel_twice_witness :
  let w := worldWith [sampleJob "job-0" "ping-role" 1000 false;
                      sampleJob "job-1" "ping-user" 2000 true] None in
  let raw := nbsp +:+ " job-0" +:+ nbsp +:+ " " in
  let first := cancel raw w in
  let second := cancel raw first.2 in
  trim raw = "job-0"
  ∧ first.1 = Returned (Reply ("🗑️ Cancelled job `job-0` scheduled for <t:1000:F>."))
  ∧ storedJobs first.2 = [sampleJob "job-1" "ping-user" 2000 true]
  ∧ second = (Returned (Reply ("No job found: `job-0`")), first.2).
Proof.
  intros w raw first second.
  assert (Hraw : trim raw = "job-0") by (vm_compute; reflexivity).
  destruct (cancel_twice raw w (sampleJob "job-0" "ping-role" 1000 false))
    as [(H1 & Hjobs & H2) _].
  - rewrite Hraw. congruence.
  - compute_done.
  - compute_done.
  - rewrite Hraw. reflexivity.
  - rewrite Hraw in H1, Hjobs, H2.
    split; [exact Hraw|]. split; [exact H1|]. split; [|exact H2].
    subst first. rewrite Hjobs. vm_compute. reflexivity.
Defined.

(** Scheduling a role ping for 1700000000 on a fresh tenant and listing. *)
Lemma schedule_then_list_witness :
  let host := steadyHost 1600000000000 200 in
  let body := {| b_guildId := "g"; b_channelId := "c"; b_doAtType := "ping-role";
                 b_doAtSubject := "r"; b_scheduledUnix := 1700000000;
                 b_repeatDaily := JBool false; b_createdBy := None |} in
  ∃ j, sortJobs (storedJobs (schedule host body freshWorld).2) = [j]
       ∧ runAtMs j = 1700000000 * 1000
       ∧ scheduledUnix j = 1700000000.
Proof.
  intros host body.
  destruct (schedule_then_list host body freshWorld PingRole)
    as (j & _ & Hl & _ & Hms & Hunix & _).
  - reflexivity.
  - vm_compute. reflexivity.
  - exists j. split; [exact Hl|]. split; [exact Hms | exact Hunix].
Defined.

(** Requests served from a world whose alarm is consistent. *)
Lemma alarm_tracks_earliest_job_witness :
  let host := steadyHost 1600000000000 200 in
  let body := {| b_guildId := "g"; b_channelId := "c"; b_doAtType := "ping-role";
                 b_doAtSubject := "r"; b_scheduledUnix := 1700000000;
                 b_repeatDaily := JBool false; b_createdBy := None |} in
  alarmConsistent
    (serve host [PostSchedule body; PostCancel "job-0"; PostSchedule body] freshWorld).
Proof.
  intros host body.
  destruct (alarm_tracks_earliest_job host) as (_ & H & _).
  apply H. reflexivity.
Defined.

(** A daily role ping for 1000 met three and a half days late. *)
Lemma daily_catch_up_witness :
  let now := 1000000 + 302400000 in
  let host := steadyHost now 200 in
  let job := sampleJob "job-0" "ping-role" 1000 true in
  let w := worldWith [job] None in
  let r := iteration host 10 ∅ w in
  ∃ k : nat,
    storedJobs r.2 = sortJobs ([] ++ [advance job (S k)])
    ∧ now < runAtMs (advance job (S k)) ≤ now + 86400000
    ∧ outbox r.2 = [messageFor PingRole job].
Proof.
  intros now host job w r.
  destruct (daily_catch_up host now 10 ∅ w job [])
    as (k & _ & Hjobs & _ & _ & _ & Hnext & _ & Hsent).
  - apply steady_monotone.
  - apply steady_bounded.
  - vm_compute. reflexivity.
  - reflexivity.
  - vm_compute. congruence.
  - reflexivity.
  - right. exists PingRole. split; reflexivity.
  - exists k. split; [exact Hjobs|]. split; [exact Hnext|].
    apply (Hsent PingRole); reflexivity.
Defined.

(** The same job through a whole invocation: one message, and the job put
    back four days after its time, which is the first daily slot after the
    clock. *)
Example three_and_a_half_days_late :
  let now := 1000000 + 302400000 in
  let job := sampleJob "job-0" "ping-role" 1000 true in
  let r := alarm (steadyHost now 200) 10 (worldWith [job] None) in
  r.1 = Returned tt
  ∧ storedJobs r.2 = [advance job 4]
  ∧ scheduledUnix (advance job 4) = 1000 + 4 * 86400
  ∧ now < runAtMs (advance job 4) ≤ now + 86400000
  ∧ outbox r.2 = [messageFor PingRole job]
  ∧ alarmAt r.2 = Some (runAtMs (advance job 4)).
Proof. vm_compute. repeat split; congruence. Qed.


(** A due job whose key the cache holds with a timestamp of a second ago. *)
Lemma delivered_occurrence_skipped_witness :
  let host := steadyHost 2000000 200 in
  let job := sampleJob "job-0" "ping-role" 1000 false in
  let w := worldWith [job] (Some {[ deliveryKey job := JNum 1999000 ]}) in
  let r := alarm host 5 w in
  noSendFor 0 (id job, scheduledUnix job) r.2 ∧ job ∉ storedJobs r.2.
Proof.
  intros host job w r.
  destruct (delivered_occurrence_skipped host 5 w job 1999000) as (Hsend & Hgone & _).
  - apply steady_monotone.
  - vm_compute. reflexivity.
  - intros n _. simpl. lia.
  - split; [exact Hsend|]. apply Hgone.
    + vm_compute. reflexivity.
    + vm_compute. congruence.
Defined.



(** * Further properties of the scheduler *)

(** ** Where a new job lands *)

Lemma insertJob_first (j : Job) (l : list Job) :
  (∀ k, k ∈ l → runAtMs j ≤ runAtMs k) → insertJob j l = j :: l.
Proof.
  destruct l as [|k l]; [done|]. intros Hall. simpl.
  destruct (Z.leb_spec (runAtMs j) (runAtMs k)) as [_|Hlt]; [done|].
  specialize (Hall k ltac:(left)). lia.
Qed.

Lemma filter_drops_all (P : Job → Prop) `{∀ j, Decision (P j)} (l : list Job) :
  (∀ j, j ∈ l → ¬ P j) → filter P l = [].
Proof.
  induction l as [|k l IH]; intros Hall; [done|].
  rewrite filter_cons_False by (apply Hall; left).
  apply IH. intros j Hj. apply Hall. by right.
Qed.

Lemma sortJobs_snoc (l : list Job) (j : Job) :
  StronglySorted earlier l →
  sortJobs (l ++ [j]) = (notAfter j l ++ j :: after j l)%list.
Proof.
  unfold sortJobs, notAfter, after. rewrite foldr_app. simpl.
  induction 1 as [|x l Hsorted IH Hx]; [done|].
  simpl. rewrite IH. rewrite Forall_forall in Hx. unfold earlier in Hx.
  destruct (decide (runAtMs x ≤ runAtMs j)) as [Hle|Hgt].
  - rewrite filter_cons_True, filter_cons_False by lia. simpl.
    apply insertJob_first. intros k Hk.
    apply elem_of_app in Hk as [Hk|Hk].
    + apply list_elem_of_filter in Hk as [_ Hk]. by apply Hx.
    + apply elem_of_cons in Hk as [->|Hk]; [done|].
      apply list_elem_of_filter in Hk as [_ Hk]. by apply Hx.
  - rewrite filter_cons_False, filter_cons_True by lia.
    assert (filter (λ k, runAtMs k ≤ runAtMs j) l = []) as ->.
    { apply filter_drops_all. intros k Hk. specialize (Hx k Hk). lia. }
    assert (filter (λ k, runAtMs j < runAtMs k) l = l) as ->.
    { apply filter_keeps_all. intros k Hk. specialize (Hx k Hk). lia. }
    simpl. destruct (Z.leb_spec (runAtMs x) (runAtMs j)) as [?|_]; [lia|].
    f_equal. by apply insertJob_first.
Qed.

(** X1. [/schedule] of a registered kind into a sorted Job Set keeps the
    stored jobs in their order and puts the new job behind every job that
    is due at the same time or earlier, and in front of every job due
    later: among jobs due at the same time, the one scheduled first stays
    first. *)
Theorem schedule_places_after_ties (host : Host) (body : ScheduleBody) (w : World) :
  inHandlers (b_doAtType body) = true →
  StronglySorted earlier (storedJobs w) →
  let j := jobOf (uuid host (uuids w)) body in
  storedJobs (schedule host body w).2 =
    (notAfter j (storedJobs w) ++ j :: after j (storedJobs w))%list.
Proof.
  intros Hin Hsorted j.
  destruct (schedule_valid host body w Hin) as [content ->]. simpl.
  by apply sortJobs_snoc.
Qed.

(** ** What the handlers write to the Job Set *)

Lemma Settled_Rewritten (host : Host) (fuel : nat) (job : Job) (rest : list Job)
    (w0 w : World) (out : Outcome unit) (w' : World) :
  sortJobs (storedJobs w0) = job :: rest →
  storedJobs w = storedJobs w0 →
  Settled host fuel job rest w out w' →
  Rewritten (storedJobs w0) (storedJobs w').
Proof.
  intros Hs Hsame Hset. inversion Hset; subst.
  - by eapply RewrittenRemoved.
  - by eapply RewrittenAdvanced.
  - change (storedJobs (tickN fuel w)) with (storedJobs w). rewrite Hsame. constructor.
Qed.

Lemma Iter_Rewritten (host : Host) (inner : nat) (d : gmap string JsVal) (w : World)
    (out : Outcome (Flow * gmap string JsVal)) (w' : World) :
  Iter host inner d w out w' →
  Rewritten (storedJobs w) (storedJobs w') ∧ uuids w' = uuids w.
Proof.
  intros Hit. inversion Hit; subst;
    try (split; [apply RewrittenSame || apply RewrittenDeleted | done]).
  - match goal with H : Settled _ _ _ _ _ _ _ |- _ =>
      pose proof (Settled_frame _ _ _ _ _ _ _ H) as (_ & _ & _ & Hu & _);
      split; [eapply Settled_Rewritten; [eassumption | | exact H]; done | by rewrite Hu]
    end.
  - match goal with H : Settled _ _ _ _ _ _ _ |- _ =>
      pose proof (Settled_frame _ _ _ _ _ _ _ H) as (_ & _ & _ & Hu & _);
      split; [eapply Settled_Rewritten; [eassumption | | exact H]; done | by rewrite Hu]
    end.
Qed.

(** A property of the Job Set that every rewriting keeps is kept by the
    alarm handler, however it ends. *)
Lemma alarm_jobs_inv (P : list Job → Prop) (host : Host) (fuel : nat) (w : World) :
  (∀ l l', P l → Rewritten l l' → P l') →
  P (storedJobs w) →
  P (storedJobs (alarm host fuel w).2) ∧ uuids (alarm host fuel w).2 = uuids w.
Proof.
  intros Hrew Hw. rewrite alarm_eq. cbv zeta.
  pose proof (drain_inv host fuel
    (λ _ w1, P (storedJobs w1) ∧ uuids w1 = uuids w)
    (λ _ w1, P (storedJobs w1) ∧ uuids w1 = uuids w)) as Hinv.
  assert (Hend :
    P (storedJobs (drain host fuel fuel
         (pruneDelivered (storedDelivered w) (clock host (ticks w))) (tick w)).2)
    ∧ uuids (drain host fuel fuel
         (pruneDelivered (storedDelivered w) (clock host (ticks w))) (tick w)).2
      = uuids w).
  { apply Hinv.
    - intros d1 w1 out w1' [H1 H2] Hit.
      destruct (Iter_Rewritten host fuel d1 w1 out w1' Hit) as [Hr Hu].
      assert (P (storedJobs w1') ∧ uuids w1' = uuids w) by (split; [eauto | congruence]).
      by destruct out as [[[] d2]| |].
    - done.
    - done. }
  destruct (drain host fuel fuel _ (tick w)) as [[d1| |] w1]; simpl in *; done.
Qed.

(** What a request writes: nothing; or, for a [/schedule] of a registered
    kind, the Job Set with the new job; or the Job Set without one index. *)
Lemma fetch_jobs (host : Host) (r : Request) (w : World) :
  (storedJobs (fetch host r w).2 = storedJobs w ∧ uuids (fetch host r w).2 = uuids w)
  ∨ (∃ body, r = PostSchedule body
       ∧ inHandlers (b_doAtType body) = true
       ∧ storedJobs (fetch host r w).2
           = sortJobs (storedJobs w ++ [jobOf (uuid host (uuids w)) body])
       ∧ uuids (fetch host r w).2 = S (uuids w))
  ∨ (∃ idx, storedJobs (fetch host r w).2 = sortJobs (splice1 idx (storedJobs w))
       ∧ uuids (fetch host r w).2 = uuids w).
Proof.
  destruct r as [body| |raw|]; simpl.
  - destruct (inHandlers (b_doAtType body)) eqn:Hin.
    + right. left. exists body.
      destruct (schedule_valid host body w Hin) as [content ->]. done.
    + left. by rewrite schedule_invalid.
  - left. by rewrite listJobs_state.
  - destruct (decide (trim raw = "")) as [He|He].
    { left. by rewrite cancel_blank. }
    destruct (findIndex (λ k, String.eqb (id k) (trim raw)) (storedJobs w))
      as [idx|] eqn:Hidx.
    + destruct (findIndex_Some _ _ _ Hidx) as (removed & Hrem & _).
      right. right. exists idx.
      rewrite (cancel_present raw w idx removed He Hidx Hrem). done.
    + left. rewrite cancel_absent; [done..|]. rewrite findIndex_None in Hidx.
      intros k Hk Heq. specialize (Hidx k Hk). simpl in Hidx.
      by rewrite Heq, String.eqb_refl in Hidx.
  - by left.
Qed.

(** Induction over the events of a tenant, for a property of the Job Set
    and the number of ids drawn so far. *)
Lemma run_jobs_inv (P : nat → list Job → Prop) (host : Host) :
  (∀ n l l', P n l → Rewritten l l' → P n l') →
  (∀ n l body, inHandlers (b_doAtType body) = true → P n l →
     P (S n) (sortJobs (l ++ [jobOf (uuid host n) body]))) →
  ∀ events w, P (uuids w) (storedJobs w) →
    P (uuids (run host events w)) (storedJobs (run host events w)).
Proof.
  intros Hrew Hadd events. induction events as [|e events IH]; intros w Hw; [done|].
  apply IH. destruct e as [r|fuel]; simpl.
  - destruct (fetch_jobs host r w)
      as [[-> ->]|[(body & -> & Hin & Hj & Hu)|(idx & -> & ->)]].
    + done.
    + rewrite Hj, Hu. by apply Hadd.
    + eapply Hrew; [exact Hw | apply RewrittenDeleted].
  - destruct (alarm_jobs_inv (P (uuids w)) host fuel w) as [H1 H2].
    + apply Hrew.
    + done.
    + by rewrite H2.
Qed.

Lemma movedFrom_refl (j : Job) : movedFrom j j.
Proof. exists 0%nat. by rewrite advance_0. Qed.

Lemma movedFrom_trans (a b c : Job) : movedFrom a b → movedFrom b c → movedFrom a c.
Proof.
  intros (m & -> & Hm) (k & -> & Hk). exists (m + k)%nat.
  rewrite advance_advance. split; [done|]. intros Hrep.
  specialize (Hm Hrep). specialize (Hk Hrep). lia.
Qed.

(** A rewriting invents no job: each job it leaves is a job it found, at its
    time or moved ahead. *)
Lemma Rewritten_elem (l l' : list Job) (j : Job) :
  Rewritten l l' → j ∈ l' → ∃ j0, j0 ∈ l ∧ movedFrom j0 j.
Proof.
  intros Hrew Hj. inversion Hrew as [|idx|job rest Hs Hrep|job rest k Hs Hrep]; subst.
  - exists j. split; [done | apply movedFrom_refl].
  - exists j. split; [|apply movedFrom_refl].
    apply sortJobs_elem_of_1 in Hj. unfold splice1 in Hj.
    by eapply list_elem_of_delete_inv.
  - exists j. split; [|apply movedFrom_refl].
    apply sortJobs_elem_of_1 in Hj. apply sortJobs_elem_of. rewrite Hs. by right.
  - apply sortJobs_elem_of_1, elem_of_app in Hj as [Hj|Hj].
    + exists j. split; [|apply movedFrom_refl].
      apply sortJobs_elem_of. rewrite Hs. by right.
    + apply list_elem_of_singleton in Hj as ->. exists job. split.
      * apply sortJobs_elem_of. rewrite Hs. left.
      * exists (S k). split; [done|]. congruence.
Qed.

Lemma movedFrom_id (j0 j : Job) : movedFrom j0 j → id j = id j0.
Proof. by intros (k & -> & _). Qed.

Lemma movedFrom_kind (j0 j : Job) : movedFrom j0 j → doAtType j = doAtType j0.
Proof. by intros (k & -> & _). Qed.

Lemma Rewritten_NoDup (l l' : list Job) :
  Rewritten l l' → NoDup (id <$> l) → NoDup (id <$> l').
Proof.
  intros Hrew Hnd. inversion Hrew as [|idx|job rest Hs Hrep|job rest k Hs Hrep]; subst.
  - done.
  - apply NoDup_ids_sortJobs. by apply NoDup_ids_delete.
  - apply NoDup_ids_sortJobs. apply NoDup_ids_sortJobs in Hnd. rewrite Hs in Hnd.
    rewrite fmap_cons in Hnd. by apply NoDup_cons in Hnd as [_ Hnd].
  - apply NoDup_ids_sortJobs. apply NoDup_ids_sortJobs in Hnd. rewrite Hs in Hnd.
    rewrite fmap_app. simpl.
    rewrite fmap_cons in Hnd. by rewrite <- Permutation_cons_append.
Qed.

(** X2. Whatever requests and wakes a tenant goes through, a Job Set that is
    stored in ascending order of due time stays stored in that order: every
    handler that writes the Job Set sorts it first. *)
Theorem stored_jobs_stay_sorted (host : Host) (events : list Event) (w : World) :
  StronglySorted earlier (storedJobs w) →
  StronglySorted earlier (storedJobs (run host events w)).
Proof.
  apply (run_jobs_inv (λ _ l, StronglySorted earlier l) host).
  - intros n l l' Hl Hrew. inversion Hrew; subst; (done || apply sortJobs_sorted).
  - intros n l body _ _. apply sortJobs_sorted.
Qed.

(** X3. If [crypto.randomUUID()] never gives the same id twice, the stored
    jobs keep pairwise different ids, each one an id that was drawn, through
    every sequence of requests and wakes. *)
Theorem job_ids_stay_unique (host : Host) (events : list Event) (w : World) :
  (∀ a b : nat, uuid host a = uuid host b → a = b) →
  NoDup (id <$> storedJobs w) →
  idsDrawn host (uuids w) (storedJobs w) →
  NoDup (id <$> storedJobs (run host events w))
  ∧ idsDrawn host (uuids (run host events w)) (storedJobs (run host events w)).
Proof.
  intros Hinj Hnd Hdrawn.
  apply (run_jobs_inv (λ n l, NoDup (id <$> l) ∧ idsDrawn host n l) host); [| |done].
  - intros n l l' [H1 H2] Hrew. split; [by eapply Rewritten_NoDup|].
    intros j Hj. destruct (Rewritten_elem l l' j Hrew Hj) as (j0 & Hj0 & Hmv).
    rewrite (movedFrom_id _ _ Hmv). by apply H2.
  - intros n l body _ [H1 H2]. split.
    + apply NoDup_ids_sortJobs. rewrite fmap_app. simpl.
      apply NoDup_app. split; [done|]. split; [|apply NoDup_singleton].
      intros x Hx Hx'. apply list_elem_of_singleton in Hx' as ->.
      apply list_elem_of_fmap in Hx as (j & Hid & Hj).
      destruct (H2 j Hj) as (k & Hk & Hjk). rewrite Hjk in Hid.
      apply Hinj in Hid. lia.
    + intros j Hj. apply sortJobs_elem_of_1, elem_of_app in Hj as [Hj|Hj].
      * destruct (H2 j Hj) as (k & Hk & Hjk). exists k. split; [lia | done].
      * apply list_elem_of_singleton in Hj as ->. exists n. split; [lia | done].
Qed.

(** X4. The scheduler stores no job whose kind [/schedule] would refuse:
    if every stored kind is a key of [doAtTypeHandlers], this stays so
    through every sequence of requests and wakes. *)
Theorem stored_kinds_stay_registered (host : Host) (events : list Event) (w : World) :
  (∀ j, j ∈ storedJobs w → inHandlers (doAtType j) = true) →
  ∀ j, j ∈ storedJobs (run host events w) → inHandlers (doAtType j) = true.
Proof.
  apply (run_jobs_inv (λ _ l, ∀ j, j ∈ l → inHandlers (doAtType j) = true) host).
  - intros n l l' Hl Hrew j Hj.
    destruct (Rewritten_elem l l' j Hrew Hj) as (j0 & Hj0 & Hmv).
    rewrite (movedFrom_kind _ _ Hmv). by apply Hl.
  - intros n l body Hin Hl j Hj.
    apply sortJobs_elem_of_1, elem_of_app in Hj as [Hj|Hj]; [by apply Hl|].
    by apply list_elem_of_singleton in Hj as ->.
Qed.

(** X5. The alarm handler invents no job and moves none back: however it
    ends, each job stored afterwards is a job stored before, unchanged if it
    is a one-off and otherwise at its time or a whole number of days
    later. *)
Theorem alarm_only_moves_daily_jobs_ahead (host : Host) (fuel : nat) (w : World)
    (j : Job) :
  j ∈ storedJobs (alarm host fuel w).2 →
  ∃ j0, j0 ∈ storedJobs w ∧ movedFrom j0 j.
Proof.
  revert j.
  apply (alarm_jobs_inv (λ l, ∀ j, j ∈ l → ∃ j0, j0 ∈ storedJobs w ∧ movedFrom j0 j)).
  - intros l l' Hl Hrew j Hj.
    destruct (Rewritten_elem l l' j Hrew Hj) as (j1 & Hj1 & Hmv1).
    destruct (Hl j1 Hj1) as (j0 & Hj0 & Hmv0).
    exists j0. split; [done | by eapply movedFrom_trans].
  - intros j Hj. exists j. split; [done | apply movedFrom_refl].
Qed.

(** ** Listing *)

Lemma mapEff_listLine_cases (l : list Job) (w : World) :
  ((∃ lines, mapEff listLine l w = (Returned lines, w) ∧ length lines = length l)
   ∧ ∀ j, j ∈ l → ∃ h, doAtTypeHandlers (doAtType j) = Own h)
  ∨ (mapEff listLine l w = (Threw TypeError, w)
     ∧ ∃ j, j ∈ l ∧ ∀ h, doAtTypeHandlers (doAtType j) ≠ Own h).
Proof.
  induction l as [|j l IH].
  { left. split; [by exists [] | by intros j Hj; apply elem_of_nil in Hj]. }
  cbn [mapEff]. rewrite bind_eq.
  destruct (doAtTypeHandlers (doAtType j)) as [h| |] eqn:Hkind.
  - assert (∃ line, listLine j w = (Returned line, w)) as [line ->].
    { unfold listLine. rewrite Hkind. by eexists. }
    rewrite bind_eq.
    destruct IH as [[(lines & -> & Hlen) Hall]|[-> (k & Hk & Hbad)]].
    + left. split.
      * unfold mret, Eff_ret. eexists. split; [reflexivity|]. simpl. by rewrite Hlen.
      * intros k Hk. apply elem_of_cons in Hk as [->|Hk]; [by exists h | by apply Hall].
    + right. split; [done|]. exists k. split; [by right | done].
  - assert (listLine j w = (Threw TypeError, w)) as ->.
    { unfold listLine. by rewrite Hkind. }
    right. split; [done|]. exists j. split; [left|]. intros h. by rewrite Hkind.
  - assert (listLine j w = (Threw TypeError, w)) as ->.
    { unfold listLine. by rewrite Hkind. }
    right. split; [done|]. exists j. split; [left|]. intros h. by rewrite Hkind.
Qed.

(** X6. [/list] never changes the state. It throws exactly when one of the
    15 earliest jobs has a kind that is none of the three handlers, and
    answers with a reply exactly when each of them has a handler: a job
    behind the 15th is counted but never rendered. *)
Theorem list_fails_on_unrenderable_job (w : World) :
  let shown := take 15 (sortJobs (storedJobs w)) in
  (listJobs w).2 = w
  ∧ ((listJobs w).1 = Threw TypeError
     ↔ ∃ j, j ∈ shown ∧ ∀ h, doAtTypeHandlers (doAtType j) ≠ Own h)
  ∧ ((∃ content, (listJobs w).1 = Returned (Reply content))
     ↔ ∀ j, j ∈ shown → ∃ h, doAtTypeHandlers (doAtType j) = Own h).
Proof.
  intros shown. split; [apply listJobs_state|].
  unfold listJobs. rewrite bind_eq. unfold getJobs. fold (storedJobs w).
  case_bool_decide as Hlen.
  { assert (shown = []) as Hshown.
    { subst shown. by destruct (sortJobs (storedJobs w)). }
    rewrite Hshown. split.
    - split; [done|]. intros (j & Hj & _). by apply elem_of_nil in Hj.
    - split; [by intros _ j Hj; apply elem_of_nil in Hj | by eexists]. }
  rewrite bind_eq. fold shown.
  destruct (mapEff_listLine_cases shown w) as [[(lines & -> & _) Hall]|[-> Hbad]].
  - split.
    + split; [done|]. intros (j & Hj & Hno). destruct (Hall j Hj) as [h Hh].
      by destruct (Hno h).
    + split; [done | by eexists].
  - split.
    + done.
    + split; [by intros [content H]|]. intros Hall.
      destruct Hbad as (j & Hj & Hno). destruct (Hall j Hj) as [h Hh]. by destruct (Hno h).
Qed.

(** ** One wake, pass by pass *)

(** A pass that finds no job due leaves the loop. *)
Lemma iteration_breaks (host : Host) (inner : nat) (d : gmap string JsVal) (w : World) :
  (∀ j, j ∈ storedJobs w → clock host (ticks w) < runAtMs j) →
  iteration host inner d w = (Returned (Break, d), tick w).
Proof.
  intros Hnone. unfold iteration. rewrite bind_eq. unfold dateNow. rewrite bind_eq.
  unfold getJobs. change (default [] (jobsStore (tick w))) with (storedJobs w).
  destruct (sortJobs (storedJobs w)) as [|job rest] eqn:Hs; [done|]. cbn [head].
  assert (Hin : job ∈ storedJobs w) by (apply sortJobs_elem_of; rewrite Hs; left).
  specialize (Hnone job Hin). rewrite Z.gtb_ltb.
  by destruct (Z.ltb_spec (clock host (ticks w)) (runAtMs job)) as [_|?]; [|lia].
Qed.

(** A pass that finds its first job due, not in the cache, of a kind with a
    handler, and whose POST is answered with success. *)
Lemma iteration_sends (host : Host) (inner : nat) (d : gmap string JsVal) (w : World)
    (job : Job) (rest : list Job) (h : Handler) :
  sortJobs (storedJobs w) = job :: rest →
  runAtMs job ≤ clock host (ticks w) →
  alreadyDelivered d (deliveryKey job) = false →
  doAtTypeHandlers (doAtType job) = Own h →
  ok (discord host (length (outbox w))) = true →
  let now := clock host (S (ticks w)) in
  let d' := pruneDelivered (<[deliveryKey job := JNum now]> d) now in
  let w1 := setDelivered d' (tick (logSent (messageFor h job) (tick w))) in
  iteration host inner d w =
    (andThen (settle host inner job w1).1 (Continue, d'), (settle host inner job w1).2).
Proof.
  intros Hs Hdue Hdel Hkind Hok now d' w1.
  unfold iteration. rewrite bind_eq. unfold dateNow. rewrite bind_eq.
  unfold getJobs. change (default [] (jobsStore (tick w))) with (storedJobs w).
  rewrite Hs. cbn [head]. rewrite Z.gtb_ltb.
  destruct (Z.ltb_spec (clock host (ticks w)) (runAtMs job)) as [?|_]; [lia|].
  rewrite Hdel. cbn [negb]. rewrite Hkind, bind_eq.
  rewrite (deliver_ok host h job d (tick w) Hok).
  change (ticks (tick w)) with (S (ticks w)). fold now. fold d'. fold w1.
  rewrite bind_eq. by destruct (settle host inner job w1) as [[[]| |] w2].
Qed.

Lemma settle_one_off (host : Host) (fuel : nat) (job : Job) (rest : list Job)
    (w : World) :
  sortJobs (storedJobs w) = job :: rest →
  repeatDaily job = false →
  settle host fuel job w = (Returned tt, setJobs (sortJobs rest) w).
Proof.
  intros Hs Hrep. pose proof (settle_Settled host fuel job rest w Hs) as H.
  destruct (settle host fuel job w) as [o w']. simpl in H.
  inversion H; subst; [done | congruence..].
Qed.

(** [settle] for a daily job whose next day has not come at the first test
    of the catch-up loop. *)
Lemma settle_next_day (host : Host) (fuel : nat) (job : Job) (rest : list Job)
    (w : World) :
  sortJobs (storedJobs w) = job :: rest →
  repeatDaily job = true →
  clock host (ticks w) < runAtMs job + 86400000 →
  settle host (S fuel) job w =
    (Returned tt, setJobs (sortJobs (rest ++ [advance job 1])) (tick w)).
Proof.
  intros Hs Hrep Hnext. pose proof (settle_Settled host (S fuel) job rest w Hs) as H.
  destruct (settle host (S fuel) job w) as [o w']. simpl in H.
  inversion H as [Hno|k Hyes Hk Hbefore Hafter|Hyes Hbefore]; subst; [congruence| |].
  - destruct k as [|k].
    + by rewrite tick_tickN.
    + specialize (Hbefore 0%nat ltac:(lia)).
      replace (ticks w + 0)%nat with (ticks w) in Hbefore by lia. lia.
  - specialize (Hbefore 0%nat ltac:(lia)).
    replace (ticks w + 0)%nat with (ticks w) in Hbefore by lia. lia.
Qed.

(** X7. A wake that finds no stored job due returns without a POST and
    without writing the Job Set, and leaves the alarm at the earliest
    stored job (no alarm if nothing is stored). *)
Theorem early_wake_changes_no_job (host : Host) (fuel : nat) (w : World) :
  (∀ j, j ∈ storedJobs w → clock host (S (ticks w)) < runAtMs j) →
  ∃ w', alarm host (S fuel) w = (Returned tt, w')
    ∧ outbox w' = outbox w
    ∧ jobsStore w' = jobsStore w
    ∧ alarmAt w' = runAtMs <$> head (sortJobs (storedJobs w)).
Proof.
  intros Hnone. rewrite alarm_eq. cbv zeta. cbn [drain]. rewrite bind_eq.
  rewrite iteration_breaks by done. simpl. eexists. split; [reflexivity|]. done.
Qed.

(** X8. A wake over a Job Set whose earliest job is a one-off of a kind with
    a handler, due, not in the dedup cache, while no other job is due:
    if Discord answers the POST with success, the handler returns having
    made exactly that one POST, the job is gone from the Job Set, the other
    jobs are all there, and the alarm points at the earliest of them. *)
Theorem wake_sends_due_one_off (host : Host) (fuel : nat) (w : World)
    (job : Job) (rest : list Job) (h : Handler) :
  sortJobs (storedJobs w) = job :: rest →
  repeatDaily job = false →
  doAtTypeHandlers (doAtType job) = Own h →
  alreadyDelivered (storedDelivered w) (deliveryKey job) = false →
  runAtMs job ≤ clock host (S (ticks w)) →
  ok (discord host (length (outbox w))) = true →
  (∀ k, k ∈ rest → clock host (S (S (S (ticks w)))) < runAtMs k) →
  ∃ w', alarm host (S (S fuel)) w = (Returned tt, w')
    ∧ outbox w' = (outbox w ++ [messageFor h job])%list
    ∧ storedJobs w' = sortJobs rest
    ∧ alarmAt w' = runAtMs <$> head (sortJobs rest).
Proof.
  intros Hs Hrep Hkind Hdel Hdue Hok Hrest. rewrite alarm_eq. cbv zeta.
  cbn [drain]. rewrite bind_eq.
  rewrite (iteration_sends host _ _ (tick w) job rest h);
    [|done|done|by apply alreadyDelivered_prune|done|done].
  cbv zeta. rewrite (settle_one_off host _ job rest) by done.
  cbn [andThen fst snd]. rewrite bind_eq.
  rewrite iteration_breaks.
  2:{ intros k Hk. apply sortJobs_elem_of_1 in Hk. by apply Hrest. }
  cbn [fst snd]. eexists. split; [reflexivity|].
  unfold storedJobs. simpl. by rewrite sortJobs_idemp.
Qed.

(** X9. The same wake for a daily job, with the clock not yet at the job's
    next day: the handler returns having made exactly that one POST, and
    the job is stored once more, exactly one day later, with the other
    jobs. *)
Theorem wake_sends_due_daily (host : Host) (fuel : nat) (w : World)
    (job : Job) (rest : list Job) (h : Handler) :
  sortJobs (storedJobs w) = job :: rest →
  repeatDaily job = true →
  doAtTypeHandlers (doAtType job) = Own h →
  alreadyDelivered (storedDelivered w) (deliveryKey job) = false →
  runAtMs job ≤ clock host (S (ticks w)) →
  ok (discord host (length (outbox w))) = true →
  clock host (S (S (S (ticks w)))) < runAtMs job + 86400000 →
  clock host (S (S (S (S (ticks w))))) < runAtMs job + 86400000 →
  (∀ k, k ∈ rest → clock host (S (S (S (S (ticks w))))) < runAtMs k) →
  ∃ w', alarm host (S (S fuel)) w = (Returned tt, w')
    ∧ outbox w' = (outbox w ++ [messageFor h job])%list
    ∧ storedJobs w' = sortJobs (rest ++ [advance job 1])
    ∧ alarmAt w' = runAtMs <$> head (sortJobs (rest ++ [advance job 1])).
Proof.
  intros Hs Hrep Hkind Hdel Hdue Hok Hnext Hnext' Hrest. rewrite alarm_eq. cbv zeta.
  cbn [drain]. rewrite bind_eq.
  rewrite (iteration_sends host _ _ (tick w) job rest h);
    [|done|done|by apply alreadyDelivered_prune|done|done].
  cbv zeta. rewrite (settle_next_day host _ job rest) by done.
  cbn [andThen fst snd]. rewrite bind_eq.
  rewrite iteration_breaks.
  2:{ intros k Hk. apply sortJobs_elem_of_1, elem_of_app in Hk as [Hk|Hk].
      - by apply Hrest.
      - apply list_elem_of_singleton in Hk as ->. simpl. lia. }
  cbn [fst snd]. eexists. split; [reflexivity|].
  unfold storedJobs. simpl. by rewrite sortJobs_idemp.
Qed.

(** ** What a wake posts *)

(** Every pass reads the clock, and posts nothing or one message: the one
    its handler renders for the earliest job, which is due. *)
Lemma Iter_outbox (host : Host) (inner : nat) (d : gmap string JsVal) (w : World)
    (out : Outcome (Flow * gmap string JsVal)) (w' : World) :
  Iter host inner d w out w' →
  (ticks w < ticks w')%nat
  ∧ (outbox w' = outbox w
     ∨ ∃ job h,
         job ∈ storedJobs w
         ∧ runAtMs job ≤ clock host (ticks w)
         ∧ doAtTypeHandlers (doAtType job) = Own h
         ∧ outbox w' = (outbox w ++ [messageFor h job])%list).
Proof.
  intros Hit.
  assert (Hhead : ∀ job rest, sortJobs (storedJobs w) = job :: rest → job ∈ storedJobs w).
  { intros job rest Hs. apply sortJobs_elem_of. rewrite Hs. left. }
  inversion Hit; subst; simpl; try (split; [lia | by left]).
  - split; [lia|]. right. exists job, h. eauto.
  - match goal with H : Settled _ _ _ _ _ _ _ |- _ =>
      pose proof (Settled_frame _ _ _ _ _ _ _ H) as (Ho & _ & _ & _ & Ht & _) end.
    simpl in *. split; [lia|]. right. exists job, h. rewrite Ho. eauto.
  - match goal with H : Settled _ _ _ _ _ _ _ |- _ =>
      pose proof (Settled_frame _ _ _ _ _ _ _ H) as (Ho & _ & _ & _ & Ht & _) end.
    simpl in *. split; [lia|]. by left.
Qed.

(** X10. No message goes out early or for a job that is not stored: every
    POST of an alarm invocation, however the invocation ends, is the
    message a handler renders for a job that was due at a clock reading
    taken during the invocation; and that job is one of the jobs stored
    at the start, at its time or, for a daily job, a number of days
    later. *)
Theorem wake_posts_only_for_due_jobs (host : Host) (fuel : nat) (w : World)
    (i : nat) (msg : Sent) :
  (length (outbox w) ≤ i)%nat →
  outbox (alarm host fuel w).2 !! i = Some msg →
  ∃ (job : Job) (h : Handler) (n : nat),
    msg = messageFor h job
    ∧ doAtTypeHandlers (doAtType job) = Own h
    ∧ (ticks w < n < ticks (alarm host fuel w).2)%nat
    ∧ runAtMs job ≤ clock host n
    ∧ ∃ j0, j0 ∈ storedJobs w ∧ movedFrom j0 job.
Proof.
  intros Hi. revert msg.
  set (posted := λ w1 : World, ∀ msg : Sent,
    outbox w1 !! i = Some msg →
    ∃ (job : Job) (h : Handler) (n : nat),
      msg = messageFor h job
      ∧ doAtTypeHandlers (doAtType job) = Own h
      ∧ (ticks w < n < ticks w1)%nat
      ∧ runAtMs job ≤ clock host n
      ∧ ∃ j0, j0 ∈ storedJobs w ∧ movedFrom j0 job).
  set (known := λ w1 : World,
    (length (outbox w) ≤ length (outbox w1))%nat
    ∧ (ticks w < ticks w1)%nat
    ∧ ∀ j, j ∈ storedJobs w1 → ∃ j0, j0 ∈ storedJobs w ∧ movedFrom j0 j).
  assert (Hstep : ∀ d1 w1 out w1',
    known w1 ∧ posted w1 → Iter host fuel d1 w1 out w1' → known w1' ∧ posted w1').
  { intros d1 w1 out w1' [(Hlen & Hticks & Hjobs) Hposted] Hit.
    destruct (Iter_Rewritten host fuel d1 w1 out w1' Hit) as [Hrew _].
    destruct (Iter_outbox host fuel d1 w1 out w1' Hit) as [Ht Hout].
    assert (Hjobs' : ∀ j, j ∈ storedJobs w1' → ∃ j0, j0 ∈ storedJobs w ∧ movedFrom j0 j).
    { intros j Hj. destruct (Rewritten_elem _ _ j Hrew Hj) as (j1 & Hj1 & Hmv1).
      destruct (Hjobs j1 Hj1) as (j0 & Hj0 & Hmv0).
      exists j0. split; [done | by eapply movedFrom_trans]. }
    destruct Hout as [Hout|(job & h & Hin & Hdue & Hkind & Hout)].
    - split; [split; [by rewrite Hout | split; [lia | done]]|].
      intros msg Hmsg. rewrite Hout in Hmsg.
      destruct (Hposted msg Hmsg) as (job & h & n & ? & ? & ? & ? & ?).
      exists job, h, n. repeat (split; [done || lia|]). done.
    - split; [split; [rewrite Hout, length_app; lia | split; [lia | done]]|].
      intros msg Hmsg. rewrite Hout in Hmsg.
      apply lookup_app_Some in Hmsg as [Hmsg|[Hge Hmsg]].
      + destruct (Hposted msg Hmsg) as (job' & h' & n & ? & ? & ? & ? & ?).
        exists job', h', n. repeat (split; [done || lia|]). done.
      + apply list_lookup_singleton_Some in Hmsg as [_ <-].
        exists job, h, (ticks w1). repeat (split; [done || lia|]). by apply Hjobs. }
  pose proof (drain_inv host fuel (λ _ w1, known w1 ∧ posted w1)
                (λ _ w1, known w1 ∧ posted w1)) as Hinv.
  rewrite alarm_eq. cbv zeta.
  assert (Hend :
    known (drain host fuel fuel
       (pruneDelivered (storedDelivered w) (clock host (ticks w))) (tick w)).2
    ∧ posted (drain host fuel fuel
       (pruneDelivered (storedDelivered w) (clock host (ticks w))) (tick w)).2).
  { apply Hinv.
    - intros d1 w1 out w1' HI Hit. pose proof (Hstep d1 w1 out w1' HI Hit).
      by destruct out as [[[] d2]| |].
    - done.
    - split.
      + split; [done|]. split; [simpl; lia|]. intros j Hj. exists j.
        split; [done | apply movedFrom_refl].
      + intros msg Hmsg. apply lookup_lt_Some in Hmsg. simpl in Hmsg. lia. }
  destruct (drain host fuel fuel _ (tick w)) as [[d1| |] w1]; simpl in *.
  - destruct Hend as [_ Hposted]. intros msg Hmsg.
    destruct (Hposted msg Hmsg) as (job & h & n & ? & ? & ? & ? & ?).
    exists job, h, n. repeat (split; [done || lia|]). done.
  - by destruct Hend as [_ Hposted].
  - by destruct Hend as [_ Hposted].
Qed.

(** A pass posts nothing, or the message for the earliest stored job. *)
Lemma Iter_posts_head (host : Host) (inner : nat) (d : gmap string JsVal) (w : World)
    (out : Outcome (Flow * gmap string JsVal)) (w' : World) :
  Iter host inner d w out w' →
  outbox w' = outbox w
  ∨ ∃ job rest h,
      sortJobs (storedJobs w) = job :: rest
      ∧ outbox w' = (outbox w ++ [messageFor h job])%list.
Proof.
  intros Hit. inversion Hit; subst; simpl; try (by left).
  - right. by exists job, rest, h.
  - match goal with H : Settled _ _ _ _ _ _ _ |- _ =>
      pose proof (Settled_frame _ _ _ _ _ _ _ H) as (Ho & _) end.
    right. exists job, rest, h. by rewrite Ho.
  - match goal with H : Settled _ _ _ _ _ _ _ |- _ =>
      pose proof (Settled_frame _ _ _ _ _ _ _ H) as (Ho & _) end.
    left. by rewrite Ho.
Qed.

Lemma Iter_due_order (host : Host) (inner n0 : nat) (d : gmap string JsVal) (w : World)
    (out : Outcome (Flow * gmap string JsVal)) (w' : World) :
  (n0 ≤ length (outbox w))%nat →
  dueAsScheduled w → inDueOrder n0 w → postedBeforeStored n0 w →
  Iter host inner d w out w' →
  (n0 ≤ length (outbox w'))%nat
  ∧ dueAsScheduled w' ∧ inDueOrder n0 w' ∧ postedBeforeStored n0 w'.
Proof.
  intros Hn0 Hdue Horder Hbefore Hit.
  destruct (Iter_Rewritten host inner d w out w' Hit) as [Hrew _].
  assert (Hfrom : ∀ k', k' ∈ storedJobs w' →
            runAtMs k' = scheduledUnix k' * 1000
            ∧ ∃ k, k ∈ storedJobs w ∧ scheduledUnix k ≤ scheduledUnix k').
  { intros k' Hk'.
    destruct (Rewritten_elem _ _ k' Hrew Hk') as (k & Hk & m & -> & _).
    specialize (Hdue k Hk). simpl. split; [lia|]. exists k. split; [done | lia]. }
  destruct (Iter_posts_head host inner d w out w' Hit)
    as [Hout|(job & rest & h & Hs & Hout)].
  - split; [by rewrite Hout|]. split; [intros k' Hk'; by apply Hfrom|]. split.
    + intros i i' msg msg'. rewrite Hout. apply Horder.
    + intros i msg k' Hi Hmsg Hk'. rewrite Hout in Hmsg.
      destruct (Hfrom k' Hk') as (_ & k & Hk & Hle).
      specialize (Hbefore i msg k Hi Hmsg Hk). lia.
  - assert (Hhead : job ∈ storedJobs w
                    ∧ ∀ k, k ∈ storedJobs w → scheduledUnix job ≤ scheduledUnix k).
    { destruct (head_sortJobs_Some job (storedJobs w)) as [Hin Hmin];
        [by rewrite Hs|].
      split; [done|]. intros k Hk. specialize (Hmin k Hk).
      rewrite (Hdue job Hin), (Hdue k Hk) in Hmin. lia. }
    destruct Hhead as [Hin Hmin].
    split; [rewrite Hout, length_app; lia|].
    split; [intros k' Hk'; by apply Hfrom|]. split.
    + intros i i' msg msg' Hi Hlt Hmsg Hmsg'. rewrite Hout in Hmsg, Hmsg'.
      apply lookup_app_Some in Hmsg' as [Hmsg'|[Hge Hmsg']].
      * apply lookup_lt_Some in Hmsg' as Hlen.
        rewrite lookup_app_l in Hmsg by lia. by eapply Horder.
      * apply list_lookup_singleton_Some in Hmsg' as [Hidx <-].
        rewrite lookup_app_l in Hmsg by lia. simpl.
        by apply (Hbefore i msg job).
    + intros i msg k' Hi Hmsg Hk'. rewrite Hout in Hmsg.
      destruct (Hfrom k' Hk') as (_ & k & Hk & Hle).
      apply lookup_app_Some in Hmsg as [Hmsg|[Hge Hmsg]].
      * specialize (Hbefore i msg k Hi Hmsg Hk). lia.
      * apply list_lookup_singleton_Some in Hmsg as [_ <-]. simpl.
        specialize (Hmin k Hk). lia.
Qed.

(** X28. Within one alarm invocation the messages go out in the order of
    their scheduled times: over a Job Set in which every job is due at its
    scheduled time (as [/schedule] stores it), a POST is never followed by
    a POST for an occurrence scheduled earlier, however the invocation
    ends. *)
Theorem wake_posts_in_due_order (host : Host) (fuel : nat) (w : World) :
  dueAsScheduled w →
  inDueOrder (length (outbox w)) (alarm host fuel w).2.
Proof.
  intros Hdue. set (n0 := length (outbox w)).
  pose proof (drain_inv host fuel
    (λ _ w1, (n0 ≤ length (outbox w1))%nat ∧ dueAsScheduled w1
             ∧ inDueOrder n0 w1 ∧ postedBeforeStored n0 w1)
    (λ _ w1, inDueOrder n0 w1)) as Hinv.
  rewrite alarm_eq. cbv zeta.
  assert (Hend : inDueOrder n0
    (drain host fuel fuel
       (pruneDelivered (storedDelivered w) (clock host (ticks w))) (tick w)).2).
  { apply Hinv.
    - intros d1 w1 out w1' (H1 & H2 & H3 & H4) Hit.
      destruct (Iter_due_order host fuel n0 d1 w1 out w1' H1 H2 H3 H4 Hit)
        as (? & ? & ? & ?).
      by destruct out as [[[] d2]| |].
    - by intros d1 w1 (_ & _ & ? & _).
    - split; [done|]. split; [done|]. split.
      + intros i i' msg msg' Hi Hlt Hmsg Hmsg'.
        apply lookup_lt_Some in Hmsg'. simpl in Hmsg'. lia.
      + intros i msg k Hi Hmsg _. apply lookup_lt_Some in Hmsg. simpl in Hmsg. lia. }
  by destruct (drain host fuel fuel _ (tick w)) as [[d1| |] w1].
Qed.

Lemma Iter_throws (host : Host) (inner : nat) (d : gmap string JsVal) (w : World)
    (e : Exn) (w' : World) :
  noInherited w →
  Iter host inner d w (Threw e) w' →
  e = apiError (discord host (length (outbox w)))
  ∧ ok (discord host (length (outbox w))) = false
  ∧ length (outbox w') = S (length (outbox w)).
Proof.
  intros Hno Hit.
  inversion Hit as [| | |job rest Hs Hdue Hdel Hkind|job rest h Hs Hdue Hdel Hkind Hok
                    |job rest h out w2 Hs Hdue Hdel Hkind Hok now d' Hset Hout
                    |job rest out w2 Hs Hdue Hdel Hset Hout]; subst.
  - exfalso. apply (Hno job); [|done].
    apply sortJobs_elem_of. rewrite Hs. left.
  - split; [done|]. split; [done|]. simpl. rewrite length_app. simpl. lia.
  - destruct (Settled_frame _ _ _ _ _ _ _ Hset) as (_ & _ & _ & _ & _ & [-> | ->]);
      done.
  - destruct (Settled_frame _ _ _ _ _ _ _ Hset) as (_ & _ & _ & _ & _ & [-> | ->]);
      done.
Qed.

(** X29. Over a Job Set in which no kind is a member name of
    [Object.prototype], the alarm handler throws for one reason only: a POST
    that Discord did not answer with success. What it throws is the API
    error of that response, and the POST is the invocation's last. *)
Theorem wake_throws_only_api_errors (host : Host) (fuel : nat) (w : World) (e : Exn) :
  noInherited w →
  (alarm host fuel w).1 = Threw e →
  ∃ i : nat,
    (length (outbox w) ≤ i)%nat
    ∧ length (outbox (alarm host fuel w).2) = S i
    ∧ ok (discord host i) = false
    ∧ e = apiError (discord host i).
Proof.
  intros Hno. set (n0 := length (outbox w)).
  pose proof (drain_inv host fuel
    (λ _ w1, (n0 ≤ length (outbox w1))%nat ∧ noInherited w1)
    (λ out w1, ∀ e, out = Threw e →
       ∃ i : nat, (n0 ≤ i)%nat ∧ length (outbox w1) = S i
                  ∧ ok (discord host i) = false ∧ e = apiError (discord host i)))
    as Hinv.
  rewrite alarm_eq. cbv zeta.
  assert (Hend : ∀ e,
    (drain host fuel fuel
       (pruneDelivered (storedDelivered w) (clock host (ticks w))) (tick w)).1 = Threw e →
    ∃ i : nat, (n0 ≤ i)%nat
      ∧ length (outbox (drain host fuel fuel
          (pruneDelivered (storedDelivered w) (clock host (ticks w))) (tick w)).2) = S i
      ∧ ok (discord host i) = false ∧ e = apiError (discord host i)).
  { apply Hinv.
    - intros d1 w1 out w1' [Hlen Hno1] Hit.
      destruct out as [[[] d2]| |]; try done.
      + destruct (Iter_Rewritten host fuel d1 w1 _ w1' Hit) as [Hrew _].
        destruct (Iter_outbox host fuel d1 w1 _ w1' Hit) as [_ Hout].
        split.
        * destruct Hout as [->|(? & ? & _ & _ & _ & ->)]; [done|].
          rewrite length_app. lia.
        * intros j Hj. destruct (Rewritten_elem _ _ j Hrew Hj) as (j0 & Hj0 & Hmv).
          rewrite (movedFrom_kind _ _ Hmv). by apply Hno1.
      + intros e' [= <-].
        destruct (Iter_throws host fuel d1 w1 e0 w1' Hno1 Hit) as (-> & Hok & Hlen').
        exists (length (outbox w1)). done.
    - done.
    - done. }
  destruct (drain host fuel fuel _ (tick w)) as [[d1| |] w1]; simpl in *; [done| |done].
  intros [= <-]. by apply Hend.
Qed.

(** ** What a wake writes to the dedup cache *)

Lemma earned_prune (host : Host) (n0 : nat) (c0 c : gmap string JsVal) (w : World)
    (now : Z) :
  earned host n0 c0 c w → earned host n0 c0 (pruneDelivered c now) w.
Proof.
  intros Hc key v. rewrite pruneDelivered_lookup.
  destruct (c !! key) as [v'|] eqn:Hkey; [|done].
  destruct (stale now v'); [done|]. intros [= <-]. by apply Hc.
Qed.

Lemma earned_more (host : Host) (n0 : nat) (c0 c : gmap string JsVal) (w w' : World)
    (sent : list Sent) :
  outbox w' = (outbox w ++ sent)%list →
  earned host n0 c0 c w → earned host n0 c0 c w'.
Proof.
  intros Hout Hc key v Hkey. destruct (Hc key v Hkey) as [?|(i & msg & t & ? & Hmsg & ?)].
  - by left.
  - right. exists i, msg, t. rewrite Hout. split; [done|].
    split; [|done]. by apply lookup_app_l_Some.
Qed.

Lemma earned_same (host : Host) (n0 : nat) (c0 c : gmap string JsVal) (w w' : World) :
  outbox w' = outbox w →
  earned host n0 c0 c w → earned host n0 c0 c w'.
Proof. intros Hout. apply (earned_more _ _ _ _ _ _ []). by rewrite app_nil_r. Qed.

Lemma Iter_earned (host : Host) (inner n0 : nat) (c0 d : gmap string JsVal)
    (w : World) (out : Outcome (Flow * gmap string JsVal)) (w' : World) :
  (n0 ≤ length (outbox w))%nat →
  earned host n0 c0 d w →
  earned host n0 c0 (storedDelivered w) w →
  Iter host inner d w out w' →
  (n0 ≤ length (outbox w'))%nat
  ∧ earned host n0 c0 (storedDelivered w') w'
  ∧ match out with
    | Returned (_, d') => earned host n0 c0 d' w'
    | _ => True
    end.
Proof.
  intros Hn0 Hd Hstored Hit.
  inversion Hit; subst; try done.
  - split; [simpl; rewrite length_app; lia|]. split; [|done].
    change (earned host n0 c0 (pruneDelivered d (clock host (S (ticks w))))
              (logSent (messageFor h job) w)).
    apply earned_prune. by apply (earned_more _ _ _ _ w _ [messageFor h job]).
  - match goal with H : Settled _ _ _ _ _ _ _ |- _ =>
      pose proof (Settled_frame _ _ _ _ _ _ _ H) as (Ho & Hc & _ & _ & _ & Hres) end.
    simpl in Ho, Hc.
    assert (Hd' : earned host n0 c0 d' w').
    { subst d'. apply earned_prune. intros key v Hkey.
      destruct (decide (key = deliveryKey job)) as [->|Hne].
      - rewrite lookup_insert_eq in Hkey. injection Hkey as <-. right.
        exists (length (outbox w)), (messageFor h job), now.
        rewrite Ho. split; [done|]. split; [|done].
        by rewrite lookup_app_r, Nat.sub_diag by lia.
      - rewrite lookup_insert_ne in Hkey by done.
        eapply (earned_more _ _ _ _ w _ [messageFor h job]); [done | exact Hd | done]. }
    split; [rewrite Ho, length_app; lia|]. split.
    + unfold storedDelivered. by rewrite Hc.
    + by destruct Hres as [-> | ->].
  - match goal with H : Settled _ _ _ _ _ _ _ |- _ =>
      pose proof (Settled_frame _ _ _ _ _ _ _ H) as (Ho & Hc & _ & _ & _ & Hres) end.
    simpl in Ho, Hc. split; [by rewrite Ho|]. split.
    + unfold storedDelivered. rewrite Hc. by eapply earned_same.
    + destruct Hres as [-> | ->]; [|done]. by eapply earned_same.
Qed.

(** X11. The alarm handler marks nothing as delivered that was not: however
    an invocation ends, each entry of the stored dedup cache was stored
    with the same value before, or is the key of an occurrence whose POST
    in this invocation Discord answered with success, with a number as its
    value. *)
Theorem cache_marks_only_successful_sends (host : Host) (fuel : nat) (w : World) :
  earned host (length (outbox w)) (storedDelivered w)
    (storedDelivered (alarm host fuel w).2) (alarm host fuel w).2.
Proof.
  set (n0 := length (outbox w)). set (c0 := storedDelivered w).
  pose proof (drain_inv host fuel
    (λ d w1, (n0 ≤ length (outbox w1))%nat ∧ earned host n0 c0 d w1
             ∧ earned host n0 c0 (storedDelivered w1) w1)
    (λ out w1, earned host n0 c0 (storedDelivered w1) w1
               ∧ match out with
                 | Returned d => earned host n0 c0 d w1
                 | _ => True
                 end)) as Hinv.
  rewrite alarm_eq. cbv zeta. fold c0.
  assert (Hend :
    earned host n0 c0
      (storedDelivered
         (drain host fuel fuel (pruneDelivered c0 (clock host (ticks w))) (tick w)).2)
      (drain host fuel fuel (pruneDelivered c0 (clock host (ticks w))) (tick w)).2
    ∧ match (drain host fuel fuel (pruneDelivered c0 (clock host (ticks w))) (tick w)).1 with
      | Returned d =>
          earned host n0 c0 d
            (drain host fuel fuel (pruneDelivered c0 (clock host (ticks w))) (tick w)).2
      | _ => True
      end).
  { apply Hinv.
    - intros d1 w1 out w1' (Hlen & Hd & Hstored) Hit.
      destruct (Iter_earned host fuel n0 c0 d1 w1 out w1' Hlen Hd Hstored Hit)
        as (Hlen' & Hstored' & Hout).
      by destruct out as [[[] d2]| |].
    - by intros d1 w1 (_ & _ & Hstored).
    - split; [done|]. split.
      + apply earned_prune. intros key v Hkey. by left.
      + intros key v Hkey. by left. }
  destruct (drain host fuel fuel _ (tick w)) as [[d1| |] w1]; simpl in *.
  - destruct Hend as [_ Hd]. apply earned_prune. by eapply earned_same.
  - by destruct Hend.
  - by destruct Hend.
Qed.

(** X12. When the alarm handler returns, the stored dedup cache holds
    nothing but timestamps, none of them more than 14 days older than the
    handler's last clock reading: entries that are not numbers and entries
    past their time are gone from storage. *)
Theorem returned_wake_stores_clean_cache (host : Host) (fuel : nat) (w w' : World)
    (key : string) (v : JsVal) :
  alarm host fuel w = (Returned tt, w') →
  storedDelivered w' !! key = Some v →
  ∃ t : Z, v = JNum t ∧ clock host (ticks w' - 1) - DELIVERED_TTL_MS ≤ t.
Proof.
  rewrite alarm_eq. cbv zeta.
  destruct (drain host fuel fuel _ (tick w)) as [[d1| |] w1]; [|done..].
  intros [= <-]. unfold storedDelivered. simpl. rewrite Nat.sub_0_r.
  rewrite pruneDelivered_lookup.
  destruct (d1 !! key) as [v'|]; [|done].
  destruct (stale (clock host (ticks w1)) v') eqn:Hstale; [done|]. intros [= <-].
  unfold stale in Hstale. destruct v' as [| | |t| |]; try done.
  exists t. split; [done|]. simpl in Hstale.
  destruct (Z.ltb_spec t (clock host (ticks w1) - DELIVERED_TTL_MS)); [done | lia].
Qed.

(** ** The keys of the dedup cache *)

Lemma pretty_N_go_no_colon (x : N) (s : string) :
  hasColon s = false → hasColon (pretty_N_go x s) = false.
Proof.
  revert s. induction (N.lt_wf_0 x) as [x _ IH]; intros s Hs.
  assert (x = 0 ∨ 0 < x)%N as [->|Hpos] by lia.
  - by rewrite pretty_N_go_0.
  - rewrite pretty_N_go_step by done. apply IH.
    { by apply N.div_lt. }
    simpl. rewrite Hs. unfold pretty_N_char. by repeat case_match.
Qed.

Lemma pretty_Z_no_colon (z : Z) : hasColon (pretty z) = false.
Proof.
  assert (HN : ∀ x : N, hasColon (pretty x) = false).
  { intros x. unfold pretty, pretty_N. case_decide; [done|].
    by apply pretty_N_go_no_colon. }
  destruct z as [|p|p]; [done | apply HN | apply (HN (N.pos p))].
Qed.

(** A string splits in one way only at its last colon. *)
Lemma split_at_last_colon (s1 s2 p1 p2 : string) :
  hasColon p1 = false → hasColon p2 = false →
  s1 +:+ ":" +:+ p1 = s2 +:+ ":" +:+ p2 → s1 = s2 ∧ p1 = p2.
Proof.
  intros H1 H2. revert s2.
  assert (Hin : ∀ s p q, q = ":" +:+ p → hasColon (s +:+ q) = true).
  { intros s p q ->. induction s as [|c s IH]; simpl; [done|]. rewrite IH. apply orb_true_r. }
  induction s1 as [|c s1 IH]; intros [|c' s2] Heq;
    unfold String.append in Heq; simpl in Heq; fold String.append in Heq.
  - by injection Heq as ->.
  - injection Heq as <- ->. by rewrite (Hin s2 p2 (String _ p2) eq_refl) in H1.
  - injection Heq as -> <-. by rewrite (Hin s1 p1 (String _ p1) eq_refl) in H2.
  - injection Heq as -> Heq. by destruct (IH s2 Heq) as [-> ->].
Qed.

(** X13. Two jobs have the same dedup key exactly when they have the same
    id and the same [scheduledUnix], whatever characters the ids hold: the
    cache never takes one occurrence for another. *)
Theorem deliveryKey_names_one_occurrence (a b : Job) :
  deliveryKey a = deliveryKey b ↔ id a = id b ∧ scheduledUnix a = scheduledUnix b.
Proof.
  unfold deliveryKey. split.
  - intros Heq. apply split_at_last_colon in Heq as [Hid Hunix];
      [|apply pretty_Z_no_colon..].
    split; [done|]. by apply (inj pretty).
  - by intros [-> ->].
Qed.

(** * The further properties at sample inputs *)

(** A job scheduled for the time of "a" lands between "a" and "b". *)
Lemma schedule_places_after_ties_witness :
  let host := steadyHost 500 200 in
  let a := sampleJob "a" "ping-role" 1000 false in
  let b := sampleJob "b" "ping-role" 2000 false in
  let body := sampleBody "ping-user" 1000 true in
  storedJobs (schedule host body (worldWith [a; b] None)).2
  = [a; jobOf "job-0" body; b].
Proof.
  intros host a b body.
  rewrite (schedule_places_after_ties host body (worldWith [a; b] None)).
  - vm_compute. reflexivity.
  - reflexivity.
  - repeat constructor; unfold earlier; simpl; lia.
Defined.

Lemma stored_jobs_stay_sorted_witness :
  let host := steadyHost 1500000 200 in
  StronglySorted earlier
    (storedJobs (run host [Serve (PostSchedule (sampleBody "ping-role" 2000 true));
                           Serve (PostSchedule (sampleBody "ping-user" 1000 true));
                           Wake 5; Serve GetList] freshWorld)).
Proof.
  intros host. apply (stored_jobs_stay_sorted host). simpl. constructor.
Defined.

Lemma steady_uuid_inj (now status : Z) (a b : nat) :
  uuid (steadyHost now status) a = uuid (steadyHost now status) b → a = b.
Proof.
  simpl. unfold String.append. intros [= H]. by apply (inj pretty) in H.
Qed.

Lemma job_ids_stay_unique_witness :
  let host := steadyHost 1500000 200 in
  NoDup (id <$> storedJobs
           (run host [Serve (PostSchedule (sampleBody "ping-role" 2000 true));
                      Serve (PostSchedule (sampleBody "ping-user" 1000 true));
                      Wake 5] freshWorld)).
Proof.
  intros host.
  refine (proj1 (job_ids_stay_unique host _ freshWorld _ _ _)).
  - apply steady_uuid_inj.
  - simpl. constructor.
  - intros j Hj. simpl in Hj. by apply elem_of_nil in Hj.
Defined.

Lemma stored_kinds_stay_registered_witness :
  let host := steadyHost 1500000 200 in
  Forall (λ j, inHandlers (doAtType j) = true)
    (storedJobs
       (run host [Serve (PostSchedule (sampleBody "no-such-kind" 1000 false));
                  Serve (PostSchedule (sampleBody "ping-role" 2000 true));
                  Wake 5] freshWorld)).
Proof.
  intros host. apply Forall_forall.
  apply (stored_kinds_stay_registered host).
  intros j Hj. simpl in Hj. by apply elem_of_nil in Hj.
Defined.

(** A wake at 2,000,000 ms over a daily job due at 1,000,000 ms and a one-off
    due at 5,000,000 ms. *)
Lemma alarm_only_moves_daily_jobs_ahead_witness :
  let host := steadyHost 2000000 200 in
  let a := sampleJob "a" "ping-role" 1000 true in
  let b := sampleJob "b" "ping-role" 5000 false in
  ∃ j0, j0 ∈ storedJobs (worldWith [a; b] None) ∧ movedFrom j0 (advance a 1).
Proof.
  intros host a b.
  apply (alarm_only_moves_daily_jobs_ahead host 2 (worldWith [a; b] None)).
  vm_compute. right. left.
Defined.

Lemma early_wake_changes_no_job_witness :
  let host := steadyHost 500 200 in
  let w := worldWith [sampleJob "a" "ping-role" 1000 false] None in
  ∃ w', alarm host 1 w = (Returned tt, w')
    ∧ outbox w' = []
    ∧ jobsStore w' = jobsStore w
    ∧ alarmAt w' = Some 1000000.
Proof.
  intros host w. apply (early_wake_changes_no_job host 0 w).
  intros j Hj. apply list_elem_of_singleton in Hj as ->. simpl. lia.
Defined.

Lemma wake_sends_due_one_off_witness :
  let host := steadyHost 2000000 200 in
  let a := sampleJob "a" "ping-role" 1000 false in
  let b := sampleJob "b" "ping-role" 5000 false in
  ∃ w', alarm host 2 (worldWith [b; a] None) = (Returned tt, w')
    ∧ outbox w' = [messageFor PingRole a]
    ∧ storedJobs w' = [b]
    ∧ alarmAt w' = Some 5000000.
Proof.
  intros host a b.
  apply (wake_sends_due_one_off host 0 (worldWith [b; a] None) a [b] PingRole).
  - reflexivity.
  - reflexivity.
  - reflexivity.
  - reflexivity.
  - simpl. lia.
  - reflexivity.
  - intros k Hk. apply list_elem_of_singleton in Hk as ->. simpl. lia.
Defined.

Lemma wake_sends_due_daily_witness :
  let host := steadyHost 2000000 200 in
  let a := sampleJob "a" "ping-role" 1000 true in
  let b := sampleJob "b" "ping-role" 5000 false in
  ∃ w', alarm host 2 (worldWith [b; a] None) = (Returned tt, w')
    ∧ outbox w' = [messageFor PingRole a]
    ∧ storedJobs w' = [b; advance a 1]
    ∧ alarmAt w' = Some 5000000.
Proof.
  intros host a b.
  apply (wake_sends_due_daily host 0 (worldWith [b; a] None) a [b] PingRole).
  - reflexivity.
  - reflexivity.
  - reflexivity.
  - reflexivity.
  - simpl. lia.
  - reflexivity.
  - simpl. lia.
  - simpl. lia.
  - intros k Hk. apply list_elem_of_singleton in Hk as ->. simpl. lia.
Defined.

Lemma wake_posts_only_for_due_jobs_witness :
  let host := steadyHost 2000000 200 in
  let a := sampleJob "a" "ping-role" 1000 true in
  let w := worldWith [a] None in
  ∃ (job : Job) (h : Handler) (n : nat),
    messageFor PingRole a = messageFor h job
    ∧ doAtTypeHandlers (doAtType job) = Own h
    ∧ (ticks w < n < ticks (alarm host 2 w).2)%nat
    ∧ runAtMs job ≤ clock host n
    ∧ ∃ j0, j0 ∈ storedJobs w ∧ movedFrom j0 job.
Proof.
  intros host a w.
  apply (wake_posts_only_for_due_jobs host 2 w 0 (messageFor PingRole a)).
  - simpl. lia.
  - vm_compute. reflexivity.
Defined.

Lemma returned_wake_stores_clean_cache_witness :
  let host := steadyHost 2000000 200 in
  let w := worldWith [sampleJob "a" "ping-role" 1000 false] None in
  ∃ t : Z, JNum 2000000 = JNum t
           ∧ clock host (ticks (alarm host 2 w).2 - 1) - DELIVERED_TTL_MS ≤ t.
Proof.
  intros host w.
  apply (returned_wake_stores_clean_cache host 2 w (alarm host 2 w).2 "a:1000").
  - vm_compute. reflexivity.
  - vm_compute. reflexivity.
Defined.

(** Two jobs due before the wake, stored out of order. *)
Lemma wake_posts_in_due_order_witness :
  let host := steadyHost 9000000 200 in
  let a := sampleJob "a" "ping-role" 1000 false in
  let b := sampleJob "b" "ping-user" 5000 false in
  inDueOrder 0 (alarm host 3 (worldWith [b; a] None)).2
  ∧ occurrence <$> outbox (alarm host 3 (worldWith [b; a] None)).2
    = [("a", 1000); ("b", 5000)].
Proof.
  intros host a b. split.
  - apply (wake_posts_in_due_order host 3 (worldWith [b; a] None)).
    intros j Hj. simpl in Hj.
    apply elem_of_cons in Hj as [->|Hj]; [done|].
    by apply list_elem_of_singleton in Hj as ->.
  - vm_compute. reflexivity.
Defined.

(** A wake whose POST is answered with status 500. *)
Lemma wake_throws_only_api_errors_witness :
  let host := steadyHost 9000000 500 in
  let w := worldWith [sampleJob "a" "ping-role" 1000 false] None in
  ∃ i : nat,
    (length (outbox w) ≤ i)%nat
    ∧ length (outbox (alarm host 3 w).2) = S i
    ∧ ok (discord host i) = false
    ∧ apiError (discord host 0) = apiError (discord host i).
Proof.
  intros host w.
  apply (wake_throws_only_api_errors host 3 w (apiError (discord host 0))).
  - intros j Hj. simpl in Hj. by apply list_elem_of_singleton in Hj as ->.
  - vm_compute. reflexivity.
Defined.

(** * A wake, job by job *)

(** ** What the passes keep *)

Lemma movedFrom_unix (j0 j : Job) :
  movedFrom j0 j → scheduledUnix j0 ≤ scheduledUnix j.
Proof. intros (k & -> & _). simpl. lia. Qed.

Lemma keyOf_inj (o o' : string * Z) : keyOf o = keyOf o' → o = o'.
Proof.
  destruct o as [s z], o' as [s' z']. unfold keyOf. cbn [fst snd]. intros Heq.
  apply split_at_last_colon in Heq as [-> Hz]; [|apply pretty_Z_no_colon..].
  by apply (inj pretty) in Hz as ->.
Qed.

Lemma deliveryKey_keyOf (job : Job) :
  deliveryKey job = keyOf (id job, scheduledUnix job).
Proof. done. Qed.

Lemma same_id_same_job (l : list Job) (j j' : Job) :
  NoDup (id <$> l) → j ∈ l → j' ∈ l → id j = id j' → j = j'.
Proof.
  intros Hnd Hj Hj' Hid.
  apply list_elem_of_lookup in Hj as [i Hi]. apply list_elem_of_lookup in Hj' as [i' Hi'].
  assert (i = i') as -> by (eapply unique_id; eauto). congruence.
Qed.

Lemma head_stored (w : World) (job : Job) (rest : list Job) :
  sortJobs (storedJobs w) = job :: rest → job ∈ storedJobs w.
Proof. intros Hs. apply sortJobs_elem_of. rewrite Hs. left. Qed.

Lemma rest_stored (w : World) (job : Job) (rest : list Job) (j : Job) :
  sortJobs (storedJobs w) = job :: rest →
  NoDup (id <$> storedJobs w) →
  j ∈ storedJobs w → (j ∈ rest ↔ id j ≠ id job).
Proof.
  intros Hs Hnd Hj.
  assert (Hnd' : NoDup (id <$> job :: rest)) by (rewrite <- Hs; by apply NoDup_ids_sortJobs).
  rewrite fmap_cons in Hnd'. apply NoDup_cons in Hnd' as [Hfresh _].
  apply sortJobs_elem_of in Hj. rewrite Hs in Hj.
  split.
  - intros Hin Heq. apply Hfresh. rewrite <- Heq. apply list_elem_of_fmap. by exists j.
  - intros Hne. apply elem_of_cons in Hj as [->|Hj]; done.
Qed.

(** The cache in memory holds nothing but what it began with and the marks
    of the sends that succeeded. *)
Lemma Iter_earned_memory (host : Host) (inner n0 : nat) (c0 d : gmap string JsVal)
    (w : World) (out : Outcome (Flow * gmap string JsVal)) (w' : World) :
  (n0 ≤ length (outbox w))%nat →
  earned host n0 c0 d w →
  Iter host inner d w out w' →
  match out with
  | Returned (_, d') => earned host n0 c0 d' w'
  | _ => True
  end.
Proof.
  intros Hn0 Hd Hit.
  inversion Hit; subst; try done.
  - match goal with H : Settled _ _ _ _ _ _ _ |- _ =>
      pose proof (Settled_frame _ _ _ _ _ _ _ H) as (Ho & _ & _ & _ & _ & Hres) end.
    simpl in Ho.
    assert (Hd' : earned host n0 c0 d' w').
    { subst d'. apply earned_prune. intros key v Hkey.
      destruct (decide (key = deliveryKey job)) as [->|Hne].
      - rewrite lookup_insert_eq in Hkey. injection Hkey as <-. right.
        exists (length (outbox w)), (messageFor h job), now.
        rewrite Ho. split; [done|]. split; [|done].
        by rewrite lookup_app_r, Nat.sub_diag by lia.
      - rewrite lookup_insert_ne in Hkey by done.
        eapply (earned_more _ _ _ _ w _ [messageFor h job]); [done | exact Hd | done]. }
    by destruct Hres as [-> | ->].
  - match goal with H : Settled _ _ _ _ _ _ _ |- _ =>
      pose proof (Settled_frame _ _ _ _ _ _ _ H) as (Ho & _ & _ & _ & _ & Hres) end.
    simpl in Ho. destruct Hres as [-> | ->]; [|done]. by eapply earned_same.
Qed.

(** A key the cache in memory holds was in the cache the invocation began
    with, or is the key of an occurrence that was posted. *)
Lemma earned_delivered (host : Host) (n0 : nat) (c0 d : gmap string JsVal) (w : World)
    (j : Job) :
  earned host n0 c0 d w →
  alreadyDelivered d (deliveryKey j) = true →
  noSendFor n0 (id j, scheduledUnix j) w →
  alreadyDelivered c0 (deliveryKey j) = true.
Proof.
  intros Hd Hdel Hno. unfold alreadyDelivered in *.
  destruct (d !! deliveryKey j) as [v|] eqn:Hkey; [|done].
  destruct (Hd _ _ Hkey) as [->|(i & msg & t & Hi & Hmsg & _ & Heq & _)]; [done|].
  exfalso. apply (Hno i msg Hi Hmsg).
  rewrite deliveryKey_keyOf in Heq. by apply keyOf_inj in Heq.
Qed.

(** ** One pass and one job *)

(** [settle] of the earliest job, whose id no other stored job has: its
    occurrence is gone; a daily job is stored again, a day later or more;
    of a one-off job the id is gone. Every other job stays. *)
Lemma settled_own (host : Host) (fuel : nat) (job : Job) (rest : list Job)
    (w0 w' : World) :
  NoDup (id <$> job :: rest) →
  Settled host fuel job rest w0 (Returned tt) w' →
  occurrenceOver job w'
  ∧ (repeatDaily job = true → ∃ m : nat, (1 ≤ m)%nat ∧ advance job m ∈ storedJobs w')
  ∧ (repeatDaily job = false → absent (id job) w').
Proof.
  intros Hnd Hset. rewrite fmap_cons in Hnd. apply NoDup_cons in Hnd as [Hfresh _].
  assert (Hrest : ∀ j, j ∈ rest → id j ≠ id job).
  { intros j Hj Heq. apply Hfresh. rewrite <- Heq. apply list_elem_of_fmap. by exists j. }
  inversion Hset as [Hno|k Hyes Hk Hbefore Hafter|]; subst.
  - assert (Habs : absent (id job) (setJobs (sortJobs rest) w0)).
    { intros j Hj. change (j ∈ sortJobs rest) in Hj. apply sortJobs_elem_of_1 in Hj.
      by apply Hrest. }
    split; [|split]; [|congruence|done].
    intros j Hj Hid. by destruct (Habs j Hj).
  - split; [|split]; [| |congruence].
    + intros j Hj Hid.
      change (j ∈ sortJobs (rest ++ [advance job (S k)])) in Hj.
      apply sortJobs_elem_of_1, elem_of_app in Hj as [Hj|Hj]; [by destruct (Hrest j Hj)|].
      apply list_elem_of_singleton in Hj. subst j. simpl. lia.
    + intros _. exists (S k). split; [lia|].
      change (advance job (S k) ∈ sortJobs (rest ++ [advance job (S k)])).
      apply sortJobs_elem_of, elem_of_app. right. by apply list_elem_of_singleton.
Qed.

Lemma settled_other (host : Host) (fuel : nat) (job : Job) (rest : list Job)
    (w0 w' : World) (j : Job) :
  j ∈ rest →
  Settled host fuel job rest w0 (Returned tt) w' →
  j ∈ storedJobs w'.
Proof.
  intros Hj Hset. inversion Hset; subst.
  - change (j ∈ sortJobs rest). by apply sortJobs_elem_of.
  - change (j ∈ sortJobs (rest ++ [advance job (S k)])).
    apply sortJobs_elem_of, elem_of_app. by left.
Qed.

Lemma absent_Rewritten (jobId : string) (l l' : list Job) :
  Rewritten l l' →
  (∀ j, j ∈ l → id j ≠ jobId) → ∀ j, j ∈ l' → id j ≠ jobId.
Proof.
  intros Hrew Hl j Hj. destruct (Rewritten_elem l l' j Hrew Hj) as (j0 & Hj0 & Hmv).
  rewrite (movedFrom_id j0 j Hmv). by apply Hl.
Qed.

Lemma occurrenceOver_Rewritten (job : Job) (l l' : list Job) :
  Rewritten l l' →
  (∀ j, j ∈ l → id j = id job → scheduledUnix job < scheduledUnix j) →
  ∀ j, j ∈ l' → id j = id job → scheduledUnix job < scheduledUnix j.
Proof.
  intros Hrew Hl j Hj Hid. destruct (Rewritten_elem l l' j Hrew Hj) as (j0 & Hj0 & Hmv).
  pose proof (movedFrom_unix j0 j Hmv). rewrite (movedFrom_id j0 j Hmv) in Hid.
  specialize (Hl j0 Hj0 Hid). lia.
Qed.

Lemma posted_more (n0 : nat) (m : Sent) (w w' : World) (sent : list Sent) :
  outbox w' = (outbox w ++ sent)%list → posted n0 m w → posted n0 m w'.
Proof.
  intros Hout (i & Hi & Hm). exists i. split; [done|]. rewrite Hout.
  by apply lookup_app_l_Some.
Qed.

(** Once the loop is done with an occurrence, later passes leave it so. *)
Lemma Iter_processed (host : Host) (inner n0 : nat) (c0 d : gmap string JsVal)
    (j : Job) (w : World) (r : Flow * gmap string JsVal) (w' : World) :
  NoDup (id <$> storedJobs w) →
  processed n0 c0 j w →
  Iter host inner d w (Returned r) w' →
  processed n0 c0 j w'.
Proof.
  intros Hnd (Hover & Hown & Hmiss & Hdaily & Hoff) Hit.
  destruct (Iter_Rewritten host inner d w _ w' Hit) as [Hrew _].
  destruct (Iter_outbox host inner d w _ w' Hit) as [_ Hout].
  split; [|split; [|split; [|split]]].
  - intros j' Hj'. by apply (occurrenceOver_Rewritten j _ _ Hrew).
  - intros h Hkind Hdel. specialize (Hown h Hkind Hdel).
    destruct Hout as [Hout|(job & h' & _ & _ & _ & Hout)].
    + apply (posted_more n0 _ w w' []); [by rewrite app_nil_r | done].
    + by apply (posted_more n0 _ w w' [messageFor h' job]).
  - intros Hkind Hdel. destruct (Hmiss Hkind Hdel) as [Hno Habs]. split.
    + destruct Hout as [Hout|(job & h' & Hjob & _ & _ & Hout)].
      * by apply (noSendFor_same_outbox n0 _ w).
      * apply (noSendFor_snoc n0 _ w w' (messageFor h' job)); [done| |done].
        simpl. intros [= Hid _]. by apply (Habs job).
    + intros j' Hj'. by apply (absent_Rewritten (id j) _ _ Hrew).
  - intros Hrep Hkind. destruct (Hdaily Hrep Hkind) as (m & Hm & Hin).
    destruct (Iter_keeps_daily host inner (advance j 1) d w (Returned r) w')
      as [m' Hin']; [done | done | done | | done | done |].
    + exists (m - 1)%nat. rewrite advance_advance.
      by replace (1 + (m - 1))%nat with m by lia.
    + rewrite advance_advance in Hin'. exists (1 + m')%nat. split; [lia | done].
  - intros Hrep j' Hj'. by apply (absent_Rewritten (id j) _ _ Hrew (Hoff Hrep)).
Qed.

Lemma absent_processed (n0 : nat) (c0 : gmap string JsVal) (j : Job) (w : World) :
  absent (id j) w →
  (∀ h, doAtTypeHandlers (doAtType j) = Own h →
        alreadyDelivered c0 (deliveryKey j) = false →
        posted n0 (messageFor h j) w) →
  (doAtTypeHandlers (doAtType j) = Missing →
   alreadyDelivered c0 (deliveryKey j) = false →
   noSendFor n0 (id j, scheduledUnix j) w) →
  (repeatDaily j = true → doAtTypeHandlers (doAtType j) ≠ Missing → False) →
  processed n0 c0 j w.
Proof.
  intros Habs Hown Hmiss Hdaily. split; [|split; [|split; [|split]]].
  - intros j' Hj' Hid. by destruct (Habs j' Hj').
  - done.
  - intros Hkind Hdel. split; [by apply Hmiss | done].
  - intros Hrep Hkind. by destruct (Hdaily Hrep Hkind).
  - done.
Qed.

(** The pass of a job that waits: the loop is then done with it; the pass
    of another job leaves it waiting. *)
Lemma Iter_pending (host : Host) (inner n0 : nat) (c0 d : gmap string JsVal)
    (j : Job) (w : World) (r : Flow * gmap string JsVal) (w' : World) :
  (n0 ≤ length (outbox w))%nat →
  NoDup (id <$> storedJobs w) →
  earned host n0 c0 d w →
  pending n0 j w →
  Iter host inner d w (Returned r) w' →
  pending n0 j w' ∨ processed n0 c0 j w'.
Proof.
  intros Hn0 Hnd Hd [Hj Hno] Hit.
  assert (Hsame : ∀ job rest, sortJobs (storedJobs w) = job :: rest →
            id job = id j → job = j).
  { intros job rest Hs Hid.
    by apply (same_id_same_job (storedJobs w) job j Hnd (head_stored w job rest Hs)). }
  assert (Hnd' : ∀ job rest, sortJobs (storedJobs w) = job :: rest →
            NoDup (id <$> job :: rest)).
  { intros job rest Hs. rewrite <- Hs. by apply NoDup_ids_sortJobs. }
  inversion Hit as [Hs|job rest Hs Hlt|job rest idx Hs Hdue Hdel Hkind Hidx
                   |job rest Hs Hdue Hdel Hkind|job rest h Hs Hdue Hdel Hkind Hok
                   |job rest h out w2 Hs Hdue Hdel Hkind Hok now d' Hset Hout
                   |job rest out w2 Hs Hdue Hdel Hset Hout]; subst.
  - left. split; [done|]. by apply (noSendFor_same_outbox n0 _ w).
  - left. split; [done|]. by apply (noSendFor_same_outbox n0 _ w).
  - destruct (findIndex_Some _ _ _ Hidx) as (found & Hfound & Hocc).
    apply sameOccurrence_spec in Hocc as [Hfid _].
    destruct (decide (id job = id j)) as [Hid|Hid].
    + right. assert (job = j) as -> by (by eapply Hsame).
      assert (Habs : absent (id j)
                       (setJobs (sortJobs (splice1 idx (storedJobs w))) (tick w))).
      { intros j' Hj' Heq.
        change (j' ∈ sortJobs (splice1 idx (storedJobs w))) in Hj'.
        apply sortJobs_elem_of_1 in Hj'. unfold splice1 in Hj'.
        pose proof Hnd as Hnd2.
        rewrite (delete_Permutation (storedJobs w) idx found Hfound) in Hnd2.
        rewrite fmap_cons in Hnd2. apply NoDup_cons in Hnd2 as [Hfresh _].
        apply Hfresh. rewrite Hfid, <- Heq. apply list_elem_of_fmap. by exists j'. }
      apply absent_processed; [done | congruence | | congruence].
      intros _ _. by apply (noSendFor_same_outbox n0 _ w).
    + left. split; [|by apply (noSendFor_same_outbox n0 _ w)].
      change (j ∈ sortJobs (splice1 idx (storedJobs w))). apply sortJobs_elem_of.
      eapply elem_of_delete_other; [exact Hfound | done |]. intros ->. congruence.
  - apply Settled_frame in Hset as Hframe.
    destruct Hframe as (Ho & _ & _ & _ & _ & Hres). simpl in Ho.
    assert (out = Returned tt) as -> by (destruct Hres as [-> | ->]; done).
    destruct (decide (id job = id j)) as [Hid|Hid].
    + right. assert (job = j) as -> by (by eapply Hsame).
      destruct (settled_own host inner j rest _ w' (Hnd' j rest Hs) Hset)
        as (Hover & Hdaily & Hoff).
      split; [done|]. split; [|split; [|split]].
      * intros h' Hkind' _. assert (h' = h) as -> by congruence.
        exists (length (outbox w)). split; [done|]. rewrite Ho.
        by rewrite lookup_app_r, Nat.sub_diag by lia.
      * congruence.
      * intros Hrep _. by apply Hdaily.
      * done.
    + left. split.
      * eapply settled_other; [|exact Hset]. by apply (rest_stored w job rest j).
      * apply (noSendFor_snoc n0 _ w w' (messageFor h job)); [done| |done].
        simpl. by intros [= ? _].
  - apply Settled_frame in Hset as Hframe.
    destruct Hframe as (Ho & _ & _ & _ & _ & Hres). simpl in Ho.
    assert (out = Returned tt) as -> by (destruct Hres as [-> | ->]; done).
    destruct (decide (id job = id j)) as [Hid|Hid].
    + right. assert (job = j) as -> by (by eapply Hsame).
      pose proof (earned_delivered host n0 c0 d w j Hd Hdel Hno) as Hc0.
      destruct (settled_own host inner j rest _ w' (Hnd' j rest Hs) Hset)
        as (Hover & Hdaily & Hoff).
      split; [done|]. split; [|split; [|split]].
      * intros h _ Hdel0. congruence.
      * intros _ Hdel0. congruence.
      * intros Hrep _. by apply Hdaily.
      * done.
    + left. split.
      * eapply settled_other; [|exact Hset]. by apply (rest_stored w job rest j).
      * by apply (noSendFor_same_outbox n0 _ w).
Qed.

(** ** A whole wake *)

(** What every pass of the drain loop keeps, for the jobs [J] the wake
    found due, while the clock stays at or below [B]. *)
Lemma Iter_wake (host : Host) (B : Z) (inner : nat) (out0 : list Sent) (M : nat)
    (c0 : gmap string JsVal) (J : Job → Prop) (d : gmap string JsVal) (w : World)
    (r : Flow * gmap string JsVal) (w' : World) :
  (∀ n, clock host n ≤ B) →
  (M < inner)%nat →
  NoDup (id <$> storedJobs w) ∧ noInherited w
  ∧ (measure B (storedJobs w) ≤ M)%nat
  ∧ (∃ sent, outbox w = (out0 ++ sent)%list)
  ∧ earned host (length out0) c0 d w
  ∧ (∀ j, J j → pending (length out0) j w ∨ processed (length out0) c0 j w) →
  Iter host inner d w (Returned r) w' →
  NoDup (id <$> storedJobs w') ∧ noInherited w'
  ∧ (measure B (storedJobs w') ≤ M)%nat
  ∧ (∃ sent, outbox w' = (out0 ++ sent)%list)
  ∧ earned host (length out0) c0 r.2 w'
  ∧ (∀ j, J j → pending (length out0) j w' ∨ processed (length out0) c0 j w').
Proof.
  intros Hb HM (Hnd & Hkinds & Hmeasure & [sent Hsent] & Hd & HJ) Hit.
  assert (Hn0 : (length out0 ≤ length (outbox w))%nat).
  { rewrite Hsent, length_app. lia. }
  destruct (Iter_Rewritten host inner d w _ w' Hit) as [Hrew _].
  destruct (Iter_outbox host inner d w _ w' Hit) as [_ Hout].
  split; [by apply (Rewritten_NoDup _ _ Hrew)|]. split.
  { intros j Hj. destruct (Rewritten_elem _ _ j Hrew Hj) as (j0 & Hj0 & Hmv).
    rewrite (movedFrom_kind j0 j Hmv). by apply Hkinds. }
  split.
  { destruct (Iter_progress host B inner d w _ w' Hb ltac:(lia) Hit)
      as [(d' & _ & Hjobs & _)|[(d' & _ & Hless & _)|(e & [=] & _)]].
    - by rewrite Hjobs.
    - lia. }
  split.
  { destruct Hout as [Hout|(job & h & _ & _ & _ & Hout)]; rewrite Hout, Hsent.
    - by exists sent.
    - exists (sent ++ [messageFor h job])%list. by rewrite app_assoc. }
  split.
  { pose proof (Iter_earned_memory host inner (length out0) c0 d w _ w' Hn0 Hd Hit) as H.
    by destruct r. }
  intros j Hj. destruct (HJ j Hj) as [Hpend|Hdone].
  - by apply (Iter_pending host inner (length out0) c0 d j w r w').
  - right. by apply (Iter_processed host inner (length out0) c0 d j w r w').
Qed.

(** A wake in which every POST succeeds, over a Job Set with unique ids and
    no kind that names a member of [Object.prototype], with a clock that
    does not run backwards and stays at or below [B], and with fuel beyond
    the measure of the Job Set: the handler returns; no stored job is then
    due at the last reading of its loop; and the loop is done with every
    job that was due at its first reading. *)
Lemma alarm_processes (host : Host) (B : Z) (fuel : nat) (w : World) :
  (∀ m n : nat, (m ≤ n)%nat → clock host m ≤ clock host n) →
  (∀ n : nat, clock host n ≤ B) →
  (∀ n : nat, ok (discord host n) = true) →
  noInherited w →
  NoDup (id <$> storedJobs w) →
  (measure B (storedJobs w) < fuel)%nat →
  ∃ w', alarm host fuel w = (Returned tt, w')
    ∧ (ticks w + 3 ≤ ticks w')%nat
    ∧ (∀ j, j ∈ storedJobs w' → clock host (ticks w' - 2) < runAtMs j)
    ∧ NoDup (id <$> storedJobs w') ∧ noInherited w'
    ∧ (measure B (storedJobs w') ≤ measure B (storedJobs w))%nat
    ∧ (∃ sent, outbox w' = (outbox w ++ sent)%list)
    ∧ ∀ j, j ∈ storedJobs w → runAtMs j ≤ clock host (S (ticks w)) →
           processed (length (outbox w))
             (pruneDelivered (storedDelivered w) (clock host (ticks w))) j w'.
Proof.
  intros Hmono Hb Hok Hkinds Hnd Hfuel. rewrite alarm_eq. cbv zeta.
  set (c0 := pruneDelivered (storedDelivered w) (clock host (ticks w))).
  set (J := λ j : Job, j ∈ storedJobs w ∧ runAtMs j ≤ clock host (S (ticks w))).
  pose proof (drain_inv host fuel
    (λ d w1, NoDup (id <$> storedJobs w1) ∧ noInherited w1
             ∧ (measure B (storedJobs w1) ≤ measure B (storedJobs w))%nat
             ∧ (∃ sent, outbox w1 = (outbox w ++ sent)%list)
             ∧ earned host (length (outbox w)) c0 d w1
             ∧ (∀ j, J j → pending (length (outbox w)) j w1
                           ∨ processed (length (outbox w)) c0 j w1))
    (λ out w1,
       match out with
       | Returned _ =>
           NoDup (id <$> storedJobs w1) ∧ noInherited w1
           ∧ (measure B (storedJobs w1) ≤ measure B (storedJobs w))%nat
           ∧ (∃ sent, outbox w1 = (outbox w ++ sent)%list)
           ∧ (∀ j, J j → pending (length (outbox w)) j w1
                         ∨ processed (length (outbox w)) c0 j w1)
       | _ => True
       end)) as Hinv.
  specialize (Hinv
    ltac:(intros d1 w1 out w1' HI Hit;
          destruct out as [[[] d2]| |]; [| |done..];
          destruct (Iter_wake host B fuel (outbox w) (measure B (storedJobs w))
                      c0 J d1 w1 _ w1' Hb Hfuel HI Hit)
            as (H1 & H2 & H3 & H4 & H5 & H6); done)
    ltac:(done) fuel c0 (tick w)).
  destruct (drain_total host B fuel Hb fuel c0 (tick w) Hfuel Hfuel)
    as [(d1 & w1 & Heq & Hticks & Hnone)|(e & w1 & Heq & Hwhy)].
  2:{ exfalso. destruct Hwhy as [(job & Hjob & Hkind)|[n Hbad]].
      - by apply (Hkinds job).
      - by rewrite Hok in Hbad. }
  rewrite Heq in Hinv. cbn [fst snd] in Hinv. rewrite Heq.
  destruct Hinv as (Hnd1 & Hkinds1 & Hmeasure1 & Hsent1 & HJ1).
  { split; [done|]. split; [done|]. split; [done|].
    split; [exists []; by rewrite app_nil_r|]. split; [by left|].
    intros j [Hj _]. left. split; [done|].
    intros i msg Hi Hmsg. apply lookup_lt_Some in Hmsg. simpl in Hmsg. lia. }
  eexists. split; [reflexivity|]. simpl in Hticks.
  split; [simpl; lia|]. split.
  { intros j Hj. simpl. replace (S (ticks w1) - 2)%nat with (ticks w1 - 1)%nat by lia.
    by apply Hnone. }
  split; [done|]. split; [done|]. split; [done|]. split; [done|].
  intros j Hj Hdue. destruct (HJ1 j (conj Hj Hdue)) as [[Hin _]|Hdone]; [|done].
  exfalso. specialize (Hnone j Hin).
  pose proof (Hmono (S (ticks w)) (ticks w1 - 1)%nat ltac:(lia)). lia.
Qed.

Lemma alarm_absent (host : Host) (fuel : nat) (jobId : string) (w : World) :
  absent jobId w → absent jobId (alarm host fuel w).2.
Proof.
  intros Habs.
  destruct (alarm_jobs_inv (λ l, ∀ j, j ∈ l → id j ≠ jobId) host fuel w) as [H _];
    [|done|done].
  intros l l' Hl Hrew. by apply (absent_Rewritten jobId l l').
Qed.

Lemma alarm_occurrenceOver (host : Host) (fuel : nat) (job : Job) (w : World) :
  occurrenceOver job w → occurrenceOver job (alarm host fuel w).2.
Proof.
  intros Hover.
  destruct (alarm_jobs_inv
              (λ l, ∀ j, j ∈ l → id j = id job → scheduledUnix job < scheduledUnix j)
              host fuel w) as [H _]; [|done|done].
  intros l l' Hl Hrew. by apply (occurrenceOver_Rewritten job l l').
Qed.

(** With every POST answered with success, at most one POST is for an
    occurrence. *)
Lemma sentOnce_unique (host : Host) (n0 : nat) (w : World) (i i' : nat)
    (msg msg' : Sent) :
  (∀ n : nat, ok (discord host n) = true) →
  sentOnce host n0 w →
  (n0 ≤ i)%nat → (n0 ≤ i')%nat →
  outbox w !! i = Some msg → outbox w !! i' = Some msg' →
  occurrence msg' = occurrence msg → i' = i.
Proof.
  intros Hok Honce Hi Hi' Hmsg Hmsg' Heq.
  destruct (Nat.lt_trichotomy i i') as [Hlt|[->|Hlt]]; [|done|].
  - by destruct (Honce i i' msg msg' Hi Hlt Hmsg Hmsg' (Hok i)).
  - by destruct (Honce i' i msg' msg Hi' Hlt Hmsg' Hmsg (Hok i')).
Qed.

Lemma no_post_yet (w : World) (i : nat) (msg : Sent) :
  (length (outbox w) ≤ i)%nat → outbox w !! i = Some msg → False.
Proof. intros Hi Hmsg. apply lookup_lt_Some in Hmsg. lia. Qed.

(** ** The drain loop runs to its end *)

(** C6. With a clock that never runs backwards and stays below some bound,
    the alarm handler ends for every Job Set, given fuel beyond a bound that
    depends on the Job Set only. If moreover every POST is answered with
    success and no stored kind names a member of [Object.prototype], it
    returns; no stored job is then due at any clock reading its drain loop
    took; every job that was due when the loop began is gone from the Job
    Set; and, the stored ids being unique, the loop is done with each such
    job: its occurrence is gone, its message was posted if its kind has a
    handler and its key was not in the cache, a daily job is stored for a
    later day, and of a one-off job the id is gone. Each pass that goes on
    to another lowers the measure of the Job Set: it removes a job or moves
    it a day or more ahead. *)
Theorem drain_completes (host : Host) (B : Z) (w : World) :
  (∀ m n : nat, (m ≤ n)%nat → clock host m ≤ clock host n) →
  (∀ n : nat, clock host n ≤ B) →
  ∃ fuel0 : nat, ∀ fuel : nat, (fuel0 ≤ fuel)%nat →
    (alarm host fuel w).1 ≠ OutOfFuel
    ∧ ((∀ n : nat, ok (discord host n) = true) →
       noInherited w →
       ∃ w', alarm host fuel w = (Returned tt, w')
             ∧ (∀ j n, j ∈ storedJobs w' → (n + 2 ≤ ticks w')%nat →
                       clock host n < runAtMs j)
             ∧ (∀ j, j ∈ storedJobs w → runAtMs j ≤ clock host (S (ticks w)) →
                     j ∉ storedJobs w')
             ∧ (NoDup (id <$> storedJobs w) →
                ∀ j, j ∈ storedJobs w → runAtMs j ≤ clock host (S (ticks w)) →
                     processed (length (outbox w))
                       (pruneDelivered (storedDelivered w) (clock host (ticks w)))
                       j w'))
    ∧ (∀ (d d' : gmap string JsVal) (w0 : World),
         (measure B (storedJobs w0) < fuel)%nat →
         (iteration host fuel d w0).1 = Returned (Continue, d') →
         (measure B (storedJobs (iteration host fuel d w0).2)
          < measure B (storedJobs w0))%nat).
Proof.
  intros Hmono Hb. exists (S (measure B (storedJobs w))).
  intros fuel Hfuel. split; [|split].
  - rewrite alarm_eq. cbv zeta.
    destruct (drain_total host B fuel Hb fuel
                (pruneDelivered (storedDelivered w) (clock host (ticks w))) (tick w)
                ltac:(change (storedJobs (tick w)) with (storedJobs w); lia)
                ltac:(change (storedJobs (tick w)) with (storedJobs w); lia))
      as [(d1 & w1 & -> & _)|(e & w1 & -> & _)]; done.
  - intros Hok Hkinds.
    assert (Hreturns : ∃ w', alarm host fuel w = (Returned tt, w')
              ∧ ∀ j n, j ∈ storedJobs w' → (n + 2 ≤ ticks w')%nat →
                       clock host n < runAtMs j).
    { rewrite alarm_eq. cbv zeta.
      destruct (drain_total host B fuel Hb fuel
                  (pruneDelivered (storedDelivered w) (clock host (ticks w))) (tick w)
                  ltac:(change (storedJobs (tick w)) with (storedJobs w); lia)
                  ltac:(change (storedJobs (tick w)) with (storedJobs w); lia))
        as [(d1 & w1 & -> & Hticks & Hnone)|(e & w1 & -> & Hwhy)].
      - eexists. split; [reflexivity|]. simpl in Hticks.
        intros j n Hj Hn. simpl in Hn. specialize (Hnone j Hj).
        pose proof (Hmono n (ticks w1 - 1)%nat ltac:(lia)). lia.
      - exfalso. destruct Hwhy as [(job & Hjob & Hkind)|[n Hbad]].
        + by apply (Hkinds job).
        + by rewrite Hok in Hbad. }
    destruct Hreturns as (w' & Heq & Hnone). exists w'.
    split; [done|]. split; [done|]. split.
    + intros j Hj Hdue Hj'.
      assert (Hticks : (ticks w + 3 ≤ ticks w')%nat).
      { revert Heq. rewrite alarm_eq. cbv zeta.
        pose proof (drain_returned_nothing_due host fuel fuel
                      (pruneDelivered (storedDelivered w) (clock host (ticks w)))
                      (tick w)) as Hdrain.
        destruct (drain host fuel fuel _ (tick w)) as [[d1| |] w1]; [|done..].
        destruct (Hdrain d1 w1 eq_refl) as [Ht _]. intros [= <-]. simpl in *. lia. }
      specialize (Hnone j (S (ticks w)) Hj' ltac:(lia)). lia.
    + intros Hnd j Hj Hdue.
      destruct (alarm_processes host B fuel w Hmono Hb Hok Hkinds Hnd ltac:(lia))
        as (w2 & Heq2 & _ & _ & _ & _ & _ & _ & Hdone).
      assert (w2 = w') as -> by congruence. by apply Hdone.
  - intros d d' w0 Hinner Hcont.
    pose proof (Iter_progress host B fuel d w0 _ _ Hb Hinner
                  (iteration_Iter host fuel d w0)) as Hstep.
    rewrite Hcont in Hstep.
    destruct Hstep as [(d1 & [=] & _)|[(d1 & _ & Hless & _)|(e & [=] & _)]]. done.
Qed.

(** ** A job of a kind without a handler *)


(** ** Two wakes in a row *)

(** C1. Two invocations in a row over a due job whose kind has a handler
    and whose key is not in the dedup cache, when every POST succeeds, the
    stored ids are unique and no stored kind names a member of
    [Object.prototype]. Both invocations return. The first posts the
    message of the job, and that POST is the only one of the two
    invocations for the occurrence; with clock readings that stay within 14
    days of each other, the stored cache holds the key after the first.
    After the first invocation and after the second, the occurrence is
    gone from the Job Set; the id of a one-off job is gone; a daily job is
    stored, once, for one day later or more. The same holds of an
    invocation that finds the occurrence posted and its key stored while
    the job is still in the Job Set, as after a first invocation that
    stopped between the mark and the removal: it returns, makes no POST for
    the occurrence, and removes or reschedules it. *)
Theorem retried_wake_sends_once (host : Host) (B : Z) (job : Job) (h : Handler) :
  (∀ m n : nat, (m ≤ n)%nat → clock host m ≤ clock host n) →
  (∀ n : nat, clock host n ≤ B) →
  (∀ n : nat, ok (discord host n) = true) →
  doAtTypeHandlers (doAtType job) = Own h →
  (∀ (fuel1 fuel2 : nat) (w : World),
     noInherited w →
     NoDup (id <$> storedJobs w) →
     (measure B (storedJobs w) < fuel1)%nat →
     (measure B (storedJobs w) < fuel2)%nat →
     job ∈ storedJobs w →
     runAtMs job ≤ clock host (S (ticks w)) →
     alreadyDelivered (pruneDelivered (storedDelivered w) (clock host (ticks w)))
       (deliveryKey job) = false →
     let r1 := alarm host fuel1 w in
     let r2 := alarm host fuel2 r1.2 in
     r1.1 = Returned tt ∧ r2.1 = Returned tt
     ∧ (∃ i : nat,
          (length (outbox w) ≤ i < length (outbox r1.2))%nat
          ∧ outbox r2.2 !! i = Some (messageFor h job)
          ∧ ∀ (i' : nat) (msg : Sent),
              (length (outbox w) ≤ i')%nat → outbox r2.2 !! i' = Some msg →
              occurrence msg = (id job, scheduledUnix job) → i' = i)
     ∧ ((∀ a b : nat, (ticks w ≤ a)%nat → (ticks w ≤ b)%nat →
           clock host b - clock host a ≤ 1209600000) →
        alreadyDelivered (storedDelivered r1.2) (deliveryKey job) = true)
     ∧ occurrenceOver job r1.2 ∧ occurrenceOver job r2.2
     ∧ NoDup (id <$> storedJobs r2.2)
     ∧ (repeatDaily job = false → absent (id job) r1.2 ∧ absent (id job) r2.2)
     ∧ (repeatDaily job = true →
        (∃ m : nat, (1 ≤ m)%nat ∧ advance job m ∈ storedJobs r1.2)
        ∧ ∃ m : nat, (1 ≤ m)%nat ∧ advance job m ∈ storedJobs r2.2))
  ∧ (∀ (fuel : nat) (d : gmap string JsVal) (w0 : World),
       noInherited w0 →
       NoDup (id <$> storedJobs w0) →
       (measure B (storedJobs w0) < fuel)%nat →
       job ∈ storedJobs w0 →
       let w1 := (deliver host h job (deliveryKey job) d w0).2 in
       runAtMs job ≤ clock host (S (ticks w1)) →
       (∀ n : nat, (ticks w1 ≤ n)%nat →
          clock host n - 1209600000 ≤ clock host (ticks w0)) →
       let r := alarm host fuel w1 in
       outbox w1 = (outbox w0 ++ [messageFor h job])%list
       ∧ storedJobs w1 = storedJobs w0
       ∧ alreadyDelivered (storedDelivered w1) (deliveryKey job) = true
       ∧ r.1 = Returned tt
       ∧ noSendFor (length (outbox w1)) (id job, scheduledUnix job) r.2
       ∧ occurrenceOver job r.2
       ∧ NoDup (id <$> storedJobs r.2)
       ∧ (repeatDaily job = false → absent (id job) r.2)
       ∧ (repeatDaily job = true →
          ∃ m : nat, (1 ≤ m)%nat ∧ advance job m ∈ storedJobs r.2)).
Proof.
  intros Hmono Hb Hok Hkind.
  assert (Hnot : doAtTypeHandlers (doAtType job) ≠ Missing) by congruence.
  split.
  - intros fuel1 fuel2 w Hkinds Hnd Hfuel1 Hfuel2 Hjob Hdue Hdel r1 r2.
    set (n0 := length (outbox w)).
    destruct (alarm_processes host B fuel1 w Hmono Hb Hok Hkinds Hnd Hfuel1)
      as (w1 & Heq1 & Hticks1 & _ & Hnd1 & Hkinds1 & Hmeasure1 & [sent1 Hsent1] & Hdone1).
    destruct (alarm_processes host B fuel2 w1 Hmono Hb Hok Hkinds1 Hnd1 ltac:(lia))
      as (w2 & Heq2 & _ & _ & Hnd2 & _ & _ & [sent2 Hsent2] & _).
    assert (Honce0 : sentOnce host n0 w).
    { intros i i' msg msg' Hi _ Hmsg. by destruct (no_post_yet w i msg). }
    assert (Hlater0 : laterThanSent host n0 w).
    { intros i msg Hi Hmsg. by destruct (no_post_yet w i msg). }
    destruct (alarm_once host fuel1 n0 w Hnd Honce0 Hlater0) as [Honce1 Hrest1].
    destruct Hrest1 as [_ Hlater1]; [by rewrite Heq1|].
    destruct (alarm_once host fuel2 n0 (alarm host fuel1 w).2
                ltac:(by rewrite Heq1) Honce1 Hlater1) as [Honce2 _].
    subst r1 r2. rewrite Heq1 in *. cbn [fst snd] in *. rewrite Heq2 in *.
    cbn [fst snd] in *.
    destruct (Hdone1 job Hjob Hdue) as (Hover1 & Hown1 & _ & Hdaily1 & Hoff1).
    destruct (Hown1 h Hkind Hdel) as (i & Hi & Hmsg).
    assert (Hmsg2 : outbox w2 !! i = Some (messageFor h job)).
    { rewrite Hsent2. by apply lookup_app_l_Some. }
    split; [done|]. split; [done|]. split.
    { exists i. split; [split; [done | by eapply lookup_lt_Some]|].
      split; [done|]. intros i' msg Hi' Hmsg' Hocc.
      by apply (sentOnce_unique host n0 w2 i i' (messageFor h job) msg). }
    split.
    { intros H14.
      destruct (alarm_marked host fuel1 n0 (ticks w) w H14) as (_ & Hmarked & _);
        [lia | | done |].
      { intros k msg Hk Hm. by destruct (no_post_yet w k msg). }
      rewrite Heq1 in Hmarked. cbn [snd] in Hmarked.
      destruct (Hmarked i (messageFor h job) Hi Hmsg (Hok i)) as (t & Ht & _).
      by apply (alreadyDelivered_fresh _ _ t). }
    split; [done|]. split.
    { pose proof (alarm_occurrenceOver host fuel2 job w1 Hover1) as H.
      by rewrite Heq2 in H. }
    split; [done|]. split.
    { intros Hrep. split; [by apply Hoff1|].
      pose proof (alarm_absent host fuel2 (id job) w1 (Hoff1 Hrep)) as H.
      by rewrite Heq2 in H. }
    intros Hrep. destruct (Hdaily1 Hrep Hnot) as (m & Hm & Hin).
    split; [by exists m|].
    destruct (alarm_keeps_daily host fuel2 (advance job 1) w1) as [m' Hin'];
      [done | done | done | | by rewrite Heq2 |].
    + exists (m - 1)%nat. rewrite advance_advance.
      by replace (1 + (m - 1))%nat with m by lia.
    + rewrite Heq2, advance_advance in Hin'. exists (1 + m')%nat. split; [lia | done].
  - intros fuel d w0 Hkinds Hnd Hfuel Hjob w1 Hdue Hfresh r. subst r w1.
    rewrite (deliver_ok host h job d w0 (Hok _)) in *. cbn [snd] in *.
    set (w1 := setDelivered
                 (pruneDelivered
                    (<[deliveryKey job:=JNum (clock host (ticks w0))]> d)
                    (clock host (ticks w0)))
                 (tick (logSent (messageFor h job) w0))) in *.
    assert (Hkey : storedDelivered w1 !! deliveryKey job
                   = Some (JNum (clock host (ticks w0)))).
    { simpl. apply prune_keeps_fresh; [apply lookup_insert_eq | lia]. }
    destruct (alarm_processes host B fuel w1 Hmono Hb Hok Hkinds Hnd Hfuel)
      as (w2 & Heq & _ & _ & Hnd2 & _ & _ & _ & Hdone).
    pose proof (alarm_noSendFor host fuel w1 job _ Hkey Hfresh) as Hno.
    rewrite Heq in *. cbn [fst snd] in *.
    destruct (Hdone job Hjob Hdue) as (Hover & _ & _ & Hdaily & Hoff).
    split; [done|]. split; [done|].
    split; [by eapply alreadyDelivered_fresh|].
    split; [done|]. split; [done|]. split; [done|]. split; [done|].
    split; [done|]. intros Hrep. by apply Hdaily.
Qed.

(** ** A failed send, from the POST to the throw *)

Lemma kept_later (host : Host) (n0 t0 : nat) (c0 c : gmap string JsVal) (w w' : World)
    (sent : list Sent) :
  (ticks w ≤ ticks w')%nat →
  outbox w' = (outbox w ++ sent)%list →
  kept host n0 t0 c0 c w → kept host n0 t0 c0 c w'.
Proof.
  intros Hticks Hout Hc key v Hkey Hfresh Hnew. apply Hc; [done| |].
  - intros n Hn. apply Hfresh. lia.
  - intros i msg Hi Hmsg. apply Hnew; [done|]. rewrite Hout.
    by apply lookup_app_l_Some.
Qed.

Lemma kept_prune (host : Host) (n0 t0 n : nat) (c0 c : gmap string JsVal) (w : World) :
  (t0 ≤ n < ticks w)%nat →
  kept host n0 t0 c0 c w → kept host n0 t0 c0 (pruneDelivered c (clock host n)) w.
Proof.
  intros Hn Hc key v Hkey Hfresh Hnew. rewrite pruneDelivered_lookup.
  rewrite (Hc key v Hkey Hfresh Hnew). by rewrite (Hfresh n Hn).
Qed.

Lemma Iter_kept (host : Host) (inner n0 t0 : nat) (c0 d : gmap string JsVal)
    (w : World) (out : Outcome (Flow * gmap string JsVal)) (w' : World) :
  (n0 ≤ length (outbox w))%nat →
  (t0 ≤ ticks w)%nat →
  kept host n0 t0 c0 d w →
  Iter host inner d w out w' →
  match out with
  | Returned (_, d') => kept host n0 t0 c0 d' w'
  | _ => True
  end.
Proof.
  intros Hn0 Ht0 Hd Hit.
  inversion Hit as [Hs|job rest Hs Hlt|job rest idx Hs Hdue Hdel Hkind Hidx
                   |job rest Hs Hdue Hdel Hkind|job rest h Hs Hdue Hdel Hkind Hok
                   |job rest h res w2 Hs Hdue Hdel Hkind Hok now d' Hset Hout
                   |job rest res w2 Hs Hdue Hdel Hset Hout]; subst; try done.
  - apply (kept_later host n0 t0 c0 d w _ []); [simpl; lia | by rewrite app_nil_r | done].
  - apply (kept_later host n0 t0 c0 d w _ []); [simpl; lia | by rewrite app_nil_r | done].
  - apply (kept_later host n0 t0 c0 d w _ []); [simpl; lia | by rewrite app_nil_r | done].
  - apply Settled_frame in Hset as Hframe.
    destruct Hframe as (Ho & _ & _ & _ & Hticks & Hres). simpl in Ho, Hticks.
    destruct Hres as [-> | ->]; [|done]. cbn [andThen].
    subst d'. apply kept_prune; [lia|].
    intros key v Hkey Hfresh Hnew.
    assert (key ≠ deliveryKey job).
    { intros ->. apply (Hnew (length (outbox w)) (messageFor h job)); [done| |done|done].
      rewrite Ho. by rewrite lookup_app_r, Nat.sub_diag by lia. }
    rewrite lookup_insert_ne by done.
    apply (kept_later host n0 t0 c0 d w w' [messageFor h job]); [lia | done | done |..];
      done.
  - apply Settled_frame in Hset as Hframe.
    destruct Hframe as (Ho & _ & _ & _ & Hticks & Hres). simpl in Ho, Hticks.
    destruct Hres as [-> | ->]; [|done]. cbn [andThen].
    apply (kept_later host n0 t0 c0 d w _ []); [lia | by rewrite app_nil_r | done].
Qed.

Lemma allOk_no_failure {A} (host : Host) (n0 t0 : nat) (c0 : gmap string JsVal)
    (out : Outcome A) (w : World) :
  allOk host n0 w → failedSend host n0 t0 c0 out w.
Proof.
  intros Hall i msg Hi Hmsg Hbad. apply lookup_lt_Some in Hmsg.
  rewrite Hall in Hbad; [done | lia].
Qed.

Lemma Iter_failedSend (host : Host) (inner n0 t0 : nat) (c0 d : gmap string JsVal)
    (w : World) (out : Outcome (Flow * gmap string JsVal)) (w' : World) :
  allOk host n0 w ∧ (n0 ≤ length (outbox w))%nat ∧ (t0 ≤ ticks w)%nat
  ∧ earned host n0 c0 d w ∧ kept host n0 t0 c0 d w
  ∧ (length (outbox w) = n0 → d = pruneDelivered c0 (clock host t0)) →
  Iter host inner d w out w' →
  match out with
  | Returned (Continue, d') =>
      allOk host n0 w' ∧ (n0 ≤ length (outbox w'))%nat ∧ (t0 ≤ ticks w')%nat
      ∧ earned host n0 c0 d' w' ∧ kept host n0 t0 c0 d' w'
      ∧ (length (outbox w') = n0 → d' = pruneDelivered c0 (clock host t0))
  | Returned (Break, d') => failedSend host n0 t0 c0 (Returned d') w'
  | Threw e => failedSend host n0 t0 c0 (@Threw (gmap string JsVal) e) w'
  | OutOfFuel => failedSend host n0 t0 c0 (@OutOfFuel (gmap string JsVal)) w'
  end.
Proof.
  intros (Hall & Hn0 & Ht0 & Hearned & Hkept & Hfirst) Hit.
  pose proof (Iter_earned_memory host inner n0 c0 d w out w' Hn0 Hearned Hit) as Hearned'.
  pose proof (Iter_kept host inner n0 t0 c0 d w out w' Hn0 Ht0 Hkept Hit) as Hkept'.
  destruct (Iter_outbox host inner d w out w' Hit) as [Hticks _].
  destruct Hit as [Hs|job rest Hs Hlt|job rest idx Hs Hdue Hdel Hkind Hidx
                    |job rest Hs Hdue Hdel Hkind|job rest h Hs Hdue Hdel Hkind Hok
                    |job rest h out w' Hs Hdue Hdel Hkind Hok now d' Hset
                    |job rest out w' Hs Hdue Hdel Hset].
  - by apply allOk_no_failure.
  - by apply allOk_no_failure.
  - split; [by apply (allOk_same_outbox host n0 w)|]. split; [done|].
    split; [lia|]. done.
  - by apply allOk_no_failure.
  - intros i msg Hi Hmsg Hbad. simpl in Hmsg.
    destruct (decide (i = length (outbox w))) as [->|Hne].
    + rewrite list_lookup_middle in Hmsg by done. injection Hmsg as <-.
      split; [done|]. split; [simpl; rewrite length_app; simpl; lia|]. split.
      { exists job, h.
        split. { change (job ∈ storedJobs w). by eapply head_stored. }
        split; [done|]. split; [done|]. by apply alreadyDelivered_prune. }
      split; [simpl; lia|]. exists d. split.
      { simpl. by rewrite ?Nat.sub_0_r. }
      split; [by apply (earned_more host n0 c0 d w _ [messageFor h job])|].
      split; [apply (kept_later host n0 t0 c0 d w _ [messageFor h job]);
              [simpl; lia | done | done]|].
      intros Heq. by apply Hfirst.
    + apply lookup_lt_Some in Hmsg as Hlt. rewrite length_app in Hlt. simpl in Hlt.
      rewrite Hall in Hbad; [done | lia].
  - apply Settled_frame in Hset as (Hout & _ & _ & _ & _ & Hres). simpl in Hout.
    assert (allOk host n0 w') by (by eapply allOk_snoc).
    destruct Hres as [-> | ->]; simpl in *; [|by apply allOk_no_failure].
    split; [done|]. split; [rewrite Hout, length_app; lia|]. split; [lia|].
    split; [done|]. split; [done|]. rewrite Hout, length_app. simpl. lia.
  - apply Settled_frame in Hset as (Hout & _ & _ & _ & _ & Hres). simpl in Hout.
    assert (allOk host n0 w') by (by eapply allOk_same_outbox).
    destruct Hres as [-> | ->]; simpl in *; [|by apply allOk_no_failure].
    split; [done|]. split; [by rewrite Hout|]. split; [lia|].
    split; [done|]. split; [done|]. rewrite Hout. done.
Qed.

(** C4. A POST that is not answered with success. The pass of the drain
    loop that makes it writes the cache it holds in memory, pruned and with
    no key added, leaves the Job Set as it is, and throws the API error. An
    invocation whose first due job meets such an answer throws that error
    with the Job Set untouched and the cache that was stored before, pruned
    at its two clock readings, stored again. And of any invocation, if one
    of its POSTs is not answered with success: it throws the API error and
    sends nothing more; the POST was the message of a job that is still
    stored; the stored dedup cache does not hold the key of that job; each
    of its entries was stored before the invocation or marks a POST of this
    invocation that was answered with success; each entry stored before
    that no clock reading of the invocation found stale, and that no such
    mark replaced, is still stored; and if the failed POST is the first of
    the invocation, the stored cache is the cache stored before, pruned at
    the first and at the last reading. *)
Theorem send_failure_propagates (host : Host) :
  (∀ (inner : nat) (d : gmap string JsVal) (w0 : World) (job : Job)
     (rest : list Job) (h : Handler),
     sortJobs (storedJobs w0) = job :: rest →
     runAtMs job ≤ clock host (ticks w0) →
     alreadyDelivered d (deliveryKey job) = false →
     doAtTypeHandlers (doAtType job) = Own h →
     ok (discord host (length (outbox w0))) = false →
     iteration host inner d w0 =
       (Threw (apiError (discord host (length (outbox w0)))),
        setDelivered (pruneDelivered d (clock host (S (ticks w0))))
          (tick (logSent (messageFor h job) (tick w0)))))
  ∧ (∀ (fuel : nat) (w : World) (job : Job) (rest : list Job) (h : Handler),
       sortJobs (storedJobs w) = job :: rest →
       runAtMs job ≤ clock host (S (ticks w)) →
       alreadyDelivered (pruneDelivered (storedDelivered w) (clock host (ticks w)))
         (deliveryKey job) = false →
       doAtTypeHandlers (doAtType job) = Own h →
       ok (discord host (length (outbox w))) = false →
       alarm host (S fuel) w =
         (Threw (apiError (discord host (length (outbox w)))),
          setDelivered
            (pruneDelivered
               (pruneDelivered (storedDelivered w) (clock host (ticks w)))
               (clock host (S (S (ticks w)))))
            (tick (logSent (messageFor h job) (tick (tick w))))))
  ∧ (∀ (fuel : nat) (w : World) (i : nat) (msg : Sent),
       let r := alarm host fuel w in
       (length (outbox w) ≤ i)%nat →
       outbox r.2 !! i = Some msg →
       ok (discord host i) = false →
       r.1 = Threw (apiError (discord host i))
       ∧ length (outbox r.2) = S i
       ∧ (∃ (job : Job) (h : Handler),
            job ∈ storedJobs r.2
            ∧ doAtTypeHandlers (doAtType job) = Own h
            ∧ msg = messageFor h job
            ∧ alreadyDelivered (storedDelivered r.2) (deliveryKey job) = false)
       ∧ is_Some (deliveredStore r.2)
       ∧ earned host (length (outbox w)) (storedDelivered w) (storedDelivered r.2) r.2
       ∧ kept host (length (outbox w)) (ticks w) (storedDelivered w)
           (storedDelivered r.2) r.2
       ∧ (i = length (outbox w) →
          storedDelivered r.2 =
            pruneDelivered (pruneDelivered (storedDelivered w) (clock host (ticks w)))
              (clock host (ticks r.2 - 1)))).
Proof.
  assert (Hpass : ∀ (inner : nat) (d : gmap string JsVal) (w0 : World) (job : Job)
            (rest : list Job) (h : Handler),
            sortJobs (storedJobs w0) = job :: rest →
            runAtMs job ≤ clock host (ticks w0) →
            alreadyDelivered d (deliveryKey job) = false →
            doAtTypeHandlers (doAtType job) = Own h →
            ok (discord host (length (outbox w0))) = false →
            iteration host inner d w0 =
              (Threw (apiError (discord host (length (outbox w0)))),
               setDelivered (pruneDelivered d (clock host (S (ticks w0))))
                 (tick (logSent (messageFor h job) (tick w0))))).
  { intros inner d w0 job rest h Hs Hdue Hdel Hkind Hfail.
    pose proof (iteration_Iter host inner d w0) as Hit.
    destruct (iteration host inner d w0) as [out w']. cbn [fst snd] in Hit.
    inversion Hit; subst; same_head; try congruence; try lia. }
  split; [exact Hpass|]. split.
  { intros fuel w job rest h Hs Hdue Hdel Hkind Hfail.
    rewrite alarm_eq. cbv zeta. cbn [drain]. rewrite bind_eq.
    by rewrite (Hpass (S fuel) _ (tick w) job rest h Hs Hdue Hdel Hkind Hfail). }
  intros fuel w i msg r Hi Hmsg Hbad.
  subst r. rewrite alarm_eq in Hmsg |- *. cbv zeta in Hmsg |- *.
  set (n0 := length (outbox w)) in *. set (t0 := ticks w) in *.
  set (c0 := storedDelivered w) in *.
  pose proof (drain_inv host fuel
    (λ d w1, allOk host n0 w1 ∧ (n0 ≤ length (outbox w1))%nat ∧ (t0 ≤ ticks w1)%nat
             ∧ earned host n0 c0 d w1 ∧ kept host n0 t0 c0 d w1
             ∧ (length (outbox w1) = n0 → d = pruneDelivered c0 (clock host t0)))
    (λ out w1, failedSend host n0 t0 c0 out w1)) as Hdrain.
  specialize (Hdrain
    ltac:(intros d1 w1 out w1' HI Hit;
          exact (Iter_failedSend host fuel n0 t0 c0 d1 w1 out w1' HI Hit))
    ltac:(intros d1 w1 (HI & _); by apply allOk_no_failure)
    fuel (pruneDelivered c0 (clock host t0)) (tick w)).
  assert (Hstart : allOk host n0 (tick w) ∧ (n0 ≤ length (outbox (tick w)))%nat
            ∧ (t0 ≤ ticks (tick w))%nat
            ∧ earned host n0 c0 (pruneDelivered c0 (clock host t0)) (tick w)
            ∧ kept host n0 t0 c0 (pruneDelivered c0 (clock host t0)) (tick w)
            ∧ (length (outbox (tick w)) = n0 →
               pruneDelivered c0 (clock host t0) = pruneDelivered c0 (clock host t0))).
  { split; [intros k Hk; simpl in Hk; lia|].
    split; [done|]. split; [simpl; lia|].
    split; [apply earned_prune; intros key v Hkey; by left|].
    split; [|done].
    intros key v Hkey Hfresh _. rewrite pruneDelivered_lookup, Hkey.
    rewrite (Hfresh t0); [done | simpl; lia]. }
  specialize (Hdrain Hstart). clear Hstart.
  destruct (drain host fuel fuel _ (tick w)) as [[d1| |] w1]; cbn [fst snd] in *.
  - exfalso. simpl in Hmsg. by destruct (Hdrain i msg Hi Hmsg Hbad) as [? _].
  - destruct (Hdrain i msg Hi Hmsg Hbad)
      as ([= ->] & Hlen & Hjob & Hticks & d & Hstore & Hearned & Hkept & Hfirst).
    split; [done|]. split; [done|]. split; [done|].
    split; [by rewrite Hstore|].
    assert (Hcache : storedDelivered w1 = pruneDelivered d (clock host (ticks w1 - 1))).
    { unfold storedDelivered. by rewrite Hstore. }
    rewrite Hcache.
    split; [by apply earned_prune|].
    split; [apply kept_prune; [lia | done]|].
    intros Heq. by rewrite (Hfirst Heq).
  - by destruct (Hdrain i msg Hi Hmsg Hbad) as [? _].
Qed.

(** ** The wake at sample inputs *)

(** A POST answered with status 500, with a fresh entry and an entry that
    is not a number in the stored cache. *)
Lemma send_failure_propagates_witness :
  let host := steadyHost 2000000 500 in
  let job := sampleJob "job-0" "ping-role" 1000 false in
  let cache : gmap string JsVal :=
    {[ "job-9:5" := JNum 1999000; "job-8:7" := JStr "sent" ]} in
  let w := worldWith [job] (Some cache) in
  let r := alarm host 5 w in
  r = (Threw (apiError (discord host 0)),
       setDelivered (pruneDelivered (pruneDelivered cache 2000000) 2000000)
         (tick (logSent (messageFor PingRole job) (tick (tick w)))))
  ∧ r.1 = Threw (apiError (discord host 0))
  ∧ length (outbox r.2) = 1%nat
  ∧ (∃ (job' : Job) (h : Handler),
       job' ∈ storedJobs r.2
       ∧ doAtTypeHandlers (doAtType job') = Own h
       ∧ messageFor PingRole job = messageFor h job'
       ∧ alreadyDelivered (storedDelivered r.2) (deliveryKey job') = false)
  ∧ is_Some (deliveredStore r.2)
  ∧ earned host 0 cache (storedDelivered r.2) r.2
  ∧ kept host 0 0 cache (storedDelivered r.2) r.2
  ∧ storedDelivered r.2 =
      pruneDelivered (pruneDelivered cache (clock host 0)) (clock host (ticks r.2 - 1))
  ∧ storedJobs r.2 = [job]
  ∧ storedDelivered r.2 !! "job-9:5" = Some (JNum 1999000)
  ∧ storedDelivered r.2 !! "job-8:7" = None
  ∧ storedDelivered r.2 !! deliveryKey job = None.
Proof.
  intros host job cache w r.
  destruct (send_failure_propagates host) as (_ & Hfirst & Hany).
  split.
  { apply (Hfirst 4%nat w job [] PingRole).
    - vm_compute. reflexivity.
    - simpl. lia.
    - vm_compute. reflexivity.
    - reflexivity.
    - reflexivity. }
  destruct (Hany 5%nat w 0%nat (messageFor PingRole job))
    as (Hthrew & Hlast & Hjob & Hstored & Hearned & Hkept & Hexact).
  - simpl. lia.
  - vm_compute. reflexivity.
  - reflexivity.
  - split; [exact Hthrew|]. split; [exact Hlast|]. split; [exact Hjob|].
    split; [exact Hstored|]. split; [exact Hearned|]. split; [exact Hkept|].
    split; [exact (Hexact eq_refl)|].
    split; [|split; [|split]]; vm_compute; reflexivity.
Defined.

(** Three jobs, two of them due: one of a kind without a handler, one daily
    message about two days late. *)
Lemma drain_completes_witness :
  let host := steadyHost 200000000 200 in
  let purged := sampleJob "job-0" "no-such-kind" 1000 false in
  let daily := sampleJob "job-1" "channel-message" 27200 true in
  let later := sampleJob "job-2" "ping-user" 900000 false in
  let w := worldWith [purged; daily; later] None in
  ∃ fuel0 : nat, ∀ fuel : nat, (fuel0 ≤ fuel)%nat →
    (alarm host fuel w).1 ≠ OutOfFuel
    ∧ (∃ w', alarm host fuel w = (Returned tt, w')
             ∧ (∀ j n, j ∈ storedJobs w' → (n + 2 ≤ ticks w')%nat →
                       clock host n < runAtMs j)
             ∧ (∀ j, j ∈ storedJobs w → runAtMs j ≤ clock host (S (ticks w)) →
                     j ∉ storedJobs w')
             ∧ (∀ j, j ∈ storedJobs w → runAtMs j ≤ clock host (S (ticks w)) →
                     processed 0 ∅ j w')
             ∧ posted 0 (messageFor ChannelMessage daily) w'
             ∧ noSendFor 0 ("job-0", 1000) w')
    ∧ (∀ (d d' : gmap string JsVal) (w0 : World),
         (measure 200000000 (storedJobs w0) < fuel)%nat →
         (iteration host fuel d w0).1 = Returned (Continue, d') →
         (measure 200000000 (storedJobs (iteration host fuel d w0).2)
          < measure 200000000 (storedJobs w0))%nat).
Proof.
  intros host purged daily later w.
  destruct (drain_completes host 200000000 w) as [fuel0 Hfuel0].
  - apply steady_monotone.
  - apply steady_bounded.
  - exists fuel0. intros fuel Hfuel.
    destruct (Hfuel0 fuel Hfuel) as (Hends & Hreturns & Hpass).
    split; [exact Hends|]. split; [|exact Hpass].
    destruct Hreturns as (w' & Heq & Hnone & Hgone & Hdone).
    + intros n. reflexivity.
    + intros j Hj. simpl in Hj.
      repeat (apply elem_of_cons in Hj as [->|Hj]); [vm_compute; congruence..|].
      by apply elem_of_nil in Hj.
    + exists w'. split; [exact Heq|]. split; [exact Hnone|]. split; [exact Hgone|].
      assert (Hnd : NoDup (id <$> storedJobs w)) by compute_done.
      split; [exact (Hdone Hnd)|]. split.
      * destruct (Hdone Hnd daily) as (_ & Hown & _).
        -- simpl. right. left.
        -- simpl. lia.
        -- apply (Hown ChannelMessage); reflexivity.
      * destruct (Hdone Hnd purged) as (_ & _ & Hmiss & _).
        -- simpl. left.
        -- simpl. lia.
        -- destruct Hmiss as [Hno _]; [reflexivity | reflexivity | exact Hno].
Defined.


(** A daily role ping and a one-off user ping, both due, woken twice; and
    each of them after a first wake that stopped once its POST was made and
    its key stored. *)
Lemma retried_wake_sends_once_witness :
  let host := steadyHost 200000000 200 in
  let daily := sampleJob "job-0" "ping-role" 1000 true in
  let once := sampleJob "job-1" "ping-user" 2000 false in
  let w := worldWith [daily; once] None in
  let r1 := alarm host 20 w in
  let r2 := alarm host 20 r1.2 in
  let stopped (h : Handler) (job : Job) :=
    (deliver host h job (deliveryKey job) ∅ (tickN 2 w)).2 in
  let rd := alarm host 20 (stopped PingRole daily) in
  let ro := alarm host 20 (stopped PingUser once) in
  (r1.1 = Returned tt ∧ r2.1 = Returned tt
   ∧ (∃ i : nat,
        (0 ≤ i < length (outbox r1.2))%nat
        ∧ outbox r2.2 !! i = Some (messageFor PingRole daily)
        ∧ ∀ (i' : nat) (msg : Sent),
            (0 ≤ i')%nat → outbox r2.2 !! i' = Some msg →
            occurrence msg = (id daily, scheduledUnix daily) → i' = i)
   ∧ alreadyDelivered (storedDelivered r1.2) (deliveryKey daily) = true
   ∧ occurrenceOver daily r1.2 ∧ occurrenceOver daily r2.2
   ∧ NoDup (id <$> storedJobs r2.2)
   ∧ (∃ m : nat, (1 ≤ m)%nat ∧ advance daily m ∈ storedJobs r1.2)
   ∧ ∃ m : nat, (1 ≤ m)%nat ∧ advance daily m ∈ storedJobs r2.2)
  ∧ ((∃ i : nat,
        (0 ≤ i < length (outbox r1.2))%nat
        ∧ outbox r2.2 !! i = Some (messageFor PingUser once)
        ∧ ∀ (i' : nat) (msg : Sent),
            (0 ≤ i')%nat → outbox r2.2 !! i' = Some msg →
            occurrence msg = (id once, scheduledUnix once) → i' = i)
     ∧ alreadyDelivered (storedDelivered r1.2) (deliveryKey once) = true
     ∧ occurrenceOver once r1.2 ∧ occurrenceOver once r2.2
     ∧ absent (id once) r1.2 ∧ absent (id once) r2.2)
  ∧ (outbox (stopped PingRole daily) = [messageFor PingRole daily]
     ∧ storedJobs (stopped PingRole daily) = storedJobs w
     ∧ alreadyDelivered (storedDelivered (stopped PingRole daily)) (deliveryKey daily)
       = true
     ∧ rd.1 = Returned tt
     ∧ noSendFor 1 (id daily, scheduledUnix daily) rd.2
     ∧ occurrenceOver daily rd.2
     ∧ NoDup (id <$> storedJobs rd.2)
     ∧ ∃ m : nat, (1 ≤ m)%nat ∧ advance daily m ∈ storedJobs rd.2)
  ∧ (outbox (stopped PingUser once) = [messageFor PingUser once]
     ∧ storedJobs (stopped PingUser once) = storedJobs w
     ∧ alreadyDelivered (storedDelivered (stopped PingUser once)) (deliveryKey once)
       = true
     ∧ ro.1 = Returned tt
     ∧ noSendFor 1 (id once, scheduledUnix once) ro.2
     ∧ occurrenceOver once ro.2
     ∧ NoDup (id <$> storedJobs ro.2)
     ∧ absent (id once) ro.2).
Proof.
  intros host daily once w r1 r2 stopped rd ro.
  assert (Hkinds : noInherited w).
  { intros j Hj. simpl in Hj.
    repeat (apply elem_of_cons in Hj as [->|Hj]); [vm_compute; congruence..|].
    by apply elem_of_nil in Hj. }
  assert (Hnd : NoDup (id <$> storedJobs w)) by compute_done.
  assert (Hfuel : (measure 200000000 (storedJobs w) < 20)%nat) by (vm_compute; lia).
  assert (Hdaily : daily ∈ storedJobs w) by (simpl; left).
  assert (Honce : once ∈ storedJobs w) by (simpl; right; left).
  destruct (retried_wake_sends_once host 200000000 daily PingRole)
    as [Htwice Hstopped];
    [apply steady_monotone | apply steady_bounded | intros n; reflexivity
    | reflexivity |].
  destruct (retried_wake_sends_once host 200000000 once PingUser)
    as [Htwice' Hstopped'];
    [apply steady_monotone | apply steady_bounded | intros n; reflexivity
    | reflexivity |].
  split; [|split; [|split]].
  - destruct (Htwice 20%nat 20%nat w Hkinds Hnd Hfuel Hfuel Hdaily)
      as (H1 & H2 & Hpost & Hmark & Hover1 & Hover2 & Hnd2 & _ & Hmoved).
    + simpl. lia.
    + reflexivity.
    + split; [exact H1|]. split; [exact H2|]. split; [exact Hpost|].
      split; [apply Hmark; intros a b _ _; simpl; lia|].
      split; [exact Hover1|]. split; [exact Hover2|]. split; [exact Hnd2|].
      exact (Hmoved eq_refl).
  - destruct (Htwice' 20%nat 20%nat w Hkinds Hnd Hfuel Hfuel Honce)
      as (_ & _ & Hpost & Hmark & Hover1 & Hover2 & _ & Hgone & _).
    + simpl. lia.
    + reflexivity.
    + split; [exact Hpost|].
      split; [apply Hmark; intros a b _ _; simpl; lia|].
      split; [exact Hover1|]. split; [exact Hover2|]. exact (Hgone eq_refl).
  - destruct (Hstopped 20%nat ∅ (tickN 2 w) Hkinds Hnd Hfuel Hdaily)
      as (Hout & Hjobs & Hkey & Hret & Hno & Hover & Hnd' & _ & Hmoved).
    + simpl. lia.
    + intros n _. simpl. lia.
    + split; [exact Hout|]. split; [exact Hjobs|]. split; [exact Hkey|].
      split; [exact Hret|]. split; [exact Hno|]. split; [exact Hover|].
      split; [exact Hnd'|]. exact (Hmoved eq_refl).
  - destruct (Hstopped' 20%nat ∅ (tickN 2 w) Hkinds Hnd Hfuel Honce)
      as (Hout & Hjobs & Hkey & Hret & Hno & Hover & Hnd' & Hgone & _).
    + simpl. lia.
    + intros n _. simpl. lia.
    + split; [exact Hout|]. split; [exact Hjobs|]. split; [exact Hkey|].
      split; [exact Hret|]. split; [exact Hno|]. split; [exact Hover|].
      split; [exact Hnd'|]. exact (Hgone eq_refl).
Defined.

(** * Decoding the signature and the key *)

Lemma isStrWhiteSpace_no_digit (c : N) :
  isStrWhiteSpace c = true →
  hexValue c = None ∧ (c =? 43)%N = false ∧ (c =? 45)%N = false.
Proof.
  unfold isStrWhiteSpace. intros H. apply bool_decide_eq_true in H.
  repeat (apply elem_of_cons in H as [->|H]; [done|]).
  by apply elem_of_nil in H.
Qed.

Lemma hexValue_range (c : N) (x : Z) : hexValue c = Some x → 0 ≤ x < 16.
Proof.
  unfold hexValue.
  destruct (N.leb_spec 48 c), (N.leb_spec c 57), (N.leb_spec 97 c),
    (N.leb_spec c 102), (N.leb_spec 65 c), (N.leb_spec c 70);
    simpl; intros [= <-]; lia.
Qed.

Lemma hexValue_no_sign (c : N) (x : Z) :
  hexValue c = Some x → (c =? 43)%N = false ∧ (c =? 45)%N = false.
Proof.
  intros H. split; apply N.eqb_neq; intros ->; by vm_compute in H.
Qed.

(** What [parseInt] reads from two code units. *)
Lemma parseInt16_pair (a b : N) :
  parseInt16 [a; b] =
    match hexValue a, hexValue b with
    | Some x, Some y => Some (16 * x + y)
    | Some x, None =>
        if (a =? 48)%N && ((b =? 120)%N || (b =? 88)%N) then None else Some x
    | None, Some y =>
        if isStrWhiteSpace a || (a =? 43)%N then Some y
        else if (a =? 45)%N then Some (- y) else None
    | None, None => None
    end.
Proof.
  unfold parseInt16. cbn [skipWhiteSpace].
  destruct (isStrWhiteSpace a) eqn:Hwa.
  - destruct (isStrWhiteSpace_no_digit a Hwa) as (-> & _ & _). cbn [orb].
    destruct (isStrWhiteSpace b) eqn:Hwb.
    + by destruct (isStrWhiteSpace_no_digit b Hwb) as (-> & _ & _).
    + destruct (hexValue b) as [y|] eqn:Hb.
      * destruct (hexValue_no_sign b y Hb) as [-> ->]. cbn [orb hexPrefix].
        rewrite Hb. unfold hexNumber. simpl. f_equal; lia.
      * destruct (b =? 43)%N, (b =? 45)%N; cbn [orb hexPrefix]; by rewrite ?Hb.
  - destruct (hexValue a) as [x|] eqn:Ha.
    + destruct (hexValue_no_sign a x Ha) as [-> ->]. cbn [orb].
      destruct ((a =? 48)%N && ((b =? 120)%N || (b =? 88)%N)) eqn:Hpre.
      * apply andb_true_iff in Hpre as [_ Hx]. apply orb_true_iff in Hx.
        assert (hexValue b = None) as ->; [|done].
        destruct Hx as [Hx|Hx]; apply N.eqb_eq in Hx as ->; done.
      * cbn [hexPrefix]. rewrite Ha. destruct (hexValue b) as [y|] eqn:Hb.
        -- unfold hexNumber. simpl. f_equal; lia.
        -- unfold hexNumber. simpl. f_equal; lia.
    + destruct (a =? 43)%N eqn:Hplus.
      * apply N.eqb_eq in Hplus as ->. simpl.
        destruct (hexValue b) as [y|]; [|done].
        unfold hexNumber. simpl. f_equal; lia.
      * destruct (a =? 45)%N eqn:Hminus.
        -- apply N.eqb_eq in Hminus as ->. simpl.
           destruct (hexValue b) as [y|]; [|done].
           unfold hexNumber. simpl. f_equal; lia.
        -- cbn [orb].
           assert ((a =? 48)%N = false) as ->.
           { apply N.eqb_neq. intros ->. done. }
           cbn [andb hexPrefix]. rewrite Ha. by destruct (hexValue b).
Qed.

(** The loop reads the pairs in order, gives up at the first one that is not
    a number, and stores each byte at its index. *)
Lemma hexLoop_mapM (hex : CodeUnits) (r i : nat) (out : list Z) :
  (i + r ≤ length out)%nat →
  hexLoop hex r i out =
    (bs ← mapM (pairAt hex) (seq i r);
     Some (take i out ++ ((λ b, b `mod` 256) <$> bs) ++ drop (i + r) out)%list).
Proof.
  revert i out. induction r as [|r IH]; intros i out Hlen.
  - simpl. by rewrite Nat.add_0_r, take_drop.
  - cbn [hexLoop seq mapM]. fold (pairAt hex i).
    destruct (pairAt hex i) as [byte|]; [|done]. simpl.
    rewrite IH by (rewrite length_insert; lia).
    destruct (mapM (pairAt hex) (seq (S i) r)) as [bs|]; [|done]. simpl.
    f_equal.
    rewrite take_insert_lt by lia.
    rewrite drop_insert_lt by lia.
    replace (S i + r)%nat with (i + S r)%nat by lia.
    destruct (lookup_lt_is_Some_2 out i ltac:(lia)) as [x Hx].
    rewrite (take_S_r out i x Hx).
    rewrite insert_app_r_alt by (rewrite length_take; lia).
    rewrite length_take_le by lia. rewrite Nat.sub_diag. simpl.
    rewrite <- app_assoc. simpl.
    by replace (i + S r)%nat with (S (i + r)) by lia.
Qed.

Lemma hexToU8_eq (hex : CodeUnits) :
  hexToU8 (Some hex) =
    if negb (length hex `mod` 2 =? 0)%nat then None
    else fmap (λ b, b `mod` 256) <$> mapM (pairAt hex) (seq 0 (length hex / 2)).
Proof.
  unfold hexToU8. destruct (negb _); [done|]. cbv zeta.
  rewrite hexLoop_mapM by (rewrite !length_replicate; lia).
  rewrite length_replicate.
  destruct (mapM (pairAt hex) (seq 0 (length hex / 2))) as [bs|] eqn:Hbs; [|done].
  simpl. f_equal. rewrite drop_replicate, Nat.sub_diag. simpl. by rewrite app_nil_r.
Qed.

Lemma even_length_half (hex : CodeUnits) :
  (length hex `mod` 2 =? 0)%nat = true → length hex = (2 * (length hex / 2))%nat.
Proof.
  intros H. apply Nat.eqb_eq in H.
  pose proof (Nat.div_mod_eq (length hex) 2). lia.
Qed.

Lemma hexToU8_Some (hex : option CodeUnits) (out : list Z) :
  hexToU8 hex = Some out →
  ∃ s bs, hex = Some s
          ∧ length s = (2 * length out)%nat
          ∧ out = (λ b, b `mod` 256) <$> bs.
Proof.
  destruct hex as [s|]; [|done]. rewrite hexToU8_eq.
  destruct (length s `mod` 2 =? 0)%nat eqn:Heven; [|done]. cbn [negb].
  destruct (mapM (pairAt s) (seq 0 (length s / 2))) as [bs|] eqn:Hbs; [|done].
  cbn [fmap option_fmap option_map]. intros [= <-]. exists s, bs.
  split; [done|]. split; [|done].
  apply length_mapM in Hbs. rewrite length_seq in Hbs.
  rewrite length_fmap, <- Hbs. by apply even_length_half.
Qed.

(** X14. What [hexToU8] returns is a byte array of half the length of its
    argument: the argument is a string of twice as many code units, and
    every element is a byte. *)
Theorem hexToU8_halves_the_length (hex : option CodeUnits) (out : list Z) :
  hexToU8 hex = Some out →
  ∃ s, hex = Some s
       ∧ length s = (2 * length out)%nat
       ∧ Forall (λ b, 0 ≤ b < 256) out.
Proof.
  intros H. destruct (hexToU8_Some hex out H) as (s & bs & Hs & Hlen & ->).
  exists s. split; [done|]. split; [done|].
  apply Forall_fmap, Forall_forall. intros b _. simpl.
  apply Z.mod_pos_bound. lia.
Qed.

Lemma slice_pair (hex : CodeUnits) (k : nat) (a b : N) :
  hex !! (k * 2)%nat = Some a → hex !! (k * 2 + 1)%nat = Some b →
  slice hex (k * 2) (k * 2 + 2) = [a; b].
Proof.
  intros Ha Hb. unfold slice.
  replace (k * 2 + 2 - k * 2)%nat with 2%nat by lia.
  rewrite (drop_S hex a (k * 2) Ha).
  replace (k * 2 + 1)%nat with (S (k * 2)) in Hb by lia.
  by rewrite (drop_S hex b (S (k * 2)) Hb).
Qed.

Lemma pairAt_in_range (hex : CodeUnits) (k : nat) :
  (k < length hex / 2)%nat →
  ∃ a b, hex !! (k * 2)%nat = Some a ∧ hex !! (k * 2 + 1)%nat = Some b
         ∧ pairAt hex k = parseInt16 [a; b].
Proof.
  intros Hk. pose proof (Nat.div_mod_eq (length hex) 2) as Hdiv.
  destruct (lookup_lt_is_Some_2 hex (k * 2)) as [a Ha]; [lia|].
  destruct (lookup_lt_is_Some_2 hex (k * 2 + 1)) as [b Hb]; [lia|].
  exists a, b. split; [done|]. split; [done|].
  unfold pairAt. by rewrite (slice_pair hex k a b).
Qed.

Lemma parseInt16_pair_None (a b : N) : parseInt16 [a; b] = None ↔ unreadable a b.
Proof.
  rewrite parseInt16_pair. unfold unreadable.
  destruct (hexValue a) as [x|] eqn:Ha, (hexValue b) as [y|] eqn:Hb.
  - split; [done|]. intros [_ [->| ->]]; done.
  - destruct ((a =? 48)%N && ((b =? 120)%N || (b =? 88)%N)) eqn:Hpre.
    + split; [|done]. intros _.
      apply andb_true_iff in Hpre as [H0 Hx]. apply orb_true_iff in Hx.
      rewrite !N.eqb_eq in *. done.
    + split; [done|]. intros [-> Hx]. exfalso.
      destruct Hx as [-> | ->]; done.
  - destruct (isStrWhiteSpace a); cbn [orb].
    + split; [done|]. by intros [?|[? _]].
    + destruct (N.eqb_spec a 43) as [->|Hplus].
      * split; [done|]. by intros [?|(_ & ? & _)].
      * destruct (N.eqb_spec a 45) as [->|Hminus].
        -- split; [done|]. by intros [?|(_ & _ & ?)].
        -- split; [|done]. intros _. by right.
  - split; [|done]. intros _. by left.
Qed.

(** X15. [hexToU8] returns [null] for a string exactly when the string has
    an odd number of code units or one of its pairs is one [parseInt] reads
    no number from: [0x] or [0X], or a pair with no digit in second place
    unless the first is a digit, or with neither a digit, white space nor a
    sign in first place. It does not insist on two digits a pair. *)
Theorem hexToU8_rejects (s : CodeUnits) :
  hexToU8 (Some s) = None
  ↔ (length s `mod` 2 ≠ 0)%nat
    ∨ ∃ (k : nat) (a b : N),
        s !! (k * 2)%nat = Some a ∧ s !! (k * 2 + 1)%nat = Some b ∧ unreadable a b.
Proof.
  rewrite hexToU8_eq.
  destruct (Nat.eqb_spec (length s `mod` 2) 0) as [Heven|Hodd]; cbn [negb].
  2:{ split; [by left | done]. }
  rewrite fmap_None, mapM_None, Exists_exists. split.
  - intros (k & Hk & Hnone). right.
    apply elem_of_seq in Hk as [_ Hk].
    destruct (pairAt_in_range s k) as (a & b & Ha & Hb & Heq); [lia|].
    exists k, a, b. split; [done|]. split; [done|].
    apply parseInt16_pair_None. by rewrite <- Heq.
  - intros [Hodd|(k & a & b & Ha & Hb & Hbad)]; [done|].
    pose proof (lookup_lt_Some _ _ _ Hb) as Hlt.
    assert (Hk : (k < length s / 2)%nat).
    { pose proof (Nat.div_mod_eq (length s) 2). lia. }
    exists k. split; [apply elem_of_seq; lia|].
    destruct (pairAt_in_range s k Hk) as (a' & b' & Ha' & Hb' & ->).
    apply parseInt16_pair_None.
    assert (a' = a) as -> by congruence.
    by assert (b' = b) as -> by congruence.
Qed.

Lemma pairValues_lookup (s : CodeUnits) (k : nat) (a b : N) :
  s !! (k * 2)%nat = Some a → s !! (k * 2 + 1)%nat = Some b →
  pairValues s !! k
  = Some (16 * default 0 (hexValue a) + default 0 (hexValue b)).
Proof.
  revert s. induction k as [|k IH]; intros [|a0 [|b0 r]] Ha Hb; try done.
  - simpl in *. by simplify_eq.
  - simpl in *. by apply IH.
Qed.

Lemma length_pairValues (s : CodeUnits) : length (pairValues s) = (length s / 2)%nat.
Proof.
  assert (H : ∀ n (s : CodeUnits), (length s ≤ n)%nat →
            length (pairValues s) = (length s / 2)%nat).
  { clear s. induction n as [|n IH]; intros [|a [|b r]] Hn; try done.
    - simpl in Hn. lia.
    - cbn [pairValues length]. rewrite IH by (simpl in Hn; lia).
      change (S (S (length r))) with (1 * 2 + length r)%nat.
      rewrite (Nat.add_comm (1 * 2)), Nat.div_add by done. lia. }
  by apply (H (length s)).
Qed.

Lemma pairValues_bytes (s : CodeUnits) :
  Forall (λ c, is_Some (hexValue c)) s →
  Forall (λ b, 0 ≤ b < 256) (pairValues s).
Proof.
  assert (H : ∀ n (s : CodeUnits), (length s ≤ n)%nat →
            Forall (λ c, is_Some (hexValue c)) s →
            Forall (λ b, 0 ≤ b < 256) (pairValues s)).
  { clear s. induction n as [|n IH]; intros [|a [|b r]] Hn Hall;
      try (by constructor).
    - simpl in Hn. lia.
    - cbn [pairValues]. apply Forall_cons in Hall as [[x Hx] Hall].
      apply Forall_cons in Hall as [[y Hy] Hall].
      constructor.
      + rewrite Hx, Hy. simpl.
        pose proof (hexValue_range a x Hx). pose proof (hexValue_range b y Hy). lia.
      + apply IH; [simpl in Hn; lia | done]. }
  by apply (H (length s)).
Qed.

Lemma fmap_mod_bytes (l : list Z) :
  Forall (λ b, 0 ≤ b < 256) l → (λ b, b `mod` 256) <$> l = l.
Proof.
  induction 1 as [|b l Hb _ IH]; [done|]. simpl.
  rewrite Z.mod_small by done. by f_equal.
Qed.

Lemma hexToU8_digits (s : CodeUnits) :
  Forall (λ c, is_Some (hexValue c)) s →
  (length s `mod` 2 = 0)%nat →
  hexToU8 (Some s) = Some (pairValues s).
Proof.
  intros Hall Heven. rewrite hexToU8_eq.
  destruct (Nat.eqb_spec (length s `mod` 2) 0) as [_|?]; [|done]. cbn [negb].
  assert (mapM (pairAt s) (seq 0 (length s / 2)) = Some (pairValues s)) as ->.
  { apply mapM_Some_2, Forall2_same_length_lookup_2.
    { by rewrite length_seq, length_pairValues. }
    intros i k y Hk Hy. apply lookup_seq in Hk as [-> Hi]. simpl.
    destruct (pairAt_in_range s i Hi) as (a & b & Ha & Hb & ->).
    rewrite (pairValues_lookup s i a b Ha Hb) in Hy. injection Hy as <-.
    rewrite parseInt16_pair.
    destruct (Forall_lookup_1 _ _ _ _ Hall Ha) as [x ->].
    by destruct (Forall_lookup_1 _ _ _ _ Hall Hb) as [y ->]. }
  cbn [fmap option_fmap option_map]. f_equal.
  by apply fmap_mod_bytes, pairValues_bytes.
Qed.

(** X16. On a string of an even number of radix-16 digits, of either case,
    [hexToU8] returns the bytes the digits stand for, two digits a byte,
    the first the high one; there are half as many bytes as digits. *)
Theorem hexToU8_decodes_digit_pairs (s : CodeUnits) :
  Forall (λ c, is_Some (hexValue c)) s →
  (length s `mod` 2 = 0)%nat →
  hexToU8 (Some s) = Some (pairValues s)
  ∧ length (pairValues s) = (length s / 2)%nat.
Proof.
  intros Hall Heven. split; [by apply hexToU8_digits | apply length_pairValues].
Qed.

Lemma hexValue_hexDigit (d : Z) : 0 ≤ d < 16 → hexValue (hexDigit d) = Some d.
Proof.
  intros Hd.
  assert (d = 0 ∨ d = 1 ∨ d = 2 ∨ d = 3 ∨ d = 4 ∨ d = 5 ∨ d = 6 ∨ d = 7 ∨ d = 8
          ∨ d = 9 ∨ d = 10 ∨ d = 11 ∨ d = 12 ∨ d = 13 ∨ d = 14 ∨ d = 15) as H by lia.
  repeat (destruct H as [->|H]; [done|]). by subst.
Qed.

(** X17. Decoding undoes encoding: for every list of bytes, [hexToU8] of
    its lower-case hex rendering is the list itself. *)
Theorem hexToU8_of_toHex (bytes : list Z) :
  Forall (λ b, 0 ≤ b < 256) bytes →
  hexToU8 (Some (toHex bytes)) = Some bytes.
Proof.
  intros Hbytes.
  assert (Hdigits : Forall (λ c, is_Some (hexValue c)) (toHex bytes)
                    ∧ (length (toHex bytes) `mod` 2 = 0)%nat
                    ∧ pairValues (toHex bytes) = bytes).
  { induction Hbytes as [|b bytes Hb _ (IH1 & IH2 & IH3)]; [done|].
    assert (Hhi : 0 ≤ b `div` 16 < 16).
    { split; [apply Z.div_pos; lia | apply Z.div_lt_upper_bound; lia]. }
    assert (Hlo : 0 ≤ b `mod` 16 < 16) by (apply Z.mod_pos_bound; lia).
    cbn [toHex flat_map app]. fold (toHex bytes). split; [|split].
    - constructor; [by rewrite hexValue_hexDigit|].
      constructor; [by rewrite hexValue_hexDigit | done].
    - cbn [length].
      change (S (S (length (toHex bytes)))) with (2 + length (toHex bytes))%nat.
      by rewrite <- Nat.Div0.add_mod_idemp_r, IH2.
    - cbn [pairValues]. rewrite !hexValue_hexDigit, IH3 by done. simpl.
      f_equal. pose proof (Z.div_mod b 16). lia. }
  destruct Hdigits as (H1 & H2 & H3).
  rewrite hexToU8_digits by done. by rewrite H3.
Qed.

(** X18. [verifyDiscordRequest] answers [true] exactly when the signature
    decodes to 64 bytes, the key decodes to 32 bytes, and
    [nacl.sign.detached.verify] returns [true] for them and the encoded
    timestamp followed by the body; if so, the signature is a string of 128
    code units and the key one of 64. A [verify] that throws counts as
    [false]. *)
Theorem verifyDiscordRequest_accepts
    (verify : list Z → list Z → list Z → option bool) (encode : CodeUnits → list Z)
    (publicKeyHex signatureHex : option CodeUnits) (timestamp bodyText : CodeUnits) :
  (verifyDiscordRequest verify encode publicKeyHex signatureHex timestamp bodyText = true
   ↔ ∃ sig pk,
       hexToU8 signatureHex = Some sig ∧ hexToU8 publicKeyHex = Some pk
       ∧ length sig = 64%nat ∧ length pk = 32%nat
       ∧ verify (encode (timestamp ++ bodyText)%list) sig pk = Some true)
  ∧ (verifyDiscordRequest verify encode publicKeyHex signatureHex timestamp bodyText = true
     → ∃ s k, signatureHex = Some s ∧ length s = 128%nat
              ∧ publicKeyHex = Some k ∧ length k = 64%nat).
Proof.
  assert (Hiff :
    verifyDiscordRequest verify encode publicKeyHex signatureHex timestamp bodyText = true
    ↔ ∃ sig pk,
        hexToU8 signatureHex = Some sig ∧ hexToU8 publicKeyHex = Some pk
        ∧ length sig = 64%nat ∧ length pk = 32%nat
        ∧ verify (encode (timestamp ++ bodyText)%list) sig pk = Some true).
  { unfold verifyDiscordRequest. cbv zeta.
    destruct (hexToU8 signatureHex) as [sig|]; [|split; [done | by intros (? & ? & ? & _)]].
    destruct (hexToU8 publicKeyHex) as [pk|]; [|split; [done | by intros (? & ? & _ & ? & _)]].
    destruct (Nat.eqb_spec (length sig) 64) as [Hs|Hs]; cbn [negb].
    2:{ split; [done|]. intros (? & ? & [= <-] & _ & ? & _). done. }
    destruct (Nat.eqb_spec (length pk) 32) as [Hp|Hp]; cbn [negb].
    2:{ split; [done|]. intros (? & ? & _ & [= <-] & _ & ? & _). done. }
    destruct (verify (encode (timestamp ++ bodyText)%list) sig pk) as [[]|] eqn:Hv.
    - split; [|done]. intros _. by exists sig, pk.
    - split; [done|]. intros (? & ? & [= <-] & [= <-] & _ & _ & ?). congruence.
    - split; [done|]. intros (? & ? & [= <-] & [= <-] & _ & _ & ?). congruence. }
  split; [exact Hiff|]. intros H. apply Hiff in H as (sig & pk & Hsig & Hpk & Hs & Hp & _).
  destruct (hexToU8_Some _ _ Hsig) as (s & _ & -> & Hlen & _).
  destruct (hexToU8_Some _ _ Hpk) as (k & _ & -> & Hlen' & _).
  exists s, k. repeat split; lia.
Qed.

(** * The worker *)

Ltac task_unfold :=
  unfold deferredBody, checkGuildPermissions, isModeratorOrOwner, fetchGuildOwnerId,
    stubFetch, payloadData, workerNow, editOriginalInteractionResponse, throwTask,
    mbind, mret, Task_bind, Task_ret, plain.

(** The [try] block ends with one PATCH, its last step, or throws without
    one. *)
Lemma deferredBody_edits (platform : Platform) (interaction : Interaction) (c : Cloud) :
  match (deferredBody platform interaction c).1 with
  | Some _ =>
      ∃ e, edits (deferredBody platform interaction c).2 = (edits c ++ [e])%list
           ∧ e_application_id e = application_id interaction
           ∧ e_token e = token interaction
           ∧ e_allowed_mentions e = MentionParse []
  | None => edits (deferredBody platform interaction c).2 = edits c
  end.
Proof.
  task_unfold. cbv zeta.
  repeat case_match; simplify_eq/=; try done; eexists; (split; [reflexivity|]); done.
Qed.

Lemma task_bind_eq {A B} (m : Task A) (f : A → Task B) (c : Cloud) :
  (m ≫= f) c =
    match m c with
    | (Some a, c') => f a c'
    | (None, c') => (None, c')
    end.
Proof. reflexivity. Qed.

Lemma isModeratorOrOwner_looked (platform : Platform) (interaction : Interaction)
    (c : Cloud) :
  ∃ lookups,
    (isModeratorOrOwner platform interaction c).2 = looked c lookups
    ∧ (lookups = ownerLookups c
       ∨ lookups = (ownerLookups c ++ [default "" (guild_id interaction)])%list).
Proof.
  unfold isModeratorOrOwner, looked.
  destruct (negb (truthy (guild_id interaction))
            || negb (bool_decide (is_Some (member interaction)))).
  { exists (ownerLookups c). split; [by destruct c | by left]. }
  cbv zeta. destruct (hasAnyPerm _ MODERATOR_ANY_OF) as [[]|].
  - exists (ownerLookups c). split; [by destruct c | by left].
  - eexists. split; [reflexivity | by right].
  - exists (ownerLookups c). split; [by destruct c | by left].
Qed.

Lemma checkGuildPermissions_cases (platform : Platform) (interaction : Interaction)
    (command : option Command) (c : Cloud) :
  ∃ lookups,
    checkGuildPermissions platform interaction command c = (None, looked c lookups)
    ∨ (∃ rejection,
         checkGuildPermissions platform interaction command c
         = (Some (false, Some rejection), looked c lookups)
         ∧ m_allowed_mentions rejection = None
         ∧ (isModeratorOrOwner platform interaction c).1 = Some false)
    ∨ (checkGuildPermissions platform interaction command c
       = (Some (true, None), looked c lookups)
       ∧ (default false (requiresModerator <$> command) = true →
          (isModeratorOrOwner platform interaction c).1 = Some true)).
Proof.
  unfold checkGuildPermissions. rewrite task_bind_eq.
  destruct (default false (requiresModerator <$> command)).
  - destruct (isModeratorOrOwner_looked platform interaction c) as (lookups & Hc & _).
    exists lookups.
    destruct (isModeratorOrOwner platform interaction c) as [[[]|] c1];
      simpl in Hc; subst c1.
    + right. right. done.
    + right. left. eexists. done.
    + by left.
  - exists (ownerLookups c). right. right. split; [by destruct c | done].
Qed.

Lemma stubFetch_eq (platform : Platform) (g : string) (request : Request) (c : Cloud) :
  ∃ out,
    stubFetch platform g request c =
      (out,
       {| objects := <[g := (fetch (hosts platform g) request (objectOf c g)).2]> (objects c);
          edits := edits c; ownerLookups := ownerLookups c;
          workerTicks := workerTicks c |})
    ∧ (out = None
       ∨ out = Some NotFound
       ∨ ∃ content, out = Some (Reply content)).
Proof.
  unfold stubFetch. cbv zeta.
  destruct (fetch (hosts platform g) request (objectOf c g)).1 as [[content|]| |];
    eexists; (split; [reflexivity|]); eauto.
Qed.

(** What follows a request to the scheduler object: the reply is taken for
    the PATCH, or the block throws; the objects stay as the request left
    them. *)
Lemma after_stubFetch (platform : Platform) (interaction : Interaction) (g : string)
    (request : Request) (c : Cloud) :
  objects ((r ← stubFetch platform g request;
            data ← payloadData r;
            editOriginalInteractionResponse interaction data) c).2
  = <[g := (fetch (hosts platform g) request (objectOf c g)).2]> (objects c).
Proof.
  rewrite task_bind_eq.
  destruct (stubFetch_eq platform g request c) as (out & -> & [-> | [-> | [content ->]]]);
    done.
Qed.

(** The [try] block leaves the scheduler objects alone, or sends one request
    to the object of the interaction's guild, for a command the invoker may
    use. *)
Lemma deferredBody_objects (platform : Platform) (interaction : Interaction) (c : Cloud) :
  objects (deferredBody platform interaction c).2 = objects c
  ∨ ∃ g request cmd,
      guild_id interaction = Some g ∧ g ≠ ""
      ∧ commandMap (data_name interaction) = Some cmd
      ∧ (requiresModerator cmd = true →
         (isModeratorOrOwner platform interaction c).1 = Some true)
      ∧ Issued platform interaction c cmd g request
      ∧ objects (deferredBody platform interaction c).2
        = <[g := (fetch (hosts platform g) request (objectOf c g)).2]> (objects c).
Proof.
  unfold deferredBody. cbv zeta.
  destruct (truthy (guild_id interaction)) eqn:Hg; cbn [negb]; [|by left].
  assert (∃ g, guild_id interaction = Some g ∧ g ≠ "") as (g & Hgid & Hne).
  { destruct (guild_id interaction) as [g|]; [|done]. exists g. split; [done|].
    by intros ->. }
  rewrite task_bind_eq.
  destruct (checkGuildPermissions_cases platform interaction
              (commandMap (data_name interaction)) c)
    as (lookups & [-> | [(rej & -> & Hrej & _) | [-> Hmod]]]).
  - by left.
  - by left.
  - cbn [fst snd negb]. rewrite Hgid. change (default "" (Some g)) with g.
    destruct (commandMap (data_name interaction)) as [cmd|] eqn:Hcmd;
      cbn [mbind option_bind]; [|by left].
    destruct (c_schedule cmd) as [sched|] eqn:Hsched.
    + destruct (truthy (validator sched (subjectExtractor sched interaction))) eqn:Hval;
        [by left|].
      destruct (numberOf platform (getOption interaction "timestamp")) as [ts|] eqn:Hts;
        [|by left].
      rewrite task_bind_eq. unfold workerNow. cbn [workerTicks looked].
      destruct (Z.leb_spec (if ts >? 10000000000 then ts `div` 1000 else ts)
                  (workerClock platform (workerTicks c) `div` 1000)) as [Hpast|Hfuture];
        [by left|].
      right. eexists g, _, cmd. split; [done|]. split; [done|]. split; [done|].
      split; [exact Hmod|]. split.
      * by eapply (IssuedSchedule _ _ _ _ _ sched ts).
      * rewrite after_stubFetch. done.
    + destruct (bool_decide (action cmd = Some "list")) eqn:Hlist.
      { apply bool_decide_eq_true in Hlist.
        right. exists g, GetList, cmd. split; [done|]. split; [done|]. split; [done|].
        split; [exact Hmod|]. split; [by apply IssuedList|].
        by rewrite after_stubFetch. }
      destruct (bool_decide (action cmd = Some "cancel")) eqn:Hcancel; [|by left].
      apply bool_decide_eq_true in Hcancel.
      destruct (jobIdExtractor cmd) as [extractor|] eqn:Hex; [|by left].
      right. exists g, (PostCancel (extractor interaction)), cmd.
      split; [done|]. split; [done|]. split; [done|].
      split; [exact Hmod|]. split; [by apply IssuedCancel|].
      by rewrite after_stubFetch.
Qed.

(** ** Who is a moderator *)

Lemma land_pow2 (p : Z) (b : Z) :
  0 ≤ b → (Z.land p (2 ^ b) =? 2 ^ b) = Z.testbit p b.
Proof.
  intros Hb. destruct (Z.testbit p b) eqn:Hbit.
  - apply Z.eqb_eq, Z.bits_inj'. intros n Hn.
    rewrite Z.land_spec, Z.pow2_bits_eqb by done.
    destruct (Z.eqb_spec b n) as [<-|_]; [by rewrite Hbit | apply andb_false_r].
  - apply Z.eqb_neq. intros Heq.
    assert (Z.testbit (Z.land p (2 ^ b)) b = true) as Hone.
    { rewrite Heq, Z.pow2_bits_eqb by done. apply Z.eqb_refl. }
    rewrite Z.land_spec, Hbit in Hone. done.
Qed.

(** X19. [hasAnyPerm(permsStr, MODERATOR_ANY_OF)] is [false] for a missing or
    empty permissions string, throws when [BigInt] does, and otherwise is
    [true] exactly when the integer has one of the bits 1, 2, 3, 5, 13, 28
    and 40 set (kick, ban, administrator, manage guild, manage messages,
    manage roles, moderate members). *)
Theorem hasAnyPerm_moderator_bits (permsStr : option CodeUnits) :
  hasAnyPerm permsStr MODERATOR_ANY_OF =
    match permsStr with
    | None => Some false
    | Some [] => Some false
    | Some s =>
        p ← BigInt s;
        Some (Z.testbit p 1 || Z.testbit p 2 || Z.testbit p 3 || Z.testbit p 5
              || Z.testbit p 13 || Z.testbit p 28 || Z.testbit p 40)
    end.
Proof.
  destruct permsStr as [[|c s]|]; [done| |done].
  unfold hasAnyPerm, MODERATOR_ANY_OF.
  destruct (BigInt (c :: s)) as [p|]; [|done].
  cbn [mbind option_bind existsb]. f_equal.
  change ADMINISTRATOR with (2 ^ 3). change MANAGE_GUILD with (2 ^ 5).
  change MANAGE_MESSAGES with (2 ^ 13). change MODERATE_MEMBERS with (2 ^ 40).
  change KICK_MEMBERS with (2 ^ 1). change BAN_MEMBERS with (2 ^ 2).
  change MANAGE_ROLES with (2 ^ 28).
  rewrite !land_pow2 by lia.
  destruct (Z.testbit p 1), (Z.testbit p 2), (Z.testbit p 3), (Z.testbit p 5),
    (Z.testbit p 13), (Z.testbit p 28), (Z.testbit p 40); done.
Qed.

(** ** A deferred command *)

(** X20. [runDeferredCommand] never throws and always ends with exactly one
    PATCH of the original response, its last step, whatever the command,
    the permission check and the scheduler object do; the PATCH goes to the
    interaction's own application id and token and allows no mention. *)
Theorem deferred_command_answers_once (platform : Platform)
    (interaction : Interaction) (c : Cloud) :
  (runDeferredCommand platform interaction c).1 = Some tt
  ∧ ∃ e, edits (runDeferredCommand platform interaction c).2 = (edits c ++ [e])%list
         ∧ e_application_id e = application_id interaction
         ∧ e_token e = token interaction
         ∧ e_allowed_mentions e = MentionParse [].
Proof.
  unfold runDeferredCommand.
  pose proof (deferredBody_edits platform interaction c) as H.
  destruct (deferredBody platform interaction c) as [[[]|] c']; simpl in *.
  - done.
  - split; [done|]. eexists. rewrite H. done.
Qed.

Lemma runDeferredCommand_objects (platform : Platform) (interaction : Interaction)
    (c : Cloud) :
  objects (runDeferredCommand platform interaction c).2
  = objects (deferredBody platform interaction c).2.
Proof.
  unfold runDeferredCommand.
  by destruct (deferredBody platform interaction c) as [[[]|] c'].
Qed.

(** X21. A deferred command reaches no scheduler object when the interaction
    has no guild, and none when its command requires a moderator and
    [isModeratorOrOwner] does not return [true] (it returns [false] or
    throws). *)
Theorem unauthorized_command_reaches_no_object (platform : Platform)
    (interaction : Interaction) (c : Cloud) :
  truthy (guild_id interaction) = false
  ∨ (∃ cmd, commandMap (data_name interaction) = Some cmd
            ∧ requiresModerator cmd = true
            ∧ (isModeratorOrOwner platform interaction c).1 ≠ Some true) →
  objects (runDeferredCommand platform interaction c).2 = objects c.
Proof.
  intros Hno. rewrite runDeferredCommand_objects.
  destruct (deferredBody_objects platform interaction c)
    as [Hsame|(g & request & cmd & Hg & Hne & Hcmd & Hmod & _)]; [done|].
  exfalso. destruct Hno as [Hno|(cmd' & Hcmd' & Hreq & Hnot)].
  - rewrite Hg in Hno. simpl in Hno. destruct (String.eqb_spec g ""); done.
  - assert (cmd' = cmd) as -> by congruence. by apply Hnot, Hmod.
Qed.

(** X22. A deferred command reaches no scheduler object but the one of the
    interaction's own guild. *)
Theorem deferred_command_stays_in_its_guild (platform : Platform)
    (interaction : Interaction) (c : Cloud) (g : string) :
  guild_id interaction ≠ Some g →
  objects (runDeferredCommand platform interaction c).2 !! g = objects c !! g.
Proof.
  intros Hother. rewrite runDeferredCommand_objects.
  destruct (deferredBody_objects platform interaction c)
    as [->|(g' & request & cmd & Hg & _ & _ & _ & _ & ->)]; [done|].
  apply lookup_insert_ne. congruence.
Qed.

(** ** The jobs the commands store *)

Lemma commandMap_Some (k : option string) (cmd : Command) :
  commandMap k = Some cmd → cmd ∈ commands ∧ k = Some (name cmd).
Proof.
  destruct k as [k|]; [|done]. unfold commandMap, commands.
  cbn [foldl name mbind option_bind]. intros H.
  repeat (apply lookup_insert_Some in H as [[<- <-]|[_ H]];
          [split; [repeat first [by left | right] | done]|]).
  by rewrite lookup_empty in H.
Qed.

Lemma commands_deferred (cmd : Command) :
  cmd ∈ commands → defer cmd = true → requiresModerator cmd = true.
Proof.
  unfold commands. intros H.
  repeat (apply elem_of_cons in H as [->|H]; [done|]). by apply elem_of_nil in H.
Qed.

Lemma commands_schedule (cmd : Command) (sched : Schedule) (subject : string) :
  cmd ∈ commands → c_schedule cmd = Some sched →
  truthy (validator sched subject) = false →
  (s_doAtType sched = "ping-role" ∧ isSnowflake subject = true)
  ∨ (s_doAtType sched = "ping-user" ∧ isSnowflake subject = true)
  ∨ (s_doAtType sched = "channel-message" ∧ (1 ≤ utf16Length subject ≤ 2000)%nat).
Proof.
  unfold commands. intros H.
  repeat (apply elem_of_cons in H as [->|H]; [intros [= <-]; simpl|]).
  - unfold roleIdValidator. destruct (isSnowflake subject); [by left | done].
  - unfold userIdValidator. destruct (isSnowflake subject); [by right; left | done].
  - unfold messageValidator. intros Hval. right. right. split; [done|].
    destruct (Nat.eqb_spec (utf16Length subject) 0); [done|].
    destruct (Nat.ltb_spec 2000 (utf16Length subject)); [done | lia].
  - by apply elem_of_nil in H.
Qed.

Lemma validJob_handler (j : Job) : validJob j → ∃ h, doAtTypeHandlers (doAtType j) = Own h.
Proof.
  intros [[-> _]|[[-> _]|[-> _]]]; by eexists.
Qed.

Lemma movedFrom_valid (j0 j : Job) : movedFrom j0 j → validJob j0 → validJob j.
Proof. by intros (k & -> & _). Qed.

(** The jobs a deferred command leaves in a scheduler object: those that
    were there, and at most one new job, in the object of the guild of the
    interaction. *)
Lemma deferred_jobs (platform : Platform) (interaction : Interaction) (c : Cloud)
    (g : string) (j : Job) :
  j ∈ storedJobs (objectOf (runDeferredCommand platform interaction c).2 g) →
  j ∈ storedJobs (objectOf c g)
  ∨ (guild_id interaction = Some g
     ∧ (isModeratorOrOwner platform interaction c).1 = Some true
     ∧ validJob j
     ∧ id j = uuid (hosts platform g) (uuids (objectOf c g))
     ∧ guildId j = g
     ∧ channelId j = channel_id interaction
     ∧ createdBy j = invoker interaction
     ∧ runAtMs j = scheduledUnix j * 1000
     ∧ workerClock platform (workerTicks c) `div` 1000 < scheduledUnix j
     ∧ repeatDaily j = booleanOf (getOption interaction "repeat_daily")
     ∧ ∃ ts, numberOf platform (getOption interaction "timestamp") = Some ts
             ∧ scheduledUnix j = if ts >? 10000000000 then ts `div` 1000 else ts).
Proof.
  unfold objectOf at 1. rewrite runDeferredCommand_objects.
  destruct (deferredBody_objects platform interaction c)
    as [->|(g' & request & cmd & Hg & Hne & Hcmd & Hmod & Hissued & ->)].
  { by left. }
  destruct (decide (g' = g)) as [->|Hother].
  2:{ rewrite lookup_insert_ne by done. by left. }
  rewrite lookup_insert_eq. cbn [default from_option Datatypes.id].
  apply commandMap_Some in Hcmd as [Hin _].
  destruct (fetch_jobs (hosts platform g) request (objectOf c g))
    as [[-> _]|[(body & -> & _ & -> & _)|(idx & -> & _)]].
  - by left.
  - intros Hj. apply sortJobs_elem_of_1, elem_of_app in Hj as [Hj|Hj]; [by left|].
    apply list_elem_of_singleton in Hj as ->. right.
    inversion Hissued as [sched ts Hsched Hval Hts Hfuture Hbody| |]; subst.
    split; [done|]. split.
    { apply Hmod. eapply commands_deferred; [done|].
      revert Hin Hsched. unfold commands. clear. intros H.
      repeat (apply elem_of_cons in H as [->|H]; [done|]). by apply elem_of_nil in H. }
    split; [by apply (commands_schedule cmd sched)|].
    repeat (split; [done|]). split.
    { simpl. by destruct (booleanOf (getOption interaction "repeat_daily")). }
    by exists ts.
  - intros Hj. apply sortJobs_elem_of_1 in Hj. left.
    by eapply list_elem_of_delete_inv.
Qed.

(** X23. What a deferred command adds to the scheduler: every job stored in
    an object after [runDeferredCommand] was stored there before, or is one
    new job in the object of the interaction's guild, scheduled by a
    moderator or the owner: a role or user ping of a subject of 5 to 30
    digits or a message of 1 to 2000 code units, created for the
    interaction's channel and user, with a fresh id and a time, in seconds,
    after the worker's clock. The time is the [timestamp] option, divided
    by 1000 and rounded down when it is above 10,000,000,000; the job
    repeats daily when the [repeat_daily] option is truthy. *)
Theorem deferred_command_stores_valid_job (platform : Platform)
    (interaction : Interaction) (c : Cloud) (g : string) (j : Job) :
  j ∈ storedJobs (objectOf (runDeferredCommand platform interaction c).2 g) →
  j ∉ storedJobs (objectOf c g) →
  guild_id interaction = Some g
  ∧ (isModeratorOrOwner platform interaction c).1 = Some true
  ∧ validJob j
  ∧ (∃ h, doAtTypeHandlers (doAtType j) = Own h)
  ∧ id j = uuid (hosts platform g) (uuids (objectOf c g))
  ∧ guildId j = g
  ∧ channelId j = channel_id interaction
  ∧ createdBy j = invoker interaction
  ∧ runAtMs j = scheduledUnix j * 1000
  ∧ workerClock platform (workerTicks c) `div` 1000 < scheduledUnix j
  ∧ repeatDaily j = booleanOf (getOption interaction "repeat_daily")
  ∧ ∃ ts, numberOf platform (getOption interaction "timestamp") = Some ts
          ∧ scheduledUnix j = if ts >? 10000000000 then ts `div` 1000 else ts.
Proof.
  intros Hj Hnew.
  destruct (deferred_jobs platform interaction c g j Hj)
    as [?|(? & ? & Hvalid & ? & ? & ? & ? & ? & ? & ? & ?)]; [done|].
  pose proof (validJob_handler j Hvalid). done.
Qed.

(** ** The front door *)

Lemma runDeferredCommand_returns (platform : Platform) (interaction : Interaction)
    (c : Cloud) :
  (runDeferredCommand platform interaction c).1 = Some tt.
Proof.
  unfold runDeferredCommand.
  by destruct (deferredBody platform interaction c) as [[[]|] c'].
Qed.

(** [fetch] answers without touching anything; or throws, of a POST with
    both signature headers whose signature verifies and whose body parses
    to [null]; or acknowledges a deferred command and runs it: a POST with
    both signature headers whose signature verifies and whose body is an
    interaction of type 2 that names a command with [defer: true]. *)
Lemma Worker_fetch_cases (platform : Platform) (request : WorkerRequest) (c : Cloud) :
  (∃ answer, Worker.fetch platform request c = (Some answer, c)
             ∧ answer ≠ DeferredAck
             ∧ ¬ (method request = "POST"
                  ∧ (∃ s sig, signatureHeader request = Some (s :: sig))
                  ∧ (∃ t ts, timestampHeader request = Some (t :: ts))
                  ∧ verifyDiscordRequest (verify platform) (encode platform)
                      (PUBLIC_KEY platform) (signatureHeader request)
                      (default [] (timestampHeader request)) (bodyText request) = true
                  ∧ parseJson platform (bodyText request) = Some JsonNull))
  ∨ (Worker.fetch platform request c = (None, c)
     ∧ method request = "POST"
     ∧ (∃ s sig, signatureHeader request = Some (s :: sig))
     ∧ (∃ t ts, timestampHeader request = Some (t :: ts))
     ∧ verifyDiscordRequest (verify platform) (encode platform) (PUBLIC_KEY platform)
         (signatureHeader request) (default [] (timestampHeader request))
         (bodyText request) = true
     ∧ parseJson platform (bodyText request) = Some JsonNull)
  ∨ ∃ sig ts interaction cmd,
      method request = "POST"
      ∧ signatureHeader request = Some sig
      ∧ timestampHeader request = Some ts
      ∧ verifyDiscordRequest (verify platform) (encode platform) (PUBLIC_KEY platform)
          (Some sig) ts (bodyText request) = true
      ∧ parseJson platform (bodyText request) = Some (JsonObject interaction)
      ∧ type interaction = 2
      ∧ commandMap (data_name interaction) = Some cmd
      ∧ defer cmd = true
      ∧ Worker.fetch platform request c
        = (Some DeferredAck, (runDeferredCommand platform interaction c).2).
Proof.
  unfold Worker.fetch.
  destruct (String.eqb_spec (method request) "GET") as [Hget|_].
  { left. eexists. split; [done|]. split; [done|]. intros (Hpost & _). congruence. }
  destruct (String.eqb_spec (method request) "POST") as [Hpost|Hpost]; cbn [negb];
    [|left; eexists; split; [done|]; split; [done|]; by intros (? & _)].
  destruct (signatureHeader request) as [[|s sig]|] eqn:Hsig;
    [left; eexists; split; [done|]; split; [done|]; by intros (_ & (? & ? & ?) & _)
    | 
    |left; eexists; split; [done|]; split; [done|]; by intros (_ & (? & ? & ?) & _)].
  destruct (timestampHeader request) as [[|t ts]|] eqn:Hts;
    [left; eexists; split; [done|]; split; [done|]; by intros (_ & _ & (? & ? & ?) & _)
    | 
    |left; eexists; split; [done|]; split; [done|]; by intros (_ & _ & (? & ? & ?) & _)].
  cbv zeta. cbn [default from_option Datatypes.id].
  destruct (verifyDiscordRequest _ _ _ _ _ _) eqn:Hok; cbn [negb];
    [|left; eexists; split; [done|]; split; [done|]; by intros (_ & _ & _ & ? & _)].
  destruct (parseJson platform (bodyText request)) as [[| |interaction]|] eqn:Hparse;
    [ 
    |left; eexists; split; [done|]; split; [done|]; by intros (_ & _ & _ & _ & ?)
    | 
    |left; eexists; split; [done|]; split; [done|]; by intros (_ & _ & _ & _ & ?)].
  { right. left. split; [done|]. split; [done|].
    split; [by eexists _, _|]. split; [by eexists _, _|]. done. }
  destruct (Z.eqb_spec (type interaction) 1) as [|_];
    [left; eexists; split; [done|]; split; [done|]; by intros (_ & _ & _ & _ & ?)|].
  destruct (Z.eqb_spec (type interaction) 2) as [Htype|_]; cbn [negb];
    [|left; eexists; split; [done|]; split; [done|]; by intros (_ & _ & _ & _ & ?)].
  destruct (if bool_decide (defer <$> commandMap (data_name interaction) = Some false)
            then commandMap (data_name interaction) ≫= response else None)
    as [data|];
    [left; eexists; split; [done|]; split; [done|]; by intros (_ & _ & _ & _ & ?)|].
  destruct (bool_decide (defer <$> commandMap (data_name interaction) = Some true))
    eqn:Hdefer; cbn [negb];
    [|left; eexists; split; [done|]; split; [done|]; by intros (_ & _ & _ & _ & ?)].
  apply bool_decide_eq_true in Hdefer.
  destruct (commandMap (data_name interaction)) as [cmd|] eqn:Hcmd; [|done].
  injection Hdefer as Hdefer.
  right. right. exists (s :: sig), (t :: ts), interaction, cmd.
  repeat (split; [done|]).
  rewrite task_bind_eq.
  pose proof (runDeferredCommand_returns platform interaction c) as Hret.
  destruct (runDeferredCommand platform interaction c) as [[[]|] c']; done.
Qed.


(** X25. Every job the deployment ever stores is one the commands make: if
    the jobs stored in the scheduler objects are role or user pings of a
    subject of 5 to 30 digits or messages of 1 to 2000 code units, so are
    all jobs stored after any sequence of worker requests and alarms; in
    particular every stored kind has a handler of its own. *)
Theorem every_stored_job_is_valid (platform : Platform) (events : list CloudEvent)
    (c : Cloud) :
  (∀ g j, j ∈ storedJobs (objectOf c g) → validJob j) →
  ∀ g j, j ∈ storedJobs (objectOf (cloudRun platform events c) g) →
         validJob j ∧ ∃ h, doAtTypeHandlers (doAtType j) = Own h.
Proof.
  intros Hc g j Hj.
  assert (Hvalid : validJob j); [|split; [done | by apply validJob_handler]].
  revert c Hc g j Hj. induction events as [|e events IH]; intros c Hc g j Hj.
  { by apply (Hc g). }
  apply (IH (cloudStep platform c e)) in Hj; [done|]. clear g j Hj.
  intros g j Hj. destruct e as [request|guild fuel]; cbn [cloudStep] in Hj.
  - destruct (Worker_fetch_cases platform request c)
      as [(answer & Heq & _)|[(Heq & _)
         |(sig & ts & interaction & cmd & _ & _ & _ & _ & _ & _ & _ & _ & Heq)]];
      rewrite Heq in Hj; cbn [snd] in Hj.
    + by apply (Hc g).
    + by apply (Hc g).
    + destruct (deferred_jobs platform interaction c g j Hj)
        as [Hold|(_ & _ & Hnew & _)]; [by apply (Hc g) | done].
  - unfold objectOf at 1 in Hj. cbn [objects] in Hj.
    destruct (decide (guild = g)) as [->|Hother].
    + rewrite lookup_insert_eq in Hj. cbn [default from_option Datatypes.id] in Hj.
      revert j Hj.
      apply (alarm_jobs_inv (λ l, ∀ j, j ∈ l → validJob j)); [|by apply Hc].
      intros l l' Hl Hrew j Hj.
      destruct (Rewritten_elem l l' j Hrew Hj) as (j0 & Hj0 & Hmv).
      eapply movedFrom_valid; [done | by apply Hl].
    + rewrite lookup_insert_ne in Hj by done. by apply (Hc g).
Qed.

(** ** The permission check *)

(** X26. [isModeratorOrOwner] returns [true] in two cases only: the member's
    permissions hold a moderator bit, and then no request is made; or the
    one GET of the guild was answered with success and an owner id that is
    the id of the invoker. It never touches a scheduler object or the
    original response. *)
Theorem moderator_or_owner_only (platform : Platform) (interaction : Interaction)
    (c : Cloud) :
  objects (isModeratorOrOwner platform interaction c).2 = objects c
  ∧ edits (isModeratorOrOwner platform interaction c).2 = edits c
  ∧ ((isModeratorOrOwner platform interaction c).1 = Some true →
     ∃ g m, guild_id interaction = Some g ∧ g ≠ "" ∧ member interaction = Some m
       ∧ ((hasAnyPerm (permissions m) MODERATOR_ANY_OF = Some true
           ∧ (isModeratorOrOwner platform interaction c).2 = c)
          ∨ (hasAnyPerm (permissions m) MODERATOR_ANY_OF = Some false
             ∧ ownerLookups (isModeratorOrOwner platform interaction c).2
               = (ownerLookups c ++ [g])%list
             ∧ ∃ owner,
                 owner ≠ ""
                 ∧ answered_ok (guildApi platform (length (ownerLookups c))) = true
                 ∧ owner_id (guildApi platform (length (ownerLookups c))) = Some owner
                 ∧ invoker interaction = Some owner))).
Proof.
  destruct (isModeratorOrOwner_looked platform interaction c) as (lookups & Hc & _).
  split; [by rewrite Hc|]. split; [by rewrite Hc|]. clear lookups Hc.
  unfold isModeratorOrOwner, invoker.
  destruct (guild_id interaction) as [g|]; [|done].
  destruct (String.eqb_spec g "") as [->|Hne]; [done|].
  assert (truthy (Some g) = true) as ->.
  { simpl. by destruct (String.eqb_spec g ""). }
  destruct (member interaction) as [m|]; [|done].
  rewrite bool_decide_eq_true_2 by by eexists. cbn [negb orb]. cbv zeta.
  cbn [mbind option_bind].
  destruct (hasAnyPerm (permissions m) MODERATOR_ANY_OF) as [[]|] eqn:Hperm; [| |done].
  - intros _. exists g, m. repeat (split; [done|]). left. by destruct c.
  - rewrite task_bind_eq. unfold fetchGuildOwnerId. cbv zeta. cbn [fst snd default].
    intros [= Htrue]. exists g, m. repeat (split; [done|]). right.
    split; [done|]. split; [done|].
    apply andb_true_iff in Htrue as [Htrue Heq].
    apply andb_true_iff in Htrue as [Howner _].
    apply bool_decide_eq_true in Heq.
    destruct (answered_ok (guildApi platform (length (ownerLookups c)))); [|done].
    cbn [negb] in *.
    destruct (owner_id (guildApi platform (length (ownerLookups c)))) as [owner|];
      [|done].
    exists owner. split.
    { intros ->. done. }
    done.
Qed.

(** ** A command that goes through *)

Lemma commands_scheduling (cmd : Command) (sched : Schedule) :
  cmd ∈ commands → c_schedule cmd = Some sched →
  requiresModerator cmd = true ∧ inHandlers (s_doAtType sched) = true.
Proof.
  unfold commands. intros H.
  repeat (apply elem_of_cons in H as [->|H]; [by intros [= <-]|]).
  by apply elem_of_nil in H.
Qed.

Lemma isModeratorOrOwner_moderator (platform : Platform) (interaction : Interaction)
    (c : Cloud) (g : string) (m : Member) :
  guild_id interaction = Some g → g ≠ "" →
  member interaction = Some m →
  hasAnyPerm (permissions m) MODERATOR_ANY_OF = Some true →
  isModeratorOrOwner platform interaction c = (Some true, c).
Proof.
  intros Hg Hne Hm Hperm. unfold isModeratorOrOwner. rewrite Hg, Hm.
  assert (truthy (Some g) = true) as ->.
  { simpl. by destruct (String.eqb_spec g ""). }
  rewrite bool_decide_eq_true_2 by by eexists. cbn [negb orb]. cbv zeta.
  cbn [mbind option_bind]. by rewrite Hperm.
Qed.

(** X27. A scheduling command from a guild member with a moderator
    permission, with a subject its validator accepts and a timestamp after
    the worker's clock, goes through: the object of the guild stores the
    new job with the jobs it had, sorted, its alarm points at the earliest
    of them, and the one PATCH of the original response carries the reply
    of the scheduler object. *)
Theorem moderator_schedules_a_job (platform : Platform) (interaction : Interaction)
    (c : Cloud) (g : string) (m : Member) (cmd : Command) (sched : Schedule) (ts : Z) :
  guild_id interaction = Some g → g ≠ "" →
  member interaction = Some m →
  hasAnyPerm (permissions m) MODERATOR_ANY_OF = Some true →
  commandMap (data_name interaction) = Some cmd →
  c_schedule cmd = Some sched →
  validator sched (subjectExtractor sched interaction) = None →
  numberOf platform (getOption interaction "timestamp") = Some ts →
  workerClock platform (workerTicks c) `div` 1000
    < (if ts >? 10000000000 then ts `div` 1000 else ts) →
  let unix := if ts >? 10000000000 then ts `div` 1000 else ts in
  let w := objectOf c g in
  let body := {| b_guildId := g;
                 b_channelId := channel_id interaction;
                 b_doAtType := s_doAtType sched;
                 b_doAtSubject := subjectExtractor sched interaction;
                 b_scheduledUnix := unix;
                 b_repeatDaily := JBool (booleanOf (getOption interaction "repeat_daily"));
                 b_createdBy := invoker interaction |} in
  let j := jobOf (uuid (hosts platform g) (uuids w)) body in
  let c' := (runDeferredCommand platform interaction c).2 in
  storedJobs (objectOf c' g) = sortJobs (storedJobs w ++ [j])
  ∧ alarmAt (objectOf c' g) = runAtMs <$> head (sortJobs (storedJobs w ++ [j]))
  ∧ (∀ g', g' ≠ g → objects c' !! g' = objects c !! g')
  ∧ ∃ e, edits c' = (edits c ++ [e])%list
         ∧ (schedule (hosts platform g) body w).1 = Returned (Reply (e_content e)).
Proof.
  intros Hg Hne Hm Hperm Hcmd Hsched Hval Hts Hfuture unix w body j c'.
  subst unix w body j c'. unfold invoker.
  destruct (commandMap_Some _ _ Hcmd) as [Hin _].
  destruct (commands_scheduling cmd sched Hin Hsched) as [Hreq Hkind].
  match goal with |- context [schedule ?host ?body ?w] =>
    destruct (schedule_valid host body w Hkind) as [content Hs] end.
  cbv zeta in Hs.
  assert (Hrun : ∃ c1,
    runDeferredCommand platform interaction c = (Some tt, c1)
    ∧ objects c1
      = <[g := (schedule (hosts platform g)
                  {| b_guildId := g;
                     b_channelId := channel_id interaction;
                     b_doAtType := s_doAtType sched;
                     b_doAtSubject := subjectExtractor sched interaction;
                     b_scheduledUnix := if ts >? 10000000000 then ts `div` 1000 else ts;
                     b_repeatDaily :=
                       JBool (booleanOf (getOption interaction "repeat_daily"));
                     b_createdBy :=
                       match member interaction ≫= member_user_id with
                       | Some u => Some u
                       | None => user_id interaction
                       end |} (objectOf c g)).2]> (objects c)
    ∧ edits c1
      = (edits c ++ [{| e_application_id := application_id interaction;
                        e_token := token interaction;
                        e_content := content;
                        e_allowed_mentions := MentionParse [] |}])%list).
  { unfold runDeferredCommand, deferredBody. cbv zeta. rewrite Hg.
    assert (truthy (Some g) = true) as ->.
    { simpl. by destruct (String.eqb_spec g ""). }
    cbn [negb]. rewrite task_bind_eq. unfold checkGuildPermissions.
    rewrite task_bind_eq, Hcmd.
    change (default false (requiresModerator <$> Some cmd)) with (requiresModerator cmd).
    rewrite Hreq, (isModeratorOrOwner_moderator platform interaction c g m) by done.
    unfold mret at 1, Task_ret at 1. cbn [fst snd negb mbind option_bind].
    rewrite Hsched, Hval. cbn [truthy]. rewrite Hts.
    rewrite task_bind_eq. unfold workerNow.
    destruct (Z.leb_spec (if ts >? 10000000000 then ts `div` 1000 else ts)
                (workerClock platform (workerTicks c) `div` 1000)) as [?|_]; [lia|].
    rewrite task_bind_eq. unfold stubFetch. cbv zeta.
    change (default "" (Some g)) with g.
    change (objectOf {| objects := objects c; edits := edits c;
                        ownerLookups := ownerLookups c;
                        workerTicks := S (workerTicks c) |} g) with (objectOf c g).
    cbn [fetch objects edits ownerLookups workerTicks].
    rewrite Hs. cbn [fst snd]. eexists. split; [reflexivity|]. done. }
  destruct Hrun as (c1 & -> & Hobj & Hedits). cbn [snd].
  assert (Hw : objectOf c1 g
               = setAlarmAt
                   (runAtMs <$> head (sortJobs (storedJobs (objectOf c g) ++
                      [jobOf (uuid (hosts platform g) (uuids (objectOf c g)))
                         {| b_guildId := g;
                            b_channelId := channel_id interaction;
                            b_doAtType := s_doAtType sched;
                            b_doAtSubject := subjectExtractor sched interaction;
                            b_scheduledUnix :=
                              if ts >? 10000000000 then ts `div` 1000 else ts;
                            b_repeatDaily :=
                              JBool (booleanOf (getOption interaction "repeat_daily"));
                            b_createdBy :=
                              match member interaction ≫= member_user_id with
                              | Some u => Some u
                              | None => user_id interaction
                              end |}])))
                   (setJobs (sortJobs (storedJobs (objectOf c g) ++
                      [jobOf (uuid (hosts platform g) (uuids (objectOf c g)))
                         {| b_guildId := g;
                            b_channelId := channel_id interaction;
                            b_doAtType := s_doAtType sched;
                            b_doAtSubject := subjectExtractor sched interaction;
                            b_scheduledUnix :=
                              if ts >? 10000000000 then ts `div` 1000 else ts;
                            b_repeatDaily :=
                              JBool (booleanOf (getOption interaction "repeat_daily"));
                            b_createdBy :=
                              match member interaction ≫= member_user_id with
                              | Some u => Some u
                              | None => user_id interaction
                              end |}]))
                      (countUuid (objectOf c g)))).
  { unfold objectOf at 1. rewrite Hobj, lookup_insert_eq.
    cbn [default from_option Datatypes.id]. rewrite Hs. cbn [snd].
    unfold storedJobs at 1. cbn [jobsStore setJobs default from_option Datatypes.id].
    by rewrite sortJobs_idemp. }
  rewrite Hw, Hs. cbn [fst]. split; [done|]. split; [done|]. split.
  - intros g' Hother. rewrite Hobj. by apply lookup_insert_ne.
  - eexists. split; [exact Hedits|]. done.
Qed.

(** * The worker's properties at sample inputs *)

Lemma hexToU8_halves_the_length_witness :
  ∃ s, Some (unitsOf "0aFF") = Some s
       ∧ length s = (2 * length [10; 255])%nat
       ∧ Forall (λ b, 0 ≤ b < 256) [10; 255].
Proof.
  apply (hexToU8_halves_the_length (Some (unitsOf "0aFF")) [10; 255]).
  vm_compute. reflexivity.
Defined.

Lemma hexToU8_decodes_digit_pairs_witness :
  hexToU8 (Some (unitsOf "0aFF")) = Some [10; 255].
Proof.
  refine (proj1 (hexToU8_decodes_digit_pairs (unitsOf "0aFF") _ _)).
  - repeat constructor; by eexists.
  - reflexivity.
Defined.

Lemma hexToU8_of_toHex_witness :
  hexToU8 (Some (toHex [0; 127; 255])) = Some [0; 127; 255].
Proof.
  apply hexToU8_of_toHex. repeat constructor; lia.
Defined.

(** A member without a moderator permission who is not the owner. *)
Lemma unauthorized_command_reaches_no_object_witness :
  let interaction := sampleInteraction "pingroleat" "2048" 1700000000 in
  objects (runDeferredCommand (samplePlatform interaction) interaction emptyCloud).2 = ∅.
Proof.
  intros interaction.
  apply (unauthorized_command_reaches_no_object (samplePlatform interaction)
           interaction emptyCloud).
  right. eexists. split; [vm_compute; reflexivity|]. split; [reflexivity|].
  vm_compute. congruence.
Defined.

Lemma deferred_command_stays_in_its_guild_witness :
  let interaction := sampleInteraction "pingroleat" "8" 1700000000 in
  objects (runDeferredCommand (samplePlatform interaction) interaction emptyCloud).2
    !! "g2" = None.
Proof.
  intros interaction.
  apply (deferred_command_stays_in_its_guild (samplePlatform interaction)
           interaction emptyCloud "g2").
  vm_compute. congruence.
Defined.

(** An administrator (permission integer 8) schedules a role ping. *)
Lemma moderator_schedules_a_job_witness :
  let interaction := sampleInteraction "pingroleat" "8" 1700000000 in
  let c' := (runDeferredCommand (samplePlatform interaction) interaction emptyCloud).2 in
  ∃ j, storedJobs (objectOf c' "g1") = [j]
       ∧ doAtType j = "ping-role" ∧ doAtSubject j = "123456"
       ∧ scheduledUnix j = 1700000000
       ∧ alarmAt (objectOf c' "g1") = Some 1700000000000.
Proof.
  intros interaction c'.
  destruct (moderator_schedules_a_job (samplePlatform interaction) interaction emptyCloud
              "g1" {| permissions := Some (unitsOf "8"); member_user_id := Some "7" |}
              {| name := "pingroleat"; requiresModerator := true; defer := true;
                 response := None;
                 c_schedule := Some {| s_doAtType := "ping-role";
                                       subjectExtractor := optionString "role";
                                       validator := roleIdValidator |};
                 action := None; jobIdExtractor := None |}
              {| s_doAtType := "ping-role";
                 subjectExtractor := optionString "role";
                 validator := roleIdValidator |}
              1700000000) as (Hjobs & Halarm & _).
  - reflexivity.
  - congruence.
  - reflexivity.
  - vm_compute. reflexivity.
  - vm_compute. reflexivity.
  - reflexivity.
  - vm_compute. reflexivity.
  - reflexivity.
  - vm_compute. reflexivity.
  - eexists. split; [exact Hjobs|]. split; [reflexivity|]. split; [reflexivity|].
    split; [reflexivity | exact Halarm].
Defined.

Lemma deferred_command_stores_valid_job_witness :
  let interaction := sampleInteraction "pingroleat" "8" 1700000000 in
  let platform := samplePlatform interaction in
  let j := {| id := "job-0"; guildId := "g1"; channelId := "c1";
              doAtType := "ping-role"; doAtSubject := "123456";
              scheduledUnix := 1700000000; runAtMs := 1700000000000;
              repeatDaily := false; createdBy := Some "7" |} in
  (isModeratorOrOwner platform interaction emptyCloud).1 = Some true
  ∧ validJob j
  ∧ workerClock platform 0 `div` 1000 < scheduledUnix j.
Proof.
  intros interaction platform j.
  destruct (deferred_command_stores_valid_job platform interaction emptyCloud "g1" j)
    as (_ & Hmod & Hvalid & _ & _ & _ & _ & _ & _ & Hafter & _).
  - vm_compute. left.
  - vm_compute. intros H. by apply elem_of_nil in H.
  - split; [exact Hmod|]. split; [exact Hvalid | exact Hafter].
Defined.

Lemma every_stored_job_is_valid_witness :
  let interaction := sampleInteraction "pingroleat" "8" 1700000000 in
  let platform := samplePlatform interaction in
  Forall (λ j, validJob j ∧ ∃ h, doAtTypeHandlers (doAtType j) = Own h)
    (storedJobs
       (objectOf (cloudRun platform [Receive sampleRequest; Alarm "g1" 3;
                                     Receive sampleRequest] emptyCloud) "g1")).
Proof.
  intros interaction platform. apply Forall_forall. intros j.
  apply (every_stored_job_is_valid platform).
  intros g j' Hj'. unfold objectOf, emptyCloud in Hj'. cbn [objects] in Hj'.
  rewrite lookup_empty in Hj'. by apply elem_of_nil in Hj'.
Defined.
